(** * Truthful auction of heterogeneous divisible goods: approximation algorithms

    A shallow embedding of [time_auction_approximation.py] (Aumann, Dombb,
    Hassidim: "Auctioning time", algorithms 1-3) and the properties of its
    partition builders, matching graphs and orchestrators.

    Conventions of the embedding.
    - In the orchestrators Python floats are idealised as exact rationals
      [Q]; value equality of floats is [Qeq] ([==]).  Python ints are [Z].
      What depends on the rounding of binary64 arithmetic is not visible in
      that idealisation: the partition builder is therefore also embedded
      on binary64 numbers, in module [Binary64], and the statements about
      the number and the ends of its pieces are made there.
    - Algorithms 2 and 3 never compute with the coordinates of the pieces
      they are given, they compare them and pass them to the agents: there
      the coordinates are a type parameter [C] with decidable equality.
      Where algorithm 3 rounds and sorts its boundaries the parameter is
      instantiated with rationals in lowest terms ([Decimal_Marking]): the
      rounding is the one to four decimals, the order that of the numbers.
    - A Python exception is a value of type [exn]; a function that can raise
      returns [res A = exn + A].
    - The orchestrators call two external collaborators, the agents'
      valuation oracle and the maximum-weight matching solver.  Both are
      parameters; every call to them is recorded in an event log, so that
      "nothing was computed before the error" is a statement about the log.
    - A Python [dict] is an association list in insertion order, a Python
      [set] is a duplicate-free list in some iteration order. *)

From Stdlib Require Import String.
From Stdlib Require Import List ZArith QArith Qround Qabs Lia Lqa Bool Arith Sorted Permutation.
From Stdlib Require Floats.
Import ListNotations.
Local Open Scope nat_scope.
Local Open Scope list_scope.

Set Implicit Arguments.

(* ------------------------------------------------------------------ *)
(** ** Exceptions and results *)

Inductive exn : Type :=
| ValueError (msg : string)
| TypeError (msg : string)
| IndexError (msg : string)
| NonTermination.

Definition res (A : Type) : Type := (exn + A)%type.

Definition rbind {A B : Type} (r : res A) (f : A -> res B) : res B :=
  match r with
  | inl e => inl e
  | inr a => f a
  end.

Fixpoint rmap {A B : Type} (f : A -> res B) (l : list A) : res (list B) :=
  match l with
  | [] => inr []
  | x :: xs =>
      rbind (f x) (fun y => rbind (rmap f xs) (fun ys => inr (y :: ys)))
  end.

(* ------------------------------------------------------------------ *)
(** ** Python built-ins used by the module *)

(** [int(x)] on a float with a finite value: truncation towards zero. *)
Definition py_int (x : Q) : Z := Z.quot (Qnum x) (Z.pos (Qden x)).

(** [len(range(start, stop, step))] for a positive step. *)
Definition range_len (start stop step : Z) : nat :=
  if (stop <=? start)%Z then O
  else Z.to_nat ((stop - start - 1) / step + 1).

(** [range(start, stop, step)] for a positive step. *)
Definition py_range (start stop step : Z) : list Z :=
  map (fun i => (start + Z.of_nat i * step)%Z) (seq 0 (range_len start stop step)).

(** [l[i]]: a negative index counts from the end, an index out of range
    raises [IndexError]. *)
Definition py_index {A : Type} (l : list A) (i : Z) : res A :=
  let j := if (i <? 0)%Z then (i + Z.of_nat (length l))%Z else i in
  if (j <? 0)%Z then inl (IndexError "list index out of range")
  else match nth_error l (Z.to_nat j) with
       | Some x => inr x
       | None => inl (IndexError "list index out of range")
       end.

(* ------------------------------------------------------------------ *)
(** ** PartitionBuilder *)

(** A piece is the tuple [(start, end)] over a coordinate type. *)
Definition Piece (C : Type) : Type := (C * C)%type.

(** The [while end <= 1] loop of [create_partition] with exact sums, as the
    orchestrators use it; [None] when the fuel runs out before the loop
    condition fails.  The loop on floats, with rounded sums, is
    [Binary64.create_partition_loop]. *)
Fixpoint create_partition_loop (fuel : nat) (size start end_ : Q)
    (ret : list (Piece Q)) : option (list (Piece Q)) :=
  if Qle_bool end_ 1 then
    match fuel with
    | O => None
    | S fuel' =>
        let ret := ret ++ [(start, end_)] in
        let start := end_ in
        let end_ := (start + size)%Q in
        create_partition_loop fuel' size start end_ ret
    end
  else Some ret.

Definition create_partition_fuel (fuel : nat) (size start : Q)
    : option (list (Piece Q)) :=
  create_partition_loop fuel size start (start + size)%Q [].

(** A number of iterations that is enough whenever [0 < size]. *)
Definition partition_fuel (size start : Q) : nat :=
  S (Z.to_nat (Qfloor ((1 - start) / size)%Q)).

(** [create_partition(size, start=0)] with exact sums; non-termination of
    the loop (with exact sums only possible for [size <= 0]) is reported as
    [NonTermination]. *)
Definition create_partition (size start : Q) : res (list (Piece Q)) :=
  match create_partition_fuel (partition_fuel size start) size start with
  | Some l => inr l
  | None => inl NonTermination
  end.

(** [change_partition(partition, t)]. *)
Definition change_partition {C : Type} (partition : list (Piece C)) (t : nat)
    : res (list (Piece C)) :=
  rmap (fun start : Z =>
          let end_ := (start + 2 ^ Z.of_nat t - 1)%Z in
          rbind (py_index partition start) (fun ps =>
          rbind (py_index partition end_) (fun pe =>
          inr (fst ps, snd pe))))
       (py_range 0 (Z.of_nat (length partition) - 2 ^ Z.of_nat t + 1)
                 (2 ^ Z.of_nat t)).

(* ------------------------------------------------------------------ *)
(** ** Equality of Python objects, dicts and sets *)

(** Decidable equality: [==] on tuples and ints, object identity on agents. *)
Class EqDec (A : Type) : Type :=
  eq_dec : forall x y : A, {x = y} + {x <> y}.

#[export] Instance Z_EqDec : EqDec Z := Z.eq_dec.
#[export] Instance nat_EqDec : EqDec nat := Nat.eq_dec.

(** Equality of fractions as terms; on fractions in lowest terms it is the
    equality of their values. *)
#[export] Instance Q_EqDec : EqDec Q.
Proof.
  intros [n d] [n' d'].
  destruct (Z.eq_dec n n'); [ | right; congruence ].
  destruct (Pos.eq_dec d d'); [ left | right ]; congruence.
Defined.

#[export] Instance prod_EqDec {A B : Type} `{EqDec A} `{EqDec B} : EqDec (A * B).
Proof.
  intros [a b] [a' b'].
  destruct (eq_dec a a') as [Ha | Ha]; [ | right; congruence ].
  destruct (eq_dec b b') as [Hb | Hb]; [ left | right ]; congruence.
Defined.

#[export] Instance sum_EqDec {A B : Type} `{EqDec A} `{EqDec B} : EqDec (A + B).
Proof.
  intros [a | b] [a' | b']; try (right; congruence).
  - destruct (eq_dec a a'); [ left | right ]; congruence.
  - destruct (eq_dec b b'); [ left | right ]; congruence.
Defined.

Definition inb {A : Type} `{EqDec A} (x : A) (l : list A) : bool :=
  if in_dec eq_dec x l then true else false.

(** [s.add(x)] on a set kept as a duplicate-free list. *)
Definition set_add {A : Type} `{EqDec A} (x : A) (s : list A) : list A :=
  if in_dec eq_dec x s then s else s ++ [x].

(** [set(l)]. *)
Definition to_set {A : Type} `{EqDec A} (l : list A) : list A :=
  fold_left (fun s x => set_add x s) l [].

(** A dict in insertion order. *)
Definition dict (K V : Type) : Type := list (K * V).

(** [d[k] = v]: an existing key keeps its position. *)
Fixpoint dict_set {K V : Type} `{EqDec K} (d : dict K V) (k : K) (v : V)
    : dict K V :=
  match d with
  | [] => [(k, v)]
  | (k', v') :: d' =>
      if eq_dec k k' then (k', v) :: d' else (k', v') :: dict_set d' k v
  end.

Fixpoint dict_get {K V : Type} `{EqDec K} (d : dict K V) (k : K) : option V :=
  match d with
  | [] => None
  | (k', v') :: d' => if eq_dec k k' then Some v' else dict_get d' k
  end.

(** [l.index(x)]: position of the first element equal to [x]. *)
Fixpoint list_index {A : Type} `{EqDec A} (x : A) (l : list A) : option nat :=
  match l with
  | [] => None
  | y :: l' => if eq_dec x y then Some O else option_map S (list_index x l')
  end.

(** [l[i] = v] for an index in range (out of range leaves the list as is). *)
Fixpoint list_update {A : Type} (l : list A) (i : nat) (v : A) : list A :=
  match l, i with
  | [], _ => []
  | _ :: l', O => v :: l'
  | x :: l', S i' => x :: list_update l' i' v
  end.

Definition Qltb (a b : Q) : bool := negb (Qle_bool b a).

(* ------------------------------------------------------------------ *)
(** ** External collaborators *)

(** The valuation oracle of an agent over cake coordinates [C]:
    [a.eval(start, end)]. *)
Class Valuation (Agent C : Type) : Type :=
  { eval : Agent -> C -> C -> Q }.

(** [a.cake_length()] and [a.cake_value()]. *)
Class Cake (Agent : Type) : Type :=
  { cake_length : Agent -> Q;
    cake_value : Agent -> Q }.

(** Boundary queries: [a.mark(start, value)], together with what the
    continuous algorithm does to coordinates: the int [0], the rounding
    [float("%.4f" % x)] and the order used by [sorted]. *)
Class Marking (Agent C : Type) : Type :=
  { mark : Agent -> C -> Q -> option C;
    coord_zero : C;
    round4 : C -> C;
    coord_leb : C -> C -> bool }.

(** [a.mark(start, value)] of an agent over rational positions. *)
Class Marker (Agent : Type) : Type :=
  { mark_position : Agent -> Q -> Q -> option Q }.

(** The integer nearest to [q], a tie going to the even one. *)
Definition round_half_even (q : Q) : Z :=
  let f := Qfloor q in
  match Qcompare (q - inject_Z f) (1 # 2) with
  | Lt => f
  | Gt => (f + 1)%Z
  | Eq => if Z.even f then f else (f + 1)%Z
  end.

(** [float("%.4f" % x)]: the decimal with four digits after the point
    nearest to [x] (the formatting rounds the exact value, a tie to the
    even digit), kept in lowest terms. *)
Definition round4_decimal (x : Q) : Q :=
  Qred (round_half_even (x * 10000) # 10000).

(** The coordinates of the continuous algorithm as rationals: the point 0,
    the rounding to four decimals and the order of the numbers. *)
#[export] Instance Decimal_Marking {Agent : Type} `{Marker Agent} : Marking Agent Q :=
  {| mark := mark_position;
     coord_zero := 0%Q;
     round4 := round4_decimal;
     coord_leb := Qle_bool |}.

Section Graphs.
Context {Agent C : Type} `{EqDec Agent} `{EqDec C}.

(** A graph node: an [Agent] object ([isinstance(x, Agent)]) or a piece
    tuple. *)
Definition Node : Type := (Agent + Piece C)%type.

(** A [networkx.DiGraph]: nodes in insertion order, and the weight of
    every directed edge. *)
Record Graph : Type := mkGraph
  { g_nodes : list Node;
    g_edges : dict (Node * Node) Q }.

Definition empty_graph : Graph := mkGraph [] [].

Definition add_node (g : Graph) (n : Node) : Graph :=
  mkGraph (set_add n (g_nodes g)) (g_edges g).

Definition add_nodes_from (g : Graph) (ns : list Node) : Graph :=
  fold_left add_node ns g.

(** [g.add_edge(u, v, weight=w)]: missing end points become nodes. *)
Definition add_edge (g : Graph) (u v : Node) (w : Q) : Graph :=
  mkGraph (set_add v (set_add u (g_nodes g))) (dict_set (g_edges g) (u, v) w).

(** [g.get_edge_data(u, v)]: the data of the directed edge, or [None]. *)
Definition get_edge_data (g : Graph) (u v : Node) : option Q :=
  dict_get (g_edges g) (u, v).

(** [create_matching_graph(left, right, weights)]. *)
Definition create_matching_graph (left : list Agent) (right : list (Piece C))
    (weights : dict (Agent * Piece C) Q) : Graph :=
  let g := empty_graph in
  let g := add_nodes_from g (map inl left) in
  let g := add_nodes_from g (map inr right) in
  fold_left (fun g kv => add_edge g (inl (fst (fst kv))) (inr (snd (fst kv))) (snd kv))
            weights g.

Definition is_agent (n : Node) : bool :=
  match n with inl _ => true | inr _ => false end.

(** [fix_edges(edges_set)]. *)
Definition fix_edges (edges_set : list (Node * Node)) : list (Node * Node) :=
  fold_left (fun ret edge =>
               if negb (is_agent (fst edge))
               then set_add (snd edge, fst edge) ret
               else set_add (fst edge, snd edge) ret)
            edges_set [].

(** [calculate_weight(g, edges_set)]; subscripting the [None] that
    [get_edge_data] returns for a missing edge raises [TypeError]. *)
Definition calculate_weight (g : Graph) (edges_set : list (Node * Node))
    : res Q :=
  fold_left (fun ret edge =>
               rbind ret (fun ret =>
               match get_edge_data g (fst edge) (snd edge) with
               | Some w => inr (ret + w)%Q
               | None => inl (TypeError "'NoneType' object is not subscriptable")
               end))
            edges_set (inr 0%Q).

(** Modelled from the spec: the external [Allocation] container, built
    from the ordered sequence of chosen agents, every agent's pieces unset
    until [set_piece] assigns a piece list at the agent's position. *)
Record Allocation : Type := mkAllocation
  { alloc_agents : list Node;
    alloc_pieces : list (option (list Node)) }.

Definition new_allocation (agents : list Node) : Allocation :=
  mkAllocation agents (repeat None (length agents)).

Definition set_piece (al : Allocation) (agent_index : nat) (piece : list Node)
    : Allocation :=
  mkAllocation (alloc_agents al)
               (list_update (alloc_pieces al) agent_index (Some piece)).

(** The tail shared by algorithms 1 and 2: the chosen agents, the
    allocation, and one [set_piece] per edge. *)
Definition build_allocation (edges_set : list (Node * Node)) : res Allocation :=
  let chosen_agents := map fst edges_set in
  let allocation := new_allocation chosen_agents in
  fold_left (fun al edge =>
               rbind al (fun al =>
               match list_index (fst edge) chosen_agents with
               | Some i => inr (set_piece al i [snd edge])
               | None => inl (ValueError "x is not in list")
               end))
            edges_set (inr allocation).
End Graphs.

Arguments Node : clear implicits.
Arguments Graph : clear implicits.
Arguments Allocation : clear implicits.

(** The maximum-weight matching routine of networkx, a black box returning
    a set of node pairs in arbitrary orientation. *)
Class Solver (Agent C : Type) : Type :=
  { max_weight_matching : Graph Agent C -> list (Node Agent C * Node Agent C) }.

(* ------------------------------------------------------------------ *)
(** ** Logged computations *)

Section Events.
Variables Agent C : Type.

(** What an orchestrator asks of its collaborators and helpers. *)
Inductive Event : Type :=
| EvPartition (size start : Q)            (* create_partition *)
| EvCoarsen (t : nat)                     (* change_partition *)
| EvEval (a : Agent) (p : Piece C)        (* agent.eval *)
| EvMark (a : Agent) (start : C) (v : Q)  (* agent.mark *)
| EvMatch (g : Graph Agent C).            (* max_weight_matching *)

(** A computation: the log of the events issued and the result. *)
Definition M (A : Type) : Type := (list Event * res A)%type.

Definition ret {A : Type} (a : A) : M A := ([], inr a).
Definition raise {A : Type} (e : exn) : M A := ([], inl e).
Definition tell (ev : Event) : M unit := ([ev], inr tt).
Definition lift {A : Type} (r : res A) : M A := ([], r).

Definition bind {A B : Type} (m : M A) (f : A -> M B) : M B :=
  match m with
  | (log, inl e) => (log, inl e)
  | (log, inr a) => (log ++ fst (f a), snd (f a))
  end.

Definition log_of {A : Type} (m : M A) : list Event := fst m.
Definition result_of {A : Type} (m : M A) : res A := snd m.
End Events.

Arguments ret {Agent C A} a.
Arguments raise {Agent C A} e.
Arguments tell {Agent C} ev.
Arguments lift {Agent C A} r.
Arguments bind {Agent C A B} m f.
Arguments log_of {Agent C A} m.
Arguments result_of {Agent C A} m.
Arguments EvPartition {Agent C} size start.
Arguments EvCoarsen {Agent C} t.
Arguments EvEval {Agent C} a p.
Arguments EvMark {Agent C} a start v.
Arguments EvMatch {Agent C} g.

Notation "x <- c1 ;; c2" := (bind c1 (fun x => c2))
  (at level 61, c1 at next level, right associativity).
Notation "' pat <- c1 ;; c2" := (bind c1 (fun x => match x with pat => c2 end))
  (at level 61, pat pattern, c1 at next level, right associativity).

(** [for x in l: acc = body(acc, x)]. *)
Fixpoint for_each {Agent C A S : Type} (l : list A) (s : S)
    (body : S -> A -> M Agent C S) : M Agent C S :=
  match l with
  | [] => ret s
  | x :: l' => s' <- body s x ;; for_each l' s' body
  end.

(* ------------------------------------------------------------------ *)
(** ** Valuation evaluator and the steps shared by the orchestrators *)

Section Orchestration.
Context {Agent C : Type} `{EqDec Agent} `{EqDec C}.
Context `{Valuation Agent C} `{Solver Agent C}.

Definition call_eval (a : Agent) (p : Piece C) : M Agent C Q :=
  _ <- tell (EvEval a p) ;; ret (eval a (fst p) (snd p)).

Definition call_matching (g : Graph Agent C)
    : M Agent C (list (Node Agent C * Node Agent C)) :=
  _ <- tell (EvMatch g) ;; ret (max_weight_matching g).

(** [for piece in pieces: for agent in agents:
       evaluations[(agent, piece)] = agent.eval(piece[0], piece[1])]. *)
Definition evaluate (agents : list Agent) (pieces : list (Piece C))
    (evaluations : dict (Agent * Piece C) Q) : M Agent C (dict (Agent * Piece C) Q) :=
  for_each pieces evaluations (fun evaluations piece =>
    for_each agents evaluations (fun evaluations agent =>
      v <- call_eval agent piece ;;
      ret (dict_set evaluations (agent, piece) v))).

(** Matching, edge normalisation and weight for one graph. *)
Definition matching_of (g : Graph Agent C)
    : M Agent C (list (Node Agent C * Node Agent C)) :=
  edges_set <- call_matching g ;; ret (fix_edges edges_set).

(* ---------------------------------------------------------------- *)
(** ** Algorithm 2: [discrete_setting] *)

(** One iteration of the loop over [t], up to the computed weight. *)
Definition discrete_level (agents : list Agent) (pieces : list (Piece C))
    (t : nat) : M Agent C (list (Node Agent C * Node Agent C) * Q) :=
  _ <- tell (EvCoarsen t) ;;
  partition_i <- lift (change_partition pieces t) ;;
  evaluations <- evaluate agents partition_i [] ;;
  let g_i := create_matching_graph agents partition_i evaluations in
  edges_set <- matching_of g_i ;;
  weight <- lift (calculate_weight g_i edges_set) ;;
  ret (edges_set, weight).

(** The loop state: [(max_weight, max_match)]. *)
Definition discrete_state : Type :=
  (Q * option (list (Node Agent C * Node Agent C)))%type.

Definition discrete_body (agents : list Agent) (pieces : list (Piece C))
    (st : discrete_state) (t : nat) : M Agent C discrete_state :=
  '(edges_set, weight) <- discrete_level agents pieces t ;;
  if Qltb (fst st) weight then ret (weight, Some edges_set) else ret st.

(** [int(log(m, 2))]: [log] raises on [0]. *)
Definition int_log2 (m : nat) : res nat :=
  match m with
  | O => inl (ValueError "math domain error")
  | _ => inr (Nat.log2 m)
  end.

Definition discrete_setting (agents : list Agent) (pieces : list (Piece C))
    : M Agent C (Allocation Agent C) :=
  let m := length pieces in
  r <- lift (int_log2 m) ;;
  st <- for_each (seq 0 (r + 1)) (0%Q, None) (discrete_body agents pieces) ;;
  match snd st with
  | None => raise (TypeError "'NoneType' object is not iterable")
  | Some max_match => lift (build_allocation max_match)
  end.
End Orchestration.

(* ------------------------------------------------------------------ *)
(** ** Algorithm 1: [equally_sized_pieces] *)

Section EquallySized.
Context {Agent : Type} `{EqDec Agent}.
Context `{Valuation Agent Z} `{Cake Agent} `{Solver Agent Z}.

Definition call_create_partition (size start : Q) : M Agent Z (list (Piece Q)) :=
  _ <- tell (EvPartition size start) ;; lift (create_partition size start).

(** [max(l)] of a non-empty list of numbers (the first maximum). *)
Definition py_max (l : list Q) : res Q :=
  match l with
  | [] => inl (ValueError "max() arg is an empty sequence")
  | x :: l' => inr (fold_left (fun m y => if Qltb m y then y else m) l' x)
  end.

(** [(int(p[0] * length), int(p[1] * length))] with exact products; with
    rounded products it is [Binary64.normalize]. *)
Definition normalize (length : Q) (p : Piece Q) : Piece Z :=
  (py_int (fst p * length), py_int (snd p * length)).

(** [equally_sized_pieces(agents, piece_size)] with exact arithmetic on
    the piece size and on the values.  What only floats do is left out:
    [int(1 / piece_size)] raising [OverflowError] for a size so small that
    the quotient is infinite, and sums that stop growing. *)
Definition equally_sized_pieces (agents : list Agent) (piece_size : Q)
    : M Agent Z (Allocation Agent Z) :=
  let num_of_agents := length agents in
  if (num_of_agents =? 0)%nat
  then raise (ValueError "There must be at least one agent")
  else if negb (Qltb 0 piece_size && Qle_bool piece_size 1)
  then raise (ValueError "Piece size must be between 0 and 1")
  else
    let delta := (1 - inject_Z (py_int (1 / piece_size)) * piece_size)%Q in
    partition_0_l <- call_create_partition piece_size 0 ;;
    partition_delta_l <- call_create_partition piece_size delta ;;
    let all_partitions := partition_0_l ++ partition_delta_l in
    length <- lift (py_max (map cake_length agents)) ;;
    let normalize_partitions := map (normalize length) all_partitions in
    let normalize_partitions_0_l := map (normalize length) partition_0_l in
    let normalize_partitions_delta_l := map (normalize length) partition_delta_l in
    evaluations <- evaluate agents normalize_partitions [] ;;
    let g_0_l := create_matching_graph agents normalize_partitions_0_l evaluations in
    let g_delta_l := create_matching_graph agents normalize_partitions_delta_l evaluations in
    edges_set_0_l <- matching_of g_0_l ;;
    edges_set_delta_l <- matching_of g_delta_l ;;
    weight_delta_l <- lift (calculate_weight g_delta_l edges_set_delta_l) ;;
    weight_0_l <- lift (calculate_weight g_0_l edges_set_0_l) ;;
    let edges_set :=
      if Qltb weight_0_l weight_delta_l then edges_set_delta_l else edges_set_0_l in
    lift (build_allocation edges_set).
End EquallySized.

(* ------------------------------------------------------------------ *)
(** ** Algorithm 3: [continuous_setting] *)

Section Continuous.
Context {Agent C : Type} `{EqDec Agent} `{EqDec C}.
Context `{Valuation Agent C} `{Cake Agent} `{Marking Agent C} `{Solver Agent C}.

(** [random.choices(population, k=k)]: [k] independent draws; the random
    source is the stream [draws] of raw draws, reduced to an index. *)
Definition random_choices (draws : nat -> nat) (population : list Agent)
    (k : nat) : list Agent :=
  flat_map (fun j =>
              match nth_error population (draws j mod length population) with
              | Some a => [a]
              | None => []
              end)
           (seq 0 k).

Definition call_mark (a : Agent) (start : C) (v : Q) : M Agent C (option C) :=
  _ <- tell (EvMark a start v) ;; ret (mark a start v).

(** [for i in range(0, 2*n)] for one probing agent; [count] iterations are
    left. *)
Fixpoint mark_loop (a : Agent) (n : nat) (count : nat) (start : C)
    (partitions : list C) : M Agent C (list C) :=
  match count with
  | O => ret partitions
  | S count' =>
      end_ <- call_mark a start (cake_value a / inject_Z (Z.of_nat (2 * n)))%Q ;;
      match end_ with
      | None => ret partitions
      | Some end_ =>
          let end_ := round4 end_ in
          mark_loop a n count' end_ (set_add end_ partitions)
      end
  end.

(** [sorted(l)]. *)
Fixpoint insert_sorted (x : C) (l : list C) : list C :=
  match l with
  | [] => [x]
  | y :: l' => if coord_leb x y then x :: y :: l' else y :: insert_sorted x l'
  end.

Definition sorted (l : list C) : list C :=
  fold_right insert_sorted [] l.

(** The loop turning the sorted boundaries into consecutive pieces. *)
Fixpoint boundaries_to_pieces (start : C) (parts : list C) : list (Piece C) :=
  match parts with
  | [] => []
  | part :: parts' => (start, part) :: boundaries_to_pieces part parts'
  end.

(** [list(set(agents) - set(s))], listed in the order of [agents]. *)
Definition set_difference (agents s : list Agent) : list Agent :=
  filter (fun a => negb (inb a (to_set s))) (to_set agents).

Definition continuous_setting (draws : nat -> nat) (agents : list Agent)
    : M Agent C (Allocation Agent C) :=
  let n := length agents in
  let s := random_choices draws agents (n / 2) in
  let partitions := set_add coord_zero [] in
  partitions <- for_each s partitions (fun partitions a =>
                  mark_loop a n (2 * n) coord_zero partitions) ;;
  let partitions := sorted partitions in
  start <- lift (py_index partitions 0) ;;
  let pieces := boundaries_to_pieces start (tl partitions) in
  let agents := set_difference agents s in
  discrete_setting agents pieces.
End Continuous.

(* ------------------------------------------------------------------ *)
(** ** What the specification says: matchings, allocations, probing *)

Section Contracts.
Context {Agent C : Type} `{EqDec Agent} `{EqDec C}.

Definition is_some {A : Type} (o : option A) : bool :=
  match o with Some _ => true | None => false end.

(** A pair of nodes joined by an edge of [g], in either orientation. *)
Definition joinsb (g : Graph Agent C) (e : Node Agent C * Node Agent C) : bool :=
  is_some (get_edge_data g (fst e) (snd e))
  || is_some (get_edge_data g (snd e) (fst e)).

Fixpoint nodupb {A : Type} `{EqDec A} (l : list A) : bool :=
  match l with
  | [] => true
  | x :: l' => negb (inb x l') && nodupb l'
  end.

(** The contract of the matching solver: the returned pairs are edges of
    the graph and every node is incident to at most one of them. *)
Definition is_matching (g : Graph Agent C)
    (m : list (Node Agent C * Node Agent C)) : Prop :=
  (forall e, In e m -> joinsb g e = true)
  /\ NoDup (map fst m ++ map snd m).

Definition is_matchingb (g : Graph Agent C)
    (m : list (Node Agent C * Node Agent C)) : bool :=
  forallb (joinsb g) m && nodupb (map fst m ++ map snd m).

(** The allocation the specification assigns to a matching in
    (agent, piece) order: its agents, each with exactly its one matched
    piece. *)
Definition allocation_of_matching (m : list (Node Agent C * Node Agent C))
    : Allocation Agent C :=
  mkAllocation (map fst m) (map (fun e => Some [snd e]) m).

(** All pieces assigned by an allocation, agent after agent. *)
Definition assigned_pieces (al : Allocation Agent C) : list (Node Agent C) :=
  flat_map (fun o => match o with Some ps => ps | None => [] end)
           (alloc_pieces al).

Context `{Valuation Agent C}.

Definition node_value (a p : Node Agent C) : Q :=
  match a, p with
  | inl a, inr p => eval a (fst p) (snd p)
  | _, _ => 0%Q
  end.

Fixpoint Qsum (l : list Q) : Q :=
  match l with
  | [] => 0%Q
  | x :: l' => (x + Qsum l')%Q
  end.

(** The welfare of an allocation: what every agent gets, by its own
    valuation. *)
Definition allocation_weight (al : Allocation Agent C) : Q :=
  Qsum (map (fun ap =>
               match snd ap with
               | Some ps => Qsum (map (node_value (fst ap)) ps)
               | None => 0%Q
               end)
            (combine (alloc_agents al) (alloc_pieces al))).

Context `{Solver Agent C}.

(** The normalised matching computed at coarsening level [t], and its
    weight: the values [edges_set] and [weight] of iteration [t]. *)
Definition level_matching (agents : list Agent) (pieces : list (Piece C)) (t : nat)
    : res (list (Node Agent C * Node Agent C)) :=
  rbind (result_of (discrete_level agents pieces t)) (fun ew => inr (fst ew)).

Definition level_weight (agents : list Agent) (pieces : list (Piece C)) (t : nat)
    : res Q :=
  rbind (result_of (discrete_level agents pieces t)) (fun ew => inr (snd ew)).

Context `{Cake Agent} `{Marking Agent C}.

(** The boundary points one probing agent reports: successive marks of
    sub-ranges worth [cake_value / (2 n)], each rounded, until the agent
    has no further mark or [count] marks were made. *)
Fixpoint probe_points (a : Agent) (n count : nat) (start : C) : list C :=
  match count with
  | O => []
  | S count' =>
      match mark a start (cake_value a / inject_Z (Z.of_nat (2 * n)))%Q with
      | None => []
      | Some e => round4 e :: probe_points a n count' (round4 e)
      end
  end.

(** The boundaries of partition J as the specification words them: the
    point 0 and the points reported by the agents of [s], as a set,
    sorted. *)
Definition boundaries_J (n : nat) (s : list Agent) : list C :=
  sorted (to_set (coord_zero :: flat_map (fun a => probe_points a n (2 * n) coord_zero) s)).
End Contracts.

(* ------------------------------------------------------------------ *)
(** ** Concrete agents and a concrete solver for the examples *)

(** Modelled from the spec: an agent with a piecewise-constant density,
    constant on the unit intervals [i, i+1); the cake length is the number
    of values.  [pc_id] stands for the identity of the Python object. *)
Record PCAgent : Type := mkPC
  { pc_id : nat;
    pc_values : list Z }.

#[export] Instance PCAgent_EqDec : EqDec PCAgent.
Proof.
  intros [i v] [i' v'].
  destruct (Nat.eq_dec i i'); [ | right; congruence ].
  destruct (list_eq_dec Z.eq_dec v v'); [ left | right ]; congruence.
Defined.

(** The value of [start, end) for integer boundaries. *)
Definition pc_eval (a : PCAgent) (start end_ : Z) : Q :=
  inject_Z (fold_right Z.add 0%Z
              (firstn (Z.to_nat (end_ - start)) (skipn (Z.to_nat start) (pc_values a)))).

Definition q_max (a b : Q) : Q := if Qle_bool a b then b else a.
Definition q_min (a b : Q) : Q := if Qle_bool a b then a else b.

(** Modelled from the spec: the value of [start, end) for any boundaries,
    the density being [v_i] on [i, i+1) and zero outside the cake: the
    sum over [i] of [v_i] times the length of the part of [i, i+1) inside
    [start, end). *)
Fixpoint pc_value_from (values : list Z) (i : Z) (start end_ : Q) : Q :=
  match values with
  | [] => 0%Q
  | v :: values' =>
      (inject_Z v
         * q_max 0 (q_min end_ (inject_Z (i + 1)) - q_max start (inject_Z i))
       + pc_value_from values' (i + 1)%Z start end_)%Q
  end.

(** Modelled from the spec: [mark(start, value)], the smallest position
    [>= start] such that [start, position) is worth [value], none when
    the cake after [start] is worth less.  The search goes through the
    unit intervals from interval [i] on, [value] being what is still
    missing. *)
Fixpoint pc_position_from (values : list Z) (i : Z) (start value : Q) : option Q :=
  match values with
  | [] => None
  | v :: values' =>
      if Qle_bool (inject_Z (i + 1)) start
      then pc_position_from values' (i + 1)%Z start value
      else
        let from := q_max start (inject_Z i) in
        let available := (inject_Z v * (inject_Z (i + 1) - from))%Q in
        if Qle_bool value available
        then Some (if (v =? 0)%Z then from else (from + value / inject_Z v)%Q)
        else pc_position_from values' (i + 1)%Z start (value - available)%Q
  end.

#[export] Instance PC_Valuation : Valuation PCAgent Z :=
  {| eval := pc_eval |}.

#[export] Instance PC_Cake : Cake PCAgent :=
  {| cake_length := fun a => inject_Z (Z.of_nat (length (pc_values a)));
     cake_value := fun a => pc_eval a 0 (Z.of_nat (length (pc_values a))) |}.

#[export] Instance PC_Valuation_Q : Valuation PCAgent Q :=
  {| eval := fun a start end_ => pc_value_from (pc_values a) 0 start end_ |}.

#[export] Instance PC_Marker : Marker PCAgent :=
  {| mark_position := fun a start value =>
                        pc_position_from (pc_values a) 0 start value |}.

Fixpoint sublists {A : Type} (l : list A) : list (list A) :=
  match l with
  | [] => [[]]
  | x :: l' => map (cons x) (sublists l') ++ sublists l'
  end.

Definition edge_weight {Agent C : Type} `{EqDec Agent} `{EqDec C}
    (g : Graph Agent C) (m : list (Node Agent C * Node Agent C)) : Q :=
  match calculate_weight g m with
  | inr w => w
  | inl _ => 0%Q
  end.

(** An exhaustive maximum-weight matching: the first heaviest among the
    sets of edges that form a matching, every pair reported piece first. *)
Definition exhaustive_matching {Agent C : Type} `{EqDec Agent} `{EqDec C}
    (g : Graph Agent C) : list (Node Agent C * Node Agent C) :=
  let candidates :=
    filter (is_matchingb g) (sublists (map fst (g_edges g))) in
  let best :=
    fold_left (fun b m => if Qltb (edge_weight g b) (edge_weight g m) then m else b)
              candidates [] in
  map (fun e => (snd e, fst e)) best.

#[export] Instance Exhaustive_Solver : Solver PCAgent Z :=
  {| max_weight_matching := exhaustive_matching |}.

#[export] Instance Exhaustive_Solver_Q : Solver PCAgent Q :=
  {| max_weight_matching := exhaustive_matching |}.

(** A solver that matches nothing. *)
Definition no_matching {Agent C : Type} (g : Graph Agent C)
    : list (Node Agent C * Node Agent C) := [].

Definition Alice : PCAgent := mkPC 0 [100; 1]%Z.
Definition Bob : PCAgent := mkPC 1 [2; 90]%Z.
Definition Alice5 : PCAgent := mkPC 0 [1; 1; 1; 1; 1]%Z.
Definition Bob5 : PCAgent := mkPC 1 [3; 3; 3; 1; 1]%Z.
Definition Zero2 : PCAgent := mkPC 0 [0; 0]%Z.

(** The pieces [create_partition] is specified to produce: [n] consecutive
    pieces of length [size], each starting where the previous one ends. *)
Fixpoint consecutive_pieces (size start : Q) (n : nat) : list (Piece Q) :=
  match n with
  | O => []
  | S n' => (start, (start + size)%Q) :: consecutive_pieces size (start + size)%Q n'
  end.

(** The evaluation table of the specification:
    [value[agent, piece] = agent.eval(piece.start, piece.end)] for every
    pair, entered piece by piece. *)
Definition evaluations_of {Agent C : Type} `{EqDec Agent} `{EqDec C}
    `{Valuation Agent C} (agents : list Agent) (pieces : list (Piece C))
    (d : dict (Agent * Piece C) Q) : dict (Agent * Piece C) Q :=
  fold_left (fun d piece =>
               fold_left (fun d agent =>
                            dict_set d (agent, piece) (eval agent (fst piece) (snd piece)))
                         agents d)
            pieces d.

(** The events of evaluating every agent on every piece. *)
Definition evaluation_events {Agent C : Type} (agents : list Agent)
    (pieces : list (Piece C)) : list (Event Agent C) :=
  flat_map (fun piece => map (fun agent => EvEval agent piece) agents) pieces.

(** An edge in (agent, piece) order: [fix_edges] on one pair. *)
Definition fix_edge {Agent C : Type} (e : Node Agent C * Node Agent C)
    : Node Agent C * Node Agent C :=
  if negb (is_agent (fst e)) then (snd e, fst e) else (fst e, snd e).


(** The edges [create_matching_graph] enters for a table of weights: one
    directed edge agent -> piece per entry of the table. *)
Definition edges_of_weights {Agent C : Type} `{EqDec Agent} `{EqDec C}
    (weights : dict (Agent * Piece C) Q) (edges : dict (Node Agent C * Node Agent C) Q)
    : dict (Node Agent C * Node Agent C) Q :=
  fold_left (fun edges kv =>
               dict_set edges (inl (fst (fst kv)), inr (snd (fst kv))) (snd kv))
            weights edges.


(** A graph all of whose edges lead from an agent to a piece. *)
Definition agent_to_piece {Agent C : Type} `{EqDec Agent} `{EqDec C}
    (g : Graph Agent C) : Prop :=
  forall u v w, get_edge_data g u v = Some w -> exists a p, u = inl a /\ v = inr p.


(** The graph of coarsening level [t]: built from the coarsened partition
    and the evaluation table of that partition alone. *)
Definition level_graph {Agent C : Type} `{EqDec Agent} `{EqDec C}
    `{Valuation Agent C} (agents : list Agent) (partition_i : list (Piece C))
    : Graph Agent C :=
  create_matching_graph agents partition_i (evaluations_of agents partition_i []).


(** The offset of the second tiling of algorithm 1:
    [delta = 1 - int(1 / l) * l]. *)
Definition tiling_offset (piece_size : Q) : Q :=
  (1 - inject_Z (py_int (1 / piece_size)) * piece_size)%Q.

(** The graphs handed to the matching solver, in the order of the calls. *)
Definition matching_graphs {Agent C : Type} (log : list (Event Agent C))
    : list (Graph Agent C) :=
  flat_map (fun ev => match ev with EvMatch g => [g] | _ => [] end) log.

(** The pieces whose value was asked of some agent. *)
Definition evaluated_pieces {Agent C : Type} (log : list (Event Agent C))
    : list (Piece C) :=
  flat_map (fun ev => match ev with EvEval _ p => [p] | _ => [] end) log.

(** An allocation that gives every agent of the matching [m] exactly its
    matched piece and knows no other agent: the chosen agents are pairwise
    distinct agents of the input, no piece is assigned twice. *)
Definition one_piece_each {Agent C : Type} (agents : list Agent)
    (m : list (Node Agent C * Node Agent C)) (al : Allocation Agent C) : Prop :=
  al = allocation_of_matching m
  /\ NoDup (alloc_agents al)
  /\ NoDup (assigned_pieces al)
  /\ (forall i n, nth_error (alloc_agents al) i = Some n ->
        exists a p, n = inl a /\ In a agents
                    /\ nth_error (alloc_pieces al) i = Some (Some [inr p])
                    /\ In (inl a, inr p) m)
  /\ (forall n, In n (alloc_agents al) <-> exists p, In (n, p) m).

(** The end of piece number [i] of the tiling from [start] does not
    exceed 1. *)
Definition piece_fits (size start : Q) (i : nat) : Prop :=
  (start + (inject_Z (Z.of_nat i) + 1) * size <= 1)%Q.


(** A sequence of pieces each of which starts where the previous one
    ends. *)
Definition contiguous {C : Type} (l : list (Piece C)) : Prop :=
  forall i p q, nth_error l i = Some p -> nth_error l (S i) = Some q -> snd p = fst q.

(** The boundary queries of a log. *)
Definition mark_queries {Agent C : Type} (log : list (Event Agent C))
    : list (Agent * C * Q) :=
  flat_map (fun ev => match ev with EvMark a start v => [(a, start, v)] | _ => [] end) log.

(** The number of pieces of the levels [0 .. r] of a sequence of [m]
    pieces. *)
Definition levels_pieces (m r : nat) : nat :=
  list_sum (map (fun t => m / 2 ^ t) (seq 0 (r + 1))).

(** The weight [calculate_weight] adds for an edge. *)
Definition edge_data_or_zero {Agent C : Type} `{EqDec Agent} `{EqDec C}
    (g : Graph Agent C) (e : Node Agent C * Node Agent C) : Q :=
  match get_edge_data g (fst e) (snd e) with
  | Some w => w
  | None => 0%Q
  end.


(** The pieces one agent was asked to evaluate, in the order of the
    queries. *)
Definition queries_of {Agent C : Type} `{EqDec Agent} (a : Agent)
    (log : list (Event Agent C)) : list (Piece C) :=
  flat_map (fun ev =>
              match ev with
              | EvEval b p => if eq_dec a b then [p] else []
              | _ => []
              end)
           log.

(* ------------------------------------------------------------------ *)
(** ** PartitionBuilder on binary64 numbers *)

Module Binary64.
Import PrimFloat.

(** The [while end <= 1] loop of [create_partition] on floats: [end_] is
    the rounded sum [start + size], and the test is the comparison of
    floats (false on NaN).  [None] when the fuel runs out before the loop
    condition fails. *)
Fixpoint create_partition_loop (fuel : nat) (size start end_ : float)
    (ret : list (Piece float)) : option (list (Piece float)) :=
  if (end_ <=? 1)%float then
    match fuel with
    | O => None
    | S fuel' =>
        let ret := ret ++ [(start, end_)] in
        let start := end_ in
        let end_ := (start + size)%float in
        create_partition_loop fuel' size start end_ ret
    end
  else Some ret.

(** [create_partition(size, start)] run for at most [fuel] iterations of
    its loop; a loop that is still running then is [NonTermination]. *)
Definition create_partition (fuel : nat) (size start : float)
    : res (list (Piece float)) :=
  match create_partition_loop fuel size start (start + size)%float [] with
  | Some l => inr l
  | None => inl NonTermination
  end.

(** Python lists as objects: the heap holds the lists allocated so far,
    and a list is named by its position in the heap. *)
Definition heap : Type := list (list (Piece float)).

(** [res.append(p)]: the list at address [r] changes in place. *)
Definition heap_append (h : heap) (r : nat) (p : Piece float) : heap :=
  match nth_error h r with
  | Some l => list_update h r (l ++ [p])
  | None => h
  end.

(** The loop with [res] as an object of the heap. *)
Fixpoint create_partition_heap_loop (fuel : nat) (size start end_ : float)
    (h : heap) (res : nat) : option heap :=
  if (end_ <=? 1)%float then
    match fuel with
    | O => None
    | S fuel' =>
        let h := heap_append h res (start, end_) in
        let start := end_ in
        let end_ := (start + size)%float in
        create_partition_heap_loop fuel' size start end_ h res
    end
  else Some h.

(** A call of [create_partition] in a heap: [res = []] allocates a new
    list, the loop appends to it, and its address is returned together
    with the heap after the call. *)
Definition create_partition_call (fuel : nat) (h : heap) (size start : float)
    : res (heap * nat) :=
  let res := length h in
  match create_partition_heap_loop fuel size start (start + size)%float
          (h ++ [[]]) res with
  | Some h' => inr (h', res)
  | None => inl NonTermination
  end.

(** The end of piece number [i]: [start] with [size] added [i + 1] times,
    rounded after every addition. *)
Fixpoint rounded_end (size start : float) (i : nat) : float :=
  match i with
  | O => (start + size)%float
  | S i' => (rounded_end size start i' + size)%float
  end.

(** The start of piece number [i]: the end of the piece before it. *)
Definition rounded_start (size start : float) (i : nat) : float :=
  match i with
  | O => start
  | S i' => rounded_end size start i'
  end.

(** The first [n] pieces built by repeated rounded addition. *)
Definition rounded_pieces (size start : float) (n : nat) : list (Piece float) :=
  map (fun i => (rounded_start size start i, rounded_end size start i)) (seq 0 n).

(** The pieces of the closed form [(start + i * size, start + (i + 1) * size)],
    every product and sum rounded once. *)
Definition multiple_pieces (size start : float) (n : nat) : list (Piece float) :=
  map (fun i =>
         ((start + of_uint63 (Uint63.of_Z (Z.of_nat i)) * size)%float,
          (start + of_uint63 (Uint63.of_Z (Z.of_nat (i + 1))) * size)%float))
      (seq 0 n).

(** The rational number a finite float stands for (0 for infinities and
    NaN, which have none). *)
Definition to_Q (x : float) : Q :=
  match FloatOps.Prim2SF x with
  | SpecFloat.S754_finite s m e =>
      let v := (inject_Z (Z.pos m) * (2 ^ e))%Q in
      if s then (- v)%Q else v
  | _ => 0%Q
  end.

(** [int(x)] on a float: truncation towards zero; [None] for an infinity
    ([OverflowError]) and for NaN ([ValueError]). *)
Definition py_int (x : float) : option Z :=
  match FloatOps.Prim2SF x with
  | SpecFloat.S754_infinity _ | SpecFloat.S754_nan => None
  | _ => let q := to_Q x in Some (Z.quot (Qnum q) (Z.pos (Qden q)))
  end.

(** [float("%.4f" % x)] on floats: the double nearest to the decimal with
    four digits nearest to [x].  The decimal is [k / 10000]; for
    [|k| < 2^53] both [k] and 10000 are doubles and their quotient is the
    nearest double; a larger [x] is further from its neighbours than from
    its decimal, and is returned as it is, as are the infinities and
    NaN. *)
Definition round4 (x : float) : float :=
  match FloatOps.Prim2SF x with
  | SpecFloat.S754_finite negative _ _ =>
      let k := Z.abs (round_half_even (to_Q x * 10000)) in
      if (k <? 2 ^ 53)%Z
      then
        let q := (of_uint63 (Uint63.of_Z k) / 10000)%float in
        if negative then (- q)%float else q
      else x
  | _ => x
  end.

(** [(int(p[0] * length), int(p[1] * length))] for an integer [length]
    from 0 to [2^63 - 1]. *)
Definition normalize (length : Z) (p : Piece float) : option (Piece Z) :=
  let l := of_uint63 (Uint63.of_Z length) in
  match py_int (fst p * l)%float, py_int (snd p * l)%float with
  | Some s, Some e => Some (s, e)
  | _, _ => None
  end.
End Binary64.

(* ================================================================== *)
(** * Properties *)

Unset Implicit Arguments.

(** ** Results and lists *)

Lemma rmap_ok {A B : Type} (f : A -> res B) (l : list A) :
  (forall x, In x l -> exists y, f x = inr y) ->
  exists out, rmap f l = inr out
    /\ length out = length l
    /\ forall i x, nth_error l i = Some x ->
         exists y, nth_error out i = Some y /\ f x = inr y.
Proof.
  induction l as [| a l IH]; intros Hf.
  - exists []. repeat split; auto. intros [| i] x; discriminate.
  - destruct (Hf a (or_introl eq_refl)) as [y Hy].
    destruct IH as (out & Hout & Hlen & Hnth).
    { intros x Hx. apply Hf. now right. }
    exists (y :: out). simpl. rewrite Hy. simpl. rewrite Hout. simpl.
    repeat split; auto.
    intros [| i] x Hx; simpl in *.
    + injection Hx as <-. eauto.
    + eauto.
Qed.

Lemma py_index_in_range {A : Type} (l : list A) (i : nat) (x : A) :
  nth_error l i = Some x -> py_index l (Z.of_nat i) = inr x.
Proof.
  intros Hx. unfold py_index.
  destruct (Z.ltb_spec (Z.of_nat i) 0); [ lia | ].
  destruct (Z.ltb_spec (Z.of_nat i) 0); [ lia | ].
  now rewrite Nat2Z.id, Hx.
Qed.

(** ** PartitionBuilder: [change_partition] *)

Lemma range_len_runs (m t : nat) :
  range_len 0 (Z.of_nat m - 2 ^ Z.of_nat t + 1) (2 ^ Z.of_nat t) = m / 2 ^ t.
Proof.
  unfold range_len.
  assert (Hp : (2 ^ Z.of_nat t = Z.of_nat (2 ^ t))%Z).
  { rewrite Nat2Z.inj_pow. reflexivity. }
  assert (Hpos : 2 ^ t <> 0) by (apply Nat.pow_nonzero; discriminate).
  rewrite Hp.
  destruct (Z.leb_spec (Z.of_nat m - Z.of_nat (2 ^ t) + 1) 0) as [Hle | Hgt].
  - symmetry. apply Nat.div_small. lia.
  - replace (Z.of_nat m - Z.of_nat (2 ^ t) + 1 - 0 - 1)%Z
      with (Z.of_nat m + (-1) * Z.of_nat (2 ^ t))%Z by lia.
    rewrite Z.div_add by lia.
    rewrite <- Nat2Z.inj_div.
    replace (Z.of_nat (m / 2 ^ t) + -1 + 1)%Z with (Z.of_nat (m / 2 ^ t)) by lia.
    apply Nat2Z.id.
Qed.

(** Run number [i] of [2^t] pieces lies within the partition, so the body
    of the loop of [change_partition] finds both of its pieces. *)
Lemma change_partition_run_ok {C : Type} (partition : list (Piece C)) (t i : nat) :
  i < length partition / 2 ^ t ->
  exists ps pe,
    nth_error partition (i * 2 ^ t) = Some ps
    /\ nth_error partition ((i + 1) * 2 ^ t - 1) = Some pe
    /\ rbind (py_index partition (0 + Z.of_nat i * 2 ^ Z.of_nat t)%Z) (fun ps' =>
       rbind (py_index partition (0 + Z.of_nat i * 2 ^ Z.of_nat t + 2 ^ Z.of_nat t - 1)%Z)
             (fun pe' => inr (fst ps', snd pe')))
       = inr (fst ps, snd pe).
Proof.
  set (m := length partition). intros Hi.
  assert (Hpos : 2 ^ t <> 0) by (apply Nat.pow_nonzero; discriminate).
  assert (Hp : (2 ^ Z.of_nat t = Z.of_nat (2 ^ t))%Z).
  { rewrite Nat2Z.inj_pow. reflexivity. }
  assert (Hdm : m = 2 ^ t * (m / 2 ^ t) + m mod 2 ^ t) by (apply Nat.div_mod_eq).
  assert (Hin : (i + 1) * 2 ^ t - 1 < m) by nia.
  destruct (nth_error partition (i * 2 ^ t)) as [ps |] eqn:Hps.
  2:{ apply nth_error_None in Hps. fold m in Hps. nia. }
  destruct (nth_error partition ((i + 1) * 2 ^ t - 1)) as [pe |] eqn:Hpe.
  2:{ apply nth_error_None in Hpe. fold m in Hpe. lia. }
  exists ps, pe. split; [ reflexivity | ]. split; [ reflexivity | ].
  replace (0 + Z.of_nat i * 2 ^ Z.of_nat t)%Z with (Z.of_nat (i * 2 ^ t)) by (rewrite Hp; lia).
  rewrite (py_index_in_range _ _ _ Hps). simpl.
  replace (Z.of_nat (i * 2 ^ t) + 2 ^ Z.of_nat t - 1)%Z
    with (Z.of_nat ((i + 1) * 2 ^ t - 1)) by (rewrite Hp; lia).
  rewrite (py_index_in_range _ _ _ Hpe). reflexivity.
Qed.

(** [change_partition] never raises. *)
Lemma change_partition_returns {C : Type} (partition : list (Piece C)) (t : nat) :
  exists out, change_partition partition t = inr out.
Proof.
  unfold change_partition.
  match goal with
  | |- context [rmap ?f ?l] => destruct (@rmap_ok Z (Piece C) f l) as (out & Hout & _)
  end; [ | eauto ].
  intros x Hx. unfold py_range in Hx. rewrite range_len_runs in Hx.
  apply in_map_iff in Hx. destruct Hx as (i & <- & Hi). apply in_seq in Hi.
  destruct (change_partition_run_ok partition t i) as (ps & pe & _ & _ & Hrun); [ lia | ].
  exists (fst ps, snd pe). exact Hrun.
Qed.

(** ** PartitionBuilder: [create_partition] *)

Local Abbreviation qn i := (inject_Z (Z.of_nat i)).

Lemma qn_S (i : nat) : (qn (S i) == qn i + 1)%Q.
Proof.
  rewrite Nat2Z.inj_succ. unfold Z.succ. rewrite inject_Z_plus. reflexivity.
Qed.

Lemma qn_le (i j : nat) : i <= j -> (qn i <= qn j)%Q.
Proof.
  intros Hij. rewrite <- Zle_Qle. lia.
Qed.

Lemma Qle_bool_false (x y : Q) : Qle_bool x y = false -> (y < x)%Q.
Proof.
  intros Hb. apply Qnot_le_lt. intros Hle.
  apply Qle_bool_iff in Hle. congruence.
Qed.

Lemma consecutive_pieces_length (size start : Q) (n : nat) :
  length (consecutive_pieces size start n) = n.
Proof.
  revert start. induction n as [| n IH]; intros start; simpl; auto.
Qed.

Lemma consecutive_pieces_nth (size : Q) (n : nat) :
  forall start i s e,
    nth_error (consecutive_pieces size start n) i = Some (s, e) ->
    (s == start + qn i * size)%Q /\ (e == start + (qn i + 1) * size)%Q.
Proof.
  induction n as [| n IH]; intros start i s e Hnth.
  - destruct i; discriminate.
  - destruct i as [| i]; simpl in Hnth.
    + injection Hnth as <- <-. change (qn 0) with 0%Q. split; ring.
    + apply IH in Hnth. destruct Hnth as [Hs He].
      rewrite Hs, He, qn_S. split; ring.
Qed.

Section CreatePartition.
Variable size : Q.

Local Abbreviation fits := (piece_fits size).

Lemma create_partition_loop_spec (fuel : nat) :
  forall start ret l,
    create_partition_loop fuel size start (start + size)%Q ret = Some l ->
    exists n,
      l = ret ++ consecutive_pieces size start n
      /\ (forall i, i < n -> fits start i)
      /\ ~ fits start n.
Proof.
  unfold piece_fits.
  induction fuel as [| fuel IH]; intros start ret l Hl; simpl in Hl;
    destruct (Qle_bool (start + size) 1) eqn:Hle; try discriminate.
  - injection Hl as <-. exists 0. rewrite app_nil_r.
    apply Qle_bool_false in Hle.
    split; [ reflexivity | split; [ intros i Hi; lia | ] ].
    change (qn 0) with 0%Q. intros Hc. lra.
  - apply IH in Hl. destruct Hl as (n & -> & Hfit & Hstop).
    apply Qle_bool_iff in Hle.
    exists (S n). rewrite <- app_assoc. cbn [app consecutive_pieces].
    split; [ reflexivity | split ].
    + intros [| i] Hi.
      * change (qn 0) with 0%Q. lra.
      * assert (Hi' : i < n) by lia. specialize (Hfit i Hi').
        rewrite qn_S. lra.
    + intros Hc. rewrite qn_S in Hc. apply Hstop. lra.
  - injection Hl as <-. exists 0. rewrite app_nil_r.
    apply Qle_bool_false in Hle.
    split; [ reflexivity | split; [ intros i Hi; lia | ] ].
    change (qn 0) with 0%Q. intros Hc. lra.
Qed.

Lemma create_partition_loop_terminates (fuel : nat) :
  forall start ret n,
    ~ fits start n -> n <= fuel ->
    exists l, create_partition_loop fuel size start (start + size)%Q ret = Some l.
Proof.
  unfold piece_fits.
  induction fuel as [| fuel IH]; intros start ret n Hstop Hn; simpl;
    destruct (Qle_bool (start + size) 1) eqn:Hle; eauto.
  - exfalso. apply Qle_bool_iff in Hle. assert (n = 0) by lia. subst n.
    apply Hstop. change (qn 0) with 0%Q. lra.
  - apply Qle_bool_iff in Hle. destruct n as [| n].
    + exfalso. apply Hstop. change (qn 0) with 0%Q. lra.
    + apply (IH _ _ n); [ | lia ].
      intros Hc. apply Hstop. rewrite qn_S. lra.
Qed.

Hypothesis size_pos : (0 < size)%Q.

Lemma fits_downward (start : Q) (i j : nat) :
  i <= j -> fits start j -> fits start i.
Proof.
  unfold piece_fits. intros Hij Hj. apply qn_le in Hij.
  assert ((qn i + 1) * size <= (qn j + 1) * size)%Q.
  { apply Qmult_le_compat_r; lra. }
  lra.
Qed.

Lemma partition_fuel_enough (start : Q) :
  ~ fits start (Z.to_nat (Qfloor ((1 - start) / size))).
Proof.
  unfold piece_fits. set (x := ((1 - start) / size)%Q).
  assert (Hx : (x * size == 1 - start)%Q).
  { unfold x. field. lra. }
  assert (Hfl : (x < inject_Z (Qfloor x + 1))%Q) by apply Qlt_floor.
  assert (Hn : (inject_Z (Qfloor x + 1) <= qn (Z.to_nat (Qfloor x)) + 1)%Q).
  { rewrite inject_Z_plus.
    assert (inject_Z (Qfloor x) <= qn (Z.to_nat (Qfloor x)))%Q.
    { rewrite <- Zle_Qle. lia. }
    change (inject_Z 1) with 1%Q. lra. }
  intros Hc.
  assert (Hlt : (x * size < (qn (Z.to_nat (Qfloor x)) + 1) * size)%Q).
  { apply Qmult_lt_compat_r; lra. }
  lra.
Qed.

Lemma create_partition_returns (start : Q) :
  exists l, create_partition size start = inr l
            /\ create_partition_fuel (partition_fuel size start) size start = Some l.
Proof.
  unfold create_partition, create_partition_fuel.
  destruct (create_partition_loop_terminates (partition_fuel size start) start []
              (Z.to_nat (Qfloor ((1 - start) / size)))) as [l Hl].
  - apply partition_fuel_enough.
  - unfold partition_fuel. lia.
  - exists l. rewrite Hl. auto.
Qed.
End CreatePartition.

(** For a positive size [create_partition] returns consecutive pieces, as
    many as fit. *)
Lemma create_partition_consecutive (size start : Q) :
  (0 < size)%Q ->
  exists n,
    create_partition size start = inr (consecutive_pieces size start n)
    /\ (forall i, i < n -> piece_fits size start i)
    /\ ~ piece_fits size start n.
Proof.
  intros Hpos.
  destruct (create_partition_returns size Hpos start) as (l & Hl & Hfuel).
  unfold create_partition_fuel in Hfuel.
  destruct (create_partition_loop_spec _ _ _ _ _ Hfuel) as (n & Heq & Hfit & Hstop).
  simpl in Heq. subst l. exists n. auto.
Qed.

(** ** Logged computations *)

Section MonadLaws.
Context {Agent C : Type}.
Implicit Types A B S : Type.

Lemma result_bind {A B} (m : M Agent C A) (f : A -> M Agent C B) :
  result_of (bind m f) = rbind (result_of m) (fun a => result_of (f a)).
Proof. destruct m as [l [e | a]]; reflexivity. Qed.

Lemma log_bind_ok {A B} (m : M Agent C A) (f : A -> M Agent C B) (a : A) :
  result_of m = inr a -> log_of (bind m f) = log_of m ++ log_of (f a).
Proof.
  destruct m as [l [e | a']]; unfold log_of, result_of; simpl; intros Heq;
    [ discriminate | injection Heq as -> ]; reflexivity.
Qed.

Lemma log_bind_err {A B} (m : M Agent C A) (f : A -> M Agent C B) (e : exn) :
  result_of m = inl e -> log_of (bind m f) = log_of m.
Proof.
  destruct m as [l [e' | a']]; unfold log_of, result_of; simpl; intros Heq;
    [ reflexivity | discriminate ].
Qed.

Lemma bind_inr {A B} (m : M Agent C A) (f : A -> M Agent C B) (b : B) :
  result_of (bind m f) = inr b ->
  exists a, result_of m = inr a
            /\ result_of (f a) = inr b
            /\ log_of (bind m f) = log_of m ++ log_of (f a).
Proof.
  destruct m as [l [e | a]]; simpl; intros Heq; [ discriminate | ].
  exists a. auto.
Qed.

Lemma bind_inl {A B} (m : M Agent C A) (f : A -> M Agent C B) (e : exn) :
  result_of (bind m f) = inl e ->
  result_of m = inl e
  \/ exists a, result_of m = inr a /\ result_of (f a) = inl e.
Proof.
  destruct m as [l [e' | a]]; simpl; intros Heq; [ left; congruence | ].
  right. exists a. auto.
Qed.

Lemma run_eta {A} (m : M Agent C A) : m = (log_of m, result_of m).
Proof. destruct m; reflexivity. Qed.
End MonadLaws.

(** ** Dicts and sets *)

Section DictFacts.
Context {K V : Type} `{EqDec K}.

Lemma dict_set_In (d : dict K V) (k : K) (v : V) (k' : K) (v' : V) :
  In (k', v') (dict_set d k v) -> (k' = k /\ v' = v) \/ In (k', v') d.
Proof.
  induction d as [| [k0 v0] d IH]; simpl.
  - intros [Heq | []]. injection Heq as <- <-. auto.
  - destruct (eq_dec k k0) as [-> | Hne]; simpl.
    + intros [Heq | Hin]; [ injection Heq as <- <-; auto | auto ].
    + intros [Heq | Hin]; [ auto | ]. destruct (IH Hin); auto.
Qed.

Lemma dict_set_keys (d : dict K V) (k : K) (v : V) (k' : K) :
  In k' (map fst (dict_set d k v)) <-> k' = k \/ In k' (map fst d).
Proof.
  induction d as [| [k0 v0] d IH]; simpl.
  - intuition.
  - destruct (eq_dec k k0) as [-> | Hne]; simpl; intuition.
Qed.

Lemma dict_get_In (d : dict K V) (k : K) (v : V) :
  dict_get d k = Some v -> In (k, v) d.
Proof.
  induction d as [| [k0 v0] d IH]; simpl; [ discriminate | ].
  destruct (eq_dec k k0) as [-> | Hne].
  - intros Heq. injection Heq as <-. auto.
  - auto.
Qed.

Lemma dict_get_key (d : dict K V) (k : K) :
  In k (map fst d) -> exists v, dict_get d k = Some v.
Proof.
  induction d as [| [k0 v0] d IH]; simpl; [ intros [] | ].
  destruct (eq_dec k k0) as [-> | Hne]; [ eauto | ].
  intros [Heq | Hin]; [ congruence | auto ].
Qed.

Lemma dict_get_None (d : dict K V) (k : K) :
  ~ In k (map fst d) -> dict_get d k = None.
Proof.
  intros Hk. destruct (dict_get d k) as [v |] eqn:Hget; [ | reflexivity ].
  exfalso. apply Hk. apply dict_get_In in Hget.
  apply in_map_iff. exists (k, v). auto.
Qed.
End DictFacts.

Section SetFacts.
Context {A : Type} `{EqDec A}.

Lemma inb_true (x : A) (l : list A) : inb x l = true <-> In x l.
Proof. unfold inb. destruct (in_dec eq_dec x l); intuition discriminate. Qed.

Lemma set_add_In (x y : A) (s : list A) :
  In y (set_add x s) <-> y = x \/ In y s.
Proof.
  unfold set_add. destruct (in_dec eq_dec x s) as [Hin | Hnin].
  - intuition congruence.
  - rewrite in_app_iff. simpl. intuition.
Qed.

Lemma set_add_NoDup (x : A) (s : list A) : NoDup s -> NoDup (set_add x s).
Proof.
  intros Hs. unfold set_add. destruct (in_dec eq_dec x s) as [Hin | Hnin]; auto.
  apply NoDup_app; auto.
  - constructor; [ intros [] | constructor ].
  - intros y Hy [<- | []]. contradiction.
Qed.

Lemma set_add_fresh (x : A) (s : list A) : ~ In x s -> set_add x s = s ++ [x].
Proof. intros Hx. unfold set_add. destruct (in_dec eq_dec x s); tauto. Qed.

Lemma fold_set_add_In (l s : list A) (y : A) :
  In y (fold_left (fun s x => set_add x s) l s) <-> In y l \/ In y s.
Proof.
  revert s. induction l as [| x l IH]; intros s; simpl; [ tauto | ].
  rewrite IH, set_add_In. intuition.
Qed.

Lemma fold_set_add_NoDup (l s : list A) :
  NoDup s -> NoDup (fold_left (fun s x => set_add x s) l s).
Proof.
  revert s. induction l as [| x l IH]; intros s Hs; simpl; auto.
  apply IH, set_add_NoDup, Hs.
Qed.

Lemma fold_set_add_fresh (l s : list A) :
  NoDup (s ++ l) -> fold_left (fun s x => set_add x s) l s = s ++ l.
Proof.
  revert s. induction l as [| x l IH]; intros s Hnd; simpl.
  - now rewrite app_nil_r.
  - rewrite set_add_fresh.
    + rewrite IH; rewrite <- app_assoc; [ reflexivity | exact Hnd ].
    + apply NoDup_remove_2 in Hnd. intros Hx. apply Hnd.
      apply in_or_app. auto.
Qed.

Lemma to_set_In (l : list A) (y : A) : In y (to_set l) <-> In y l.
Proof. unfold to_set. rewrite fold_set_add_In. simpl. tauto. Qed.

Lemma to_set_NoDup (l : list A) : NoDup (to_set l).
Proof. apply fold_set_add_NoDup. constructor. Qed.

Lemma nodupb_true (l : list A) : nodupb l = true -> NoDup l.
Proof.
  induction l as [| x l IH]; simpl; [ constructor | ].
  intros Hb. apply andb_prop in Hb. destruct Hb as [Hx Hl].
  constructor; [ | auto ].
  intros Hin. apply inb_true in Hin. rewrite Hin in Hx. discriminate.
Qed.

Lemma list_index_first (l : list A) (k : nat) (x : A) :
  NoDup l -> nth_error l k = Some x -> list_index x l = Some k.
Proof.
  revert k. induction l as [| y l IH]; intros k Hnd Hk.
  - destruct k; discriminate.
  - simpl. destruct k as [| k]; simpl in Hk.
    + injection Hk as ->. destruct (eq_dec x x); congruence.
    + inversion Hnd as [| ? ? Hy Hl]; subst.
      destruct (eq_dec x y) as [-> | Hne].
      * exfalso. apply Hy. eapply nth_error_In; eauto.
      * rewrite (IH k Hl Hk). reflexivity.
Qed.

Lemma list_index_In (l : list A) (x : A) :
  In x l -> exists k, list_index x l = Some k.
Proof.
  induction l as [| y l IH]; simpl; [ intros [] | ].
  intros Hin. destruct (eq_dec x y) as [-> | Hne]; [ eauto | ].
  destruct Hin as [Heq | Hin]; [ congruence | ].
  destruct (IH Hin) as [k ->]. simpl. eauto.
Qed.
End SetFacts.

(** ** Valuation evaluator *)

Section EvaluatorFacts.
Context {Agent C : Type} `{EqDec Agent} `{EqDec C} `{Valuation Agent C}.

Lemma evaluate_agents_run (agents : list Agent) (piece : Piece C) :
  forall d : dict (Agent * Piece C) Q,
    for_each agents d (fun evaluations agent =>
      v <- call_eval agent piece ;;
      ret (dict_set evaluations (agent, piece) v))
    = (map (fun agent => EvEval agent piece) agents,
       inr (fold_left (fun d agent =>
                         dict_set d (agent, piece) (eval agent (fst piece) (snd piece)))
                      agents d)).
Proof.
  induction agents as [| a agents IH]; intros d; [ reflexivity | ].
  cbn [for_each fold_left map].
  unfold bind at 1, call_eval, tell, ret, bind. cbn [fst snd app].
  rewrite IH. reflexivity.
Qed.

Lemma evaluate_run (agents : list Agent) (pieces : list (Piece C)) :
  forall d, evaluate agents pieces d
            = (evaluation_events agents pieces, inr (evaluations_of agents pieces d)).
Proof.
  unfold evaluate, evaluations_of, evaluation_events.
  induction pieces as [| p pieces IH]; intros d; [ reflexivity | ].
  cbn [for_each fold_left flat_map]. rewrite evaluate_agents_run.
  unfold bind at 1. cbn [fst snd]. rewrite IH. reflexivity.
Qed.

Lemma evaluations_of_In (agents : list Agent) (pieces : list (Piece C)) :
  forall d a p v,
    In ((a, p), v) (evaluations_of agents pieces d) ->
    (v = eval a (fst p) (snd p) /\ In a agents /\ In p pieces) \/ In ((a, p), v) d.
Proof.
  unfold evaluations_of.
  induction pieces as [| q pieces IH]; intros d a p v Hin; simpl in Hin; [ auto | ].
  apply IH in Hin. destruct Hin as [(Hv & Ha & Hp) | Hin]; [ simpl; auto | ].
  clear IH.
  assert (Hinner : forall l d,
             In ((a, p), v)
                (fold_left (fun d agent =>
                              dict_set d (agent, q) (eval agent (fst q) (snd q))) l d) ->
             (v = eval a (fst p) (snd p) /\ In a l /\ p = q) \/ In ((a, p), v) d).
  { induction l as [| b l IHl]; intros d' Hd'; simpl in Hd'; [ auto | ].
    apply IHl in Hd'. destruct Hd' as [(Hv & Ha & Hp) | Hd']; [ simpl; auto | ].
    apply dict_set_In in Hd'. destruct Hd' as [[Hk Hv] | Hd']; [ | auto ].
    injection Hk as -> ->. left. simpl. auto. }
  apply Hinner in Hin. destruct Hin as [(Hv & Ha & ->) | Hin]; simpl; auto.
Qed.

Lemma evaluations_of_keys (agents : list Agent) (pieces : list (Piece C)) :
  forall d a p,
    (In a agents /\ In p pieces) \/ In (a, p) (map fst d) ->
    In (a, p) (map fst (evaluations_of agents pieces d)).
Proof.
  unfold evaluations_of.
  assert (Hinner : forall q l (d : dict (Agent * Piece C) Q) a p,
             (In a l /\ p = q) \/ In (a, p) (map fst d) ->
             In (a, p)
                (map fst
                   (fold_left (fun d agent =>
                                 dict_set d (agent, q) (eval agent (fst q) (snd q))) l d))).
  { intros q. induction l as [| b l IHl]; intros d a p Hk; simpl.
    - destruct Hk as [[[] _] | Hk]. exact Hk.
    - apply IHl. rewrite dict_set_keys.
      destruct Hk as [[[-> | Ha] ->] | Hk]; auto. }
  induction pieces as [| q pieces IH]; intros d a p Hk; simpl.
  - destruct Hk as [[_ []] | Hk]. exact Hk.
  - apply IH. destruct Hk as [[Ha [-> | Hp]] | Hk]; auto.
Qed.
End EvaluatorFacts.

(** ** MatchingGraphBuilder *)

Section GraphFacts.
Context {Agent C : Type} `{EqDec Agent} `{EqDec C}.

Lemma add_nodes_from_edges (ns : list (Node Agent C)) (g : Graph Agent C) :
  g_edges (add_nodes_from g ns) = g_edges g.
Proof.
  unfold add_nodes_from. revert g.
  induction ns as [| n ns IH]; intros g; simpl; [ reflexivity | ].
  rewrite IH. reflexivity.
Qed.

(** The edges of the graph are the entries of [weights], whatever the
    lists [left] and [right] of nodes. *)
Lemma create_matching_graph_edges (left : list Agent) (right : list (Piece C))
    (weights : dict (Agent * Piece C) Q) :
  g_edges (create_matching_graph left right weights) = edges_of_weights weights [].
Proof.
  unfold create_matching_graph, edges_of_weights.
  set (g0 := add_nodes_from (add_nodes_from empty_graph (map inl left)) (map inr right)).
  assert (Hg0 : g_edges g0 = []).
  { unfold g0. rewrite !add_nodes_from_edges. reflexivity. }
  rewrite <- Hg0. generalize g0. clear.
  induction weights as [| kv weights IH]; intros g; simpl; [ reflexivity | ].
  rewrite IH. reflexivity.
Qed.

Lemma edges_of_weights_In (weights : dict (Agent * Piece C) Q) :
  forall edges u v w,
    In ((u, v), w) (edges_of_weights weights edges) ->
    (exists a p, u = inl a /\ v = inr p /\ In ((a, p), w) weights)
    \/ In ((u, v), w) edges.
Proof.
  unfold edges_of_weights.
  induction weights as [| [[a p] w0] weights IH]; intros edges u v w Hin;
    simpl in Hin; [ auto | ].
  apply IH in Hin. destruct Hin as [(a' & p' & -> & -> & Hin) | Hin].
  - left. exists a', p'. simpl. auto.
  - apply dict_set_In in Hin. destruct Hin as [[Hk ->] | Hin]; [ | auto ].
    injection Hk as -> ->. left. exists a, p. simpl. auto.
Qed.

Lemma edges_of_weights_keys (weights : dict (Agent * Piece C) Q) :
  forall edges a p,
    In (a, p) (map fst weights) \/ In (inl a, inr p) (map fst edges) ->
    In (inl a, inr p) (map fst (edges_of_weights weights edges)).
Proof.
  unfold edges_of_weights.
  induction weights as [| [[a0 p0] w0] weights IH]; intros edges a p Hk; simpl.
  - destruct Hk as [[] | Hk]. exact Hk.
  - apply IH. rewrite dict_set_keys. simpl in Hk.
    destruct Hk as [[Heq | Hk] | Hk]; auto.
    injection Heq as -> ->. auto.
Qed.

(** Every edge of a matching graph leads from an agent to a piece and
    carries the weight of an entry of the table. *)
Lemma get_edge_data_weights (left : list Agent) (right : list (Piece C))
    (weights : dict (Agent * Piece C) Q) (u v : Node Agent C) (w : Q) :
  get_edge_data (create_matching_graph left right weights) u v = Some w ->
  exists a p, u = inl a /\ v = inr p /\ In ((a, p), w) weights.
Proof.
  unfold get_edge_data. rewrite create_matching_graph_edges. intros Hget.
  apply dict_get_In, edges_of_weights_In in Hget.
  destruct Hget as [Hget | []]. exact Hget.
Qed.

Lemma get_edge_data_key (left : list Agent) (right : list (Piece C))
    (weights : dict (Agent * Piece C) Q) (a : Agent) (p : Piece C) :
  In (a, p) (map fst weights) ->
  exists w, get_edge_data (create_matching_graph left right weights) (inl a) (inr p)
            = Some w.
Proof.
  intros Hk. unfold get_edge_data. rewrite create_matching_graph_edges.
  apply dict_get_key, edges_of_weights_keys. auto.
Qed.
End GraphFacts.

(** ** Edge normalisation, weights and allocations *)

Section MatchingFacts.
Context {Agent C : Type} `{EqDec Agent} `{EqDec C}.
Local Abbreviation node := (Node Agent C).

Lemma fix_edges_to_set (m : list (node * node)) :
  fix_edges m = to_set (map fix_edge m).
Proof.
  unfold fix_edges, to_set. generalize (@nil (node * node)).
  induction m as [| e m IH]; intros acc; simpl; [ reflexivity | ].
  rewrite <- IH. unfold fix_edge.
  destruct (negb (is_agent (fst e))); reflexivity.
Qed.

Lemma fix_edges_In (m : list (node * node)) (e : node * node) :
  In e (fix_edges m) <-> exists e', In e' m /\ e = fix_edge e'.
Proof.
  rewrite fix_edges_to_set, to_set_In, in_map_iff.
  split; intros (e' & H1 & H2); exists e'; auto.
Qed.

Lemma fix_edges_NoDup (m : list (node * node)) : NoDup (fix_edges m).
Proof. rewrite fix_edges_to_set. apply to_set_NoDup. Qed.

Lemma fix_edge_cases (e : node * node) :
  fix_edge e = e \/ fix_edge e = (snd e, fst e).
Proof.
  unfold fix_edge. destruct e as [u v]; simpl.
  destruct (negb (is_agent u)); auto.
Qed.

Lemma fix_edge_nodes_In (m : list (node * node)) (x : node) :
  In x (map fst (map fix_edge m)) \/ In x (map snd (map fix_edge m)) ->
  In x (map fst m ++ map snd m).
Proof.
  rewrite !map_map, in_app_iff, !in_map_iff.
  intros [(e & <- & He) | (e & <- & He)];
    destruct (fix_edge_cases e) as [-> | ->]; simpl; eauto.
Qed.

Lemma fix_edge_NoDup (m : list (node * node)) :
  NoDup (map fst m ++ map snd m) ->
  NoDup (map fst (map fix_edge m)) /\ NoDup (map snd (map fix_edge m)).
Proof.
  induction m as [| e m IH]; simpl; intros Hnd; [ split; constructor | ].
  apply NoDup_cons_iff in Hnd. destruct Hnd as [Hfst Hnd].
  pose proof (NoDup_remove_1 _ _ _ Hnd) as Hrest.
  pose proof (NoDup_remove_2 _ _ _ Hnd) as Hsnd.
  destruct (IH Hrest) as [IH1 IH2].
  assert (Hfst' : ~ In (fst e) (map fst m ++ map snd m)).
  { intros Hin. apply Hfst. apply in_app_iff in Hin. apply in_app_iff.
    simpl. tauto. }
  split; constructor; auto; intros Hin.
  - assert (Hx : In (fst (fix_edge e)) (map fst m ++ map snd m))
      by (apply fix_edge_nodes_In; auto).
    destruct (fix_edge_cases e) as [Heq | Heq]; rewrite Heq in Hx; simpl in Hx; tauto.
  - assert (Hx : In (snd (fix_edge e)) (map fst m ++ map snd m))
      by (apply fix_edge_nodes_In; auto).
    destruct (fix_edge_cases e) as [Heq | Heq]; rewrite Heq in Hx; simpl in Hx; tauto.
Qed.

(** On a matching, [fix_edges] turns every pair and keeps them all: no
    agent and no piece occurs twice afterwards. *)
Lemma fix_edges_matching (g : Graph Agent C) (m : list (node * node)) :
  is_matching g m ->
  fix_edges m = map fix_edge m
  /\ NoDup (map fst (fix_edges m))
  /\ NoDup (map snd (fix_edges m)).
Proof.
  intros [_ Hnd]. apply fix_edge_NoDup in Hnd. destruct Hnd as [Hf Hs].
  assert (Heq : fix_edges m = map fix_edge m).
  { rewrite fix_edges_to_set. unfold to_set.
    rewrite fold_set_add_fresh; [ reflexivity | ].
    simpl. eapply NoDup_map_inv. exact Hf. }
  rewrite Heq. auto.
Qed.

Lemma is_matchingb_sound (g : Graph Agent C) (m : list (node * node)) :
  is_matchingb g m = true -> is_matching g m.
Proof.
  unfold is_matchingb, is_matching. intros Hb.
  apply andb_prop in Hb. destruct Hb as [Hj Hn]. split.
  - intros e He. rewrite forallb_forall in Hj. auto.
  - apply nodupb_true. exact Hn.
Qed.

(** A pair joined by an edge of an agent-to-piece graph, once turned, is
    that edge. *)
Lemma joinsb_fix_edge (g : Graph Agent C) (e : node * node) :
  agent_to_piece g -> joinsb g e = true ->
  exists a p w, fix_edge e = (inl a, inr p)
                /\ get_edge_data g (inl a) (inr p) = Some w.
Proof.
  intros Hg Hj. unfold joinsb in Hj. apply orb_prop in Hj.
  destruct e as [u v]. simpl in Hj. destruct Hj as [Hj | Hj].
  - destruct (get_edge_data g u v) as [w |] eqn:Hw; [ | discriminate ].
    destruct (Hg _ _ _ Hw) as (a & p & -> & ->).
    exists a, p, w. auto.
  - destruct (get_edge_data g v u) as [w |] eqn:Hw; [ | discriminate ].
    destruct (Hg _ _ _ Hw) as (a & p & -> & ->).
    exists a, p, w. auto.
Qed.

Lemma calculate_weight_fold_inl (g : Graph Agent C) (m : list (node * node)) (e : exn) :
  fold_left (fun ret edge =>
               rbind ret (fun ret =>
               match get_edge_data g (fst edge) (snd edge) with
               | Some w => inr (ret + w)%Q
               | None => inl (TypeError "'NoneType' object is not subscriptable")
               end))
            m (inl e) = inl e.
Proof. induction m as [| x m IH]; simpl; auto. Qed.

Lemma calculate_weight_fold (g : Graph Agent C) (val : node -> node -> Q)
    (m : list (node * node)) :
  (forall u v w, get_edge_data g u v = Some w -> w = val u v) ->
  forall acc w,
    fold_left (fun ret edge =>
                 rbind ret (fun ret =>
                 match get_edge_data g (fst edge) (snd edge) with
                 | Some w => inr (ret + w)%Q
                 | None => inl (TypeError "'NoneType' object is not subscriptable")
                 end))
              m (inr acc) = inr w ->
    (w == acc + Qsum (map (fun e => val (fst e) (snd e)) m))%Q
    /\ forall e, In e m -> get_edge_data g (fst e) (snd e) = Some (val (fst e) (snd e)).
Proof.
  intros Hval. induction m as [| x m IH]; intros acc w Hw; simpl in Hw.
  - injection Hw as <-. simpl. split; [ ring | intros e [] ].
  - destruct (get_edge_data g (fst x) (snd x)) as [wx |] eqn:Hx.
    + apply IH in Hw. destruct Hw as [Hw Hall]. split.
      * rewrite Hw. simpl. rewrite (Hval _ _ _ Hx). ring.
      * intros e [<- | He]; [ | auto ]. rewrite Hx. f_equal. eauto.
    + rewrite calculate_weight_fold_inl in Hw. discriminate.
Qed.

Lemma calculate_weight_inl (g : Graph Agent C) (m : list (node * node)) (e : exn) :
  calculate_weight g m = inl e ->
  e = TypeError "'NoneType' object is not subscriptable".
Proof.
  unfold calculate_weight. generalize 0%Q.
  induction m as [| x m IH]; intros acc Hw; simpl in Hw; [ discriminate | ].
  destruct (get_edge_data g (fst x) (snd x)) as [wx |]; [ eauto | ].
  rewrite calculate_weight_fold_inl in Hw. congruence.
Qed.

Lemma list_update_app {A : Type} (l1 l2 : list A) (x v : A) :
  list_update (l1 ++ x :: l2) (length l1) v = l1 ++ v :: l2.
Proof. induction l1 as [| y l1 IH]; simpl; [ | rewrite IH ]; reflexivity. Qed.

(** [build_allocation] on edges with pairwise distinct agents is the
    allocation of the specification. *)
Lemma build_allocation_matching (m : list (node * node)) :
  NoDup (map fst m) -> build_allocation m = inr (allocation_of_matching m).
Proof.
  intros Hnd. unfold build_allocation, new_allocation, allocation_of_matching.
  rewrite length_map.
  set (f := fun e : node * node => Some [snd e]).
  assert (Hgen : forall todo done,
             m = done ++ todo ->
             fold_left (fun al edge =>
                          rbind al (fun al =>
                          match list_index (fst edge) (map fst m) with
                          | Some i => inr (set_piece al i [snd edge])
                          | None => inl (ValueError "x is not in list")
                          end))
                       todo
                       (inr (mkAllocation (map fst m)
                               (map f done ++ repeat None (length todo))))
             = inr (mkAllocation (map fst m) (map f m))).
  { induction todo as [| e todo IH]; intros done Hm.
    - simpl. rewrite app_nil_r in *. subst. reflexivity.
    - cbn [fold_left rbind].
      rewrite (list_index_first (map fst m) (length done) (fst e) Hnd).
      2:{ subst m. rewrite map_app, nth_error_app2; rewrite length_map; [ | lia ].
          rewrite Nat.sub_diag. reflexivity. }
      unfold set_piece. cbn [alloc_agents alloc_pieces length repeat].
      replace (length done) with (length (map f done)) by apply length_map.
      rewrite list_update_app.
      replace (map f done ++ Some [snd e] :: repeat None (length todo))
        with (map f (done ++ [e]) ++ repeat None (length todo))
        by (rewrite map_app, <- app_assoc; reflexivity).
      apply IH. rewrite <- app_assoc. exact Hm. }
  apply (Hgen m []). reflexivity.
Qed.

(** [build_allocation] never raises: every edge's agent is in the list
    its index is looked up in. *)
Lemma build_allocation_returns (m : list (node * node)) :
  exists al, build_allocation m = inr al.
Proof.
  unfold build_allocation.
  assert (Hgen : forall todo al,
             incl todo m ->
             exists al',
               fold_left (fun al edge =>
                            rbind al (fun al =>
                            match list_index (fst edge) (map fst m) with
                            | Some i => inr (set_piece al i [snd edge])
                            | None => inl (ValueError "x is not in list")
                            end))
                         todo (inr al) = inr al').
  { induction todo as [| e todo IH]; intros al Hin; simpl; [ eauto | ].
    destruct (list_index_In (map fst m) (fst e)) as [k Hk].
    { apply in_map, Hin. left. reflexivity. }
    rewrite Hk. apply IH. intros x Hx. apply Hin. right. exact Hx. }
  apply Hgen, incl_refl.
Qed.

Context `{Valuation Agent C}.

Lemma allocation_weight_matching (m : list (node * node)) :
  (allocation_weight (allocation_of_matching m)
   == Qsum (map (fun e => node_value (fst e) (snd e)) m))%Q.
Proof.
  unfold allocation_weight, allocation_of_matching. cbn [alloc_agents alloc_pieces].
  induction m as [| e m IH]; simpl; [ reflexivity | ].
  rewrite IH. ring.
Qed.
End MatchingFacts.

(** ** Algorithm 2: the loop over the coarsening levels *)

Section DiscreteFacts.
Context {Agent C : Type} `{EqDec Agent} `{EqDec C}.
Context `{Valuation Agent C} `{Solver Agent C}.
Local Abbreviation node := (Node Agent C).

Variable agents : list Agent.
Variable pieces : list (Piece C).

Lemma level_graph_edge (part : list (Piece C)) (u v : node) (w : Q) :
  get_edge_data (level_graph agents part) u v = Some w ->
  exists a p, u = inl a /\ v = inr p /\ w = eval a (fst p) (snd p)
              /\ In a agents /\ In p part.
Proof.
  intros Hget. apply get_edge_data_weights in Hget.
  destruct Hget as (a & p & -> & -> & Hin).
  apply evaluations_of_In in Hin. destruct Hin as [(Hw & Ha & Hp) | []].
  exists a, p. auto.
Qed.

Lemma level_graph_agent_to_piece (part : list (Piece C)) :
  agent_to_piece (level_graph agents part).
Proof.
  intros u v w Hget. apply level_graph_edge in Hget.
  destruct Hget as (a & p & -> & -> & _). eauto.
Qed.

Lemma level_graph_value (part : list (Piece C)) (u v : node) (w : Q) :
  get_edge_data (level_graph agents part) u v = Some w -> w = node_value u v.
Proof.
  intros Hget. apply level_graph_edge in Hget.
  destruct Hget as (a & p & -> & -> & -> & _). reflexivity.
Qed.

Lemma discrete_level_run (t : nat) :
  discrete_level agents pieces t
  = match change_partition pieces t with
    | inl e => ([EvCoarsen t], inl e)
    | inr part =>
        let g := level_graph agents part in
        let m := fix_edges (max_weight_matching g) in
        (EvCoarsen t :: evaluation_events agents part ++ [EvMatch g],
         rbind (calculate_weight g m) (fun w => inr (m, w)))
    end.
Proof.
  unfold discrete_level.
  destruct (change_partition pieces t) as [e | part]; [ reflexivity | ].
  cbv [tell lift ret bind matching_of call_matching fst snd].
  rewrite evaluate_run. fold (level_graph agents part).
  destruct (calculate_weight (level_graph agents part)
              (fix_edges (max_weight_matching (level_graph agents part))))
    as [e | w]; cbn [app rbind]; rewrite ?app_nil_r; reflexivity.
Qed.

Lemma discrete_level_inv (t : nat) (m : list (node * node)) (w : Q) :
  result_of (discrete_level agents pieces t) = inr (m, w) ->
  exists part,
    change_partition pieces t = inr part
    /\ m = fix_edges (max_weight_matching (level_graph agents part))
    /\ calculate_weight (level_graph agents part) m = inr w
    /\ log_of (discrete_level agents pieces t)
       = EvCoarsen t :: evaluation_events agents part
           ++ [EvMatch (level_graph agents part)].
Proof.
  rewrite discrete_level_run.
  destruct (change_partition pieces t) as [e | part]; [ discriminate | ].
  cbn [result_of log_of fst snd].
  destruct (calculate_weight _ _) as [e | w'] eqn:Hw; [ discriminate | ].
  cbn [rbind]. intros Heq. injection Heq as <- <-.
  exists part. auto.
Qed.

Lemma discrete_body_run (st : discrete_state) (t : nat) :
  discrete_body agents pieces st t
  = (log_of (discrete_level agents pieces t),
     rbind (result_of (discrete_level agents pieces t))
           (fun ew => inr (if Qltb (fst st) (snd ew)
                           then (snd ew, Some (fst ew)) else st))).
Proof.
  unfold discrete_body.
  destruct (discrete_level agents pieces t) as [l [e | [m w]]];
    unfold bind; cbn [fst snd log_of result_of rbind]; [ reflexivity | ].
  destruct (Qltb (fst st) w); cbn [ret fst snd]; rewrite app_nil_r; reflexivity.
Qed.

Lemma Qltb_true (a b : Q) : Qltb a b = true -> (a < b)%Q.
Proof.
  unfold Qltb. intros Hb. apply negb_true_iff in Hb.
  apply Qle_bool_false. exact Hb.
Qed.

Lemma Qltb_false (a b : Q) : Qltb a b = false -> (b <= a)%Q.
Proof.
  unfold Qltb. intros Hb. apply negb_false_iff in Hb.
  apply Qle_bool_iff. exact Hb.
Qed.

(** The state after the loop: every level was computed and weighs at most
    the final [max_weight]; either no level beat the initial weight, or
    the kept matching is that of the first level of maximal weight. *)
Lemma discrete_loop_spec (ts : list nat) :
  forall st st',
    result_of (for_each ts st (discrete_body agents pieces)) = inr st' ->
    Forall (fun t =>
              exists m w,
                result_of (discrete_level agents pieces t) = inr (m, w)
                /\ (w <= fst st')%Q
                /\ incl (log_of (discrete_level agents pieces t))
                        (log_of (for_each ts st (discrete_body agents pieces))))
           ts
    /\ (fst st <= fst st')%Q
    /\ (st' = st
        \/ exists pre t0 post m0 w0,
             ts = pre ++ t0 :: post
             /\ result_of (discrete_level agents pieces t0) = inr (m0, w0)
             /\ st' = (w0, Some m0)
             /\ (fst st < w0)%Q
             /\ Forall (fun t =>
                          forall m w,
                            result_of (discrete_level agents pieces t) = inr (m, w) ->
                            (w < w0)%Q)
                       pre).
Proof.
  induction ts as [| t ts IH]; intros st st' Hres.
  - simpl in Hres. injection Hres as <-.
    split; [ constructor | split; [ apply Qle_refl | auto ] ].
  - cbn [for_each] in *.
    destruct (bind_inr _ _ _ Hres) as (s1 & Hs1 & Hrest & Hlog).
    rewrite discrete_body_run in Hs1. cbn [result_of snd] in Hs1.
    destruct (result_of (discrete_level agents pieces t)) as [e | [m w]] eqn:Hlev;
      [ discriminate | ].
    cbn [rbind fst snd] in Hs1. injection Hs1 as Hs1.
    destruct (IH _ _ Hrest) as (Hall & Hle & Hcase).
    assert (Hw1 : (w <= fst s1)%Q /\ (fst st <= fst s1)%Q).
    { subst s1. destruct (Qltb (fst st) w) eqn:Hb; cbn [fst].
      - apply Qltb_true in Hb. split; [ apply Qle_refl | lra ].
      - apply Qltb_false in Hb. split; [ exact Hb | apply Qle_refl ]. }
    destruct Hw1 as [Hw1 Hst1].
    split; [ | split; [ lra | ] ].
    + constructor.
      * exists m, w. split; [ exact Hlev | split; [ lra | ] ].
        rewrite Hlog. rewrite discrete_body_run. cbn [log_of fst].
        apply incl_appl, incl_refl.
      * eapply Forall_impl; [ | exact Hall ].
        intros t' (m' & w' & Hl' & Hw' & Hincl).
        exists m', w'. split; [ exact Hl' | split; [ exact Hw' | ] ].
        rewrite Hlog. apply incl_appr. exact Hincl.
    + destruct Hcase as [-> | (pre & t0 & post & m0 & w0 & -> & Hl0 & -> & Hlt & Hpre)].
      * subst s1. destruct (Qltb (fst st) w) eqn:Hb; [ | auto ].
        apply Qltb_true in Hb. right.
        exists [], t, ts, m, w. repeat split; auto.
      * right. exists (t :: pre), t0, post, m0, w0.
        repeat split; auto; [ lra | ].
        constructor; [ | exact Hpre ].
        intros m' w' Hl'. rewrite Hlev in Hl'. injection Hl' as <- <-. lra.
Qed.

Lemma seq_split_from (pre post : list nat) (t0 : nat) :
  forall s n, seq s n = pre ++ t0 :: post ->
              pre = seq s (length pre) /\ t0 = s + length pre /\ length pre < n.
Proof.
  induction pre as [| x pre IH]; intros s n Hsplit.
  - destruct n as [| n]; simpl in Hsplit; [ discriminate | ].
    injection Hsplit as <- _. simpl. repeat split; lia.
  - destruct n as [| n]; simpl in Hsplit; [ discriminate | ].
    injection Hsplit as <- Hsplit.
    destruct (IH _ _ Hsplit) as (Hpre & Ht0 & Hlen).
    simpl. rewrite <- Hpre. repeat split; [ lia | lia ].
Qed.

Lemma seq_split (n : nat) (pre post : list nat) (t0 : nat) :
  seq 0 n = pre ++ t0 :: post -> pre = seq 0 t0 /\ t0 < n.
Proof.
  intros Hsplit. destruct (seq_split_from _ _ _ _ _ Hsplit) as (Hpre & Ht0 & Hlen).
  simpl in Ht0. subst t0. auto.
Qed.

(** What a successful run of [discrete_setting] has computed. *)
Lemma discrete_setting_inv (al : Allocation Agent C) :
  result_of (discrete_setting agents pieces) = inr al ->
  exists t0 m0 w0,
    t0 <= Nat.log2 (length pieces)
    /\ result_of (discrete_level agents pieces t0) = inr (m0, w0)
    /\ (0 < w0)%Q
    /\ build_allocation m0 = inr al
    /\ (forall t, t <= Nat.log2 (length pieces) ->
          exists m w,
            result_of (discrete_level agents pieces t) = inr (m, w)
            /\ (w <= w0)%Q
            /\ incl (log_of (discrete_level agents pieces t))
                    (log_of (discrete_setting agents pieces)))
    /\ (forall t m w,
          t < t0 ->
          result_of (discrete_level agents pieces t) = inr (m, w) ->
          (w < w0)%Q).
Proof.
  unfold discrete_setting. intros Hres.
  destruct (bind_inr _ _ _ Hres) as (r & Hr & Hres1 & Hlog1).
  destruct (bind_inr _ _ _ Hres1) as (st & Hst & Hres2 & Hlog2).
  unfold int_log2 in Hr. destruct (length pieces) as [| m'] eqn:Hm; [ discriminate | ].
  cbn [lift result_of snd] in Hr. injection Hr as <-.
  destruct (discrete_loop_spec _ _ _ Hst)
    as (Hall & _ & [-> | (pre & t0 & post & m0 & w0 & Hsplit & Hl0 & -> & Hlt & Hpre)]).
  { cbn [snd] in Hres2. discriminate. }
  cbn [snd fst] in *.
  rewrite Nat.add_1_r in Hsplit.
  destruct (seq_split _ _ _ _ Hsplit) as [-> Ht0].
  exists t0, m0, w0.
  split; [ lia | ]. split; [ exact Hl0 | ]. split; [ exact Hlt | ].
  split; [ exact Hres2 | ]. split.
  - intros t Ht. rewrite Forall_forall in Hall.
    destruct (Hall t) as (m & w & Hl & Hw & Hincl).
    { apply in_seq. lia. }
    exists m, w. split; [ exact Hl | split; [ exact Hw | ] ].
    rewrite Hlog1, Hlog2. cbn [lift log_of fst app].
    apply incl_appl. exact Hincl.
  - intros t m w Ht Hl. rewrite Forall_forall in Hpre.
    apply (Hpre t) with (m := m); [ apply in_seq; lia | exact Hl ].
Qed.
End DiscreteFacts.

(** ** AllocationBuilder *)

Section AllocationFacts.
Context {Agent C : Type} `{EqDec Agent} `{EqDec C}.
Local Abbreviation node := (Node Agent C).

Lemma assigned_pieces_matching (m : list (node * node)) :
  assigned_pieces (allocation_of_matching m) = map snd m.
Proof.
  unfold assigned_pieces, allocation_of_matching. cbn [alloc_pieces].
  induction m as [| e m IH]; simpl; [ | rewrite IH ]; reflexivity.
Qed.

(** The allocation built from the normalised output of a solver that
    respects its contract on an agent-to-piece graph. *)
Lemma build_allocation_one_piece_each (agents : list Agent) (g : Graph Agent C)
    (m0 : list (node * node)) (al : Allocation Agent C) :
  agent_to_piece g ->
  (forall a p w, get_edge_data g (inl a) (inr p) = Some w -> In a agents) ->
  is_matching g m0 ->
  build_allocation (fix_edges m0) = inr al ->
  one_piece_each agents (fix_edges m0) al.
Proof.
  intros Hg Hag Hm Hal.
  destruct (fix_edges_matching g m0 Hm) as (Heq & Hfst & Hsnd).
  rewrite (build_allocation_matching _ Hfst) in Hal. injection Hal as <-.
  unfold one_piece_each. rewrite assigned_pieces_matching.
  cbn [allocation_of_matching alloc_agents alloc_pieces].
  split; [ reflexivity | ]. split; [ exact Hfst | ]. split; [ exact Hsnd | ]. split.
  - intros i n Hn. rewrite nth_error_map in Hn.
    destruct (nth_error (fix_edges m0) i) as [e |] eqn:He; [ | discriminate ].
    injection Hn as <-.
    pose proof (nth_error_In _ _ He) as Hin.
    apply fix_edges_In in Hin. destruct Hin as (e' & He' & Hfix).
    destruct Hm as [Hjoin _].
    destruct (joinsb_fix_edge g e' Hg (Hjoin _ He')) as (a & p & w & Hap & Hw).
    exists a, p. rewrite Hfix, Hap. cbn [fst snd].
    split; [ reflexivity | ]. split; [ eapply Hag; eauto | ]. split.
    + rewrite nth_error_map, He, Hfix, Hap. reflexivity.
    + rewrite <- Hap, <- Hfix. eapply nth_error_In; eauto.
  - intros n. rewrite in_map_iff. split.
    + intros ([n' p] & <- & Hin). exists p. exact Hin.
    + intros (p & Hin). exists (n, p). auto.
Qed.
End AllocationFacts.

(** ** Algorithm 1: what a run computes *)

Section EquallySizedFacts.
Context {Agent : Type} `{EqDec Agent}.
Context `{Valuation Agent Z} `{Cake Agent} `{Solver Agent Z}.

Lemma valid_size_bool (size : Q) :
  negb (Qltb 0 size && Qle_bool size 1) = false <-> (0 < size <= 1)%Q.
Proof.
  rewrite negb_false_iff, andb_true_iff, Qle_bool_iff. split.
  - intros [Hlt Hle]. split; [ apply Qltb_true, Hlt | exact Hle ].
  - intros [Hlt Hle]. split; [ | exact Hle ].
    unfold Qltb. apply negb_true_iff.
    destruct (Qle_bool size 0) eqn:Hb; [ | reflexivity ].
    apply Qle_bool_iff in Hb. lra.
Qed.

Lemma equally_sized_pieces_invalid (agents : list Agent) (size : Q) :
  agents = [] \/ ~ (0 < size <= 1)%Q ->
  exists msg, equally_sized_pieces agents size = ([], inl (ValueError msg)).
Proof.
  intros Hbad. unfold equally_sized_pieces.
  destruct agents as [| a agents]; [ eexists; reflexivity | ].
  destruct Hbad as [Hbad | Hbad]; [ discriminate Hbad | ].
  cbn [length Nat.eqb].
  destruct (negb (Qltb 0 size && Qle_bool size 1)) eqn:Hb; [ eexists; reflexivity | ].
  apply valid_size_bool in Hb. contradiction.
Qed.

Lemma py_max_nonempty (x : Q) (l : list Q) :
  exists m, py_max (x :: l) = inr m /\ In m (x :: l).
Proof.
  unfold py_max. eexists. split; [ reflexivity | ].
  revert x. induction l as [| y l IH]; intros x; simpl; [ auto | ].
  destruct (IH (if Qltb x y then y else x)) as [Hm | Hm]; [ | auto ].
  rewrite <- Hm. destruct (Qltb x y); auto.
Qed.

Lemma equally_sized_pieces_run (agents : list Agent) (size : Q) :
  agents <> [] -> (0 < size <= 1)%Q ->
  exists p0 pd len,
    create_partition size 0 = inr p0
    /\ create_partition size (tiling_offset size) = inr pd
    /\ py_max (map cake_length agents) = inr len
    /\ let pieces := map (normalize len) (p0 ++ pd) in
       let table := evaluations_of agents pieces [] in
       let g0 := create_matching_graph agents (map (normalize len) p0) table in
       let gd := create_matching_graph agents (map (normalize len) pd) table in
       let m0 := fix_edges (max_weight_matching g0) in
       let md := fix_edges (max_weight_matching gd) in
       equally_sized_pieces agents size
       = (EvPartition size 0 :: EvPartition size (tiling_offset size)
            :: evaluation_events agents pieces ++ [EvMatch g0; EvMatch gd],
          rbind (calculate_weight gd md) (fun wd =>
          rbind (calculate_weight g0 m0) (fun w0 =>
          build_allocation (if Qltb w0 wd then md else m0)))).
Proof.
  intros Hne [Hpos Hle].
  destruct (create_partition_returns size Hpos 0) as (p0 & Hp0 & _).
  destruct (create_partition_returns size Hpos (tiling_offset size)) as (pd & Hpd & _).
  destruct agents as [| a agents]; [ contradiction | ].
  destruct (py_max_nonempty (cake_length a) (map cake_length agents)) as (len & Hlen & _).
  exists p0, pd, len. split; [ exact Hp0 | ]. split; [ exact Hpd | ].
  split; [ exact Hlen | ].
  unfold equally_sized_pieces. cbn [length Nat.eqb].
  assert (Hb : negb (Qltb 0 size && Qle_bool size 1) = false)
    by (apply valid_size_bool; auto).
  rewrite Hb. fold (tiling_offset size).
  unfold call_create_partition. rewrite Hp0, Hpd.
  change (map cake_length (a :: agents)) with (cake_length a :: map cake_length agents) in Hlen.
  cbn [map] in *. rewrite Hlen.
  cbv [tell lift ret bind matching_of call_matching fst snd].
  rewrite evaluate_run.
  destruct (calculate_weight _ _) as [e | wd]; cbn [rbind app]; [ reflexivity | ].
  destruct (calculate_weight _ _) as [e | w0]; cbn [rbind app];
    rewrite ?app_nil_r; reflexivity.
Qed.
End EquallySizedFacts.

(** ** Algorithm 2: how a run can fail *)

Section DiscreteErrors.
Context {Agent C : Type} `{EqDec Agent} `{EqDec C}.
Context `{Valuation Agent C} `{Solver Agent C}.
Local Abbreviation node := (Node Agent C).

Variable agents : list Agent.
Variable pieces : list (Piece C).

Lemma log_bind_prefix {A B : Type} (m : M Agent C A) (f : A -> M Agent C B) :
  exists l, log_of (bind m f) = log_of m ++ l.
Proof.
  destruct m as [l [e | a]]; unfold log_of; simpl.
  - exists []. now rewrite app_nil_r.
  - eauto.
Qed.

Lemma discrete_level_error (t : nat) (e : exn) :
  result_of (discrete_level agents pieces t) = inl e ->
  e = TypeError "'NoneType' object is not subscriptable".
Proof.
  rewrite discrete_level_run.
  destruct (change_partition_returns pieces t) as (part & ->).
  cbn [result_of snd].
  destruct (calculate_weight _ _) as [e' | w] eqn:Hw; [ | discriminate ].
  cbn [rbind]. intros Heq. injection Heq as <-.
  exact (calculate_weight_inl _ _ _ Hw).
Qed.

Lemma discrete_level_log (t : nat) :
  exists part,
    change_partition pieces t = inr part
    /\ log_of (discrete_level agents pieces t)
       = EvCoarsen t :: evaluation_events agents part
           ++ [EvMatch (level_graph agents part)].
Proof.
  rewrite discrete_level_run.
  destruct (change_partition_returns pieces t) as (part & ->).
  exists part. auto.
Qed.

Lemma discrete_loop_error (ts : list nat) :
  forall st e,
    result_of (for_each ts st (discrete_body agents pieces)) = inl e ->
    e = TypeError "'NoneType' object is not subscriptable".
Proof.
  induction ts as [| t ts IH]; intros st e Hres; [ discriminate | ].
  cbn [for_each] in Hres.
  destruct (bind_inl _ _ _ Hres) as [Hb | (s1 & _ & Hrest)]; [ | eauto ].
  rewrite discrete_body_run in Hb. cbn [result_of snd] in Hb.
  destruct (result_of (discrete_level agents pieces t)) as [e' | ew] eqn:Hlev;
    [ | discriminate ].
  cbn [rbind] in Hb. injection Hb as <-.
  exact (discrete_level_error _ _ Hlev).
Qed.

Lemma discrete_setting_error (e : exn) :
  result_of (discrete_setting agents pieces) = inl e ->
  (pieces = [] /\ e = ValueError "math domain error")
  \/ e = TypeError "'NoneType' object is not subscriptable"
  \/ e = TypeError "'NoneType' object is not iterable".
Proof.
  unfold discrete_setting. intros Hres.
  destruct (bind_inl _ _ _ Hres) as [Hr | (r & _ & Hres1)].
  { left. unfold int_log2 in Hr. destruct pieces; [ | discriminate ].
    cbn in Hr. injection Hr as <-. auto. }
  right.
  destruct (bind_inl _ _ _ Hres1) as [Hloop | (st & _ & Hres2)].
  { left. exact (discrete_loop_error _ _ _ Hloop). }
  destruct (snd st) as [mm |].
  - destruct (build_allocation_returns mm) as [al Hal].
    cbn [lift result_of snd] in Hres2. congruence.
  - right. cbn in Hres2. congruence.
Qed.

(** When no level has a matching of positive weight, no matching is
    kept and iterating over the missing [max_match] raises. *)
Lemma discrete_setting_no_positive_weight :
  pieces <> [] ->
  (forall t m w,
      t <= Nat.log2 (length pieces) ->
      result_of (discrete_level agents pieces t) = inr (m, w) -> (w <= 0)%Q) ->
  exists msg, result_of (discrete_setting agents pieces) = inl (TypeError msg).
Proof.
  intros Hne Hzero.
  destruct (result_of (discrete_setting agents pieces)) as [e | al] eqn:Hres.
  - destruct (discrete_setting_error e Hres) as [[Hp _] | [-> | ->]];
      [ contradiction | eauto | eauto ].
  - destruct (discrete_setting_inv agents pieces al Hres)
      as (t0 & m0 & w0 & Ht0 & Hl0 & Hpos & _).
    apply Hzero in Hl0; [ lra | exact Ht0 ].
Qed.

Lemma Qsum_zero (l : list Q) :
  (forall x, In x l -> (x == 0)%Q) -> (Qsum l == 0)%Q.
Proof.
  induction l as [| x l IH]; intros Hl; simpl; [ reflexivity | ].
  rewrite (Hl x (or_introl eq_refl)), IH; [ ring | ].
  intros y Hy. apply Hl. now right.
Qed.

(** The weight of a level is the sum of the agents' values of their
    matched pieces, all of them pieces of that level's partition. *)
Lemma discrete_level_weight (t : nat) (m : list (node * node)) (w : Q) :
  result_of (discrete_level agents pieces t) = inr (m, w) ->
  exists part,
    change_partition pieces t = inr part
    /\ (w == Qsum (map (fun e => node_value (fst e) (snd e)) m))%Q
    /\ forall e, In e m ->
         exists a p, e = (inl a, inr p) /\ In a agents /\ In p part.
Proof.
  intros Hlev. destruct (discrete_level_inv agents pieces t m w Hlev)
    as (part & Hpart & Hm & Hw & _).
  exists part. split; [ exact Hpart | ].
  unfold calculate_weight in Hw.
  destruct (calculate_weight_fold (level_graph agents part) node_value m
              (level_graph_value agents part) 0%Q w Hw) as [Hsum Hedges].
  split; [ rewrite Hsum; ring | ].
  intros [u v] He. apply Hedges in He. cbn [fst snd] in He.
  apply level_graph_edge in He.
  destruct He as (a & p & -> & -> & _ & Ha & Hp). eauto.
Qed.

(** The run starts with the coarsening and the matching of level 0,
    whatever happens later. *)
Lemma discrete_setting_log_level0 :
  pieces <> [] ->
  exists part l,
    change_partition pieces 0 = inr part
    /\ log_of (discrete_setting agents pieces)
       = (EvCoarsen 0 :: evaluation_events agents part
            ++ [EvMatch (level_graph agents part)]) ++ l.
Proof.
  intros Hne. destruct (discrete_level_log 0) as (part & Hpart & Hlog).
  exists part. unfold discrete_setting.
  destruct pieces as [| p ps]; [ contradiction | ].
  cbn [length int_log2]. unfold lift at 1. unfold bind at 1. cbn [fst snd app].
  rewrite Nat.add_1_r. cbn [seq for_each]. unfold log_of in *. cbn [fst].
  match goal with
  | |- context [fst (bind (bind ?m ?f) ?k)] =>
      destruct (log_bind_prefix (bind m f) k) as [l1 Hl1];
      destruct (log_bind_prefix m f) as [l2 Hl2]
  end.
  unfold log_of in *.
  exists (l2 ++ l1). split; [ exact Hpart | ].
  etransitivity; [ exact Hl1 | ].
  replace (fst (bind (discrete_body agents (p :: ps) (0%Q, None) 0)
                 (fun s' => for_each (seq 1 (Nat.log2 (S (length ps)))) s'
                              (discrete_body agents (p :: ps)))))
    with (fst (discrete_body agents (p :: ps) (0%Q, None) 0) ++ l2) by (symmetry; exact Hl2).
  rewrite discrete_body_run. cbn [fst]. unfold log_of.
  rewrite Hlog. cbn [app]. rewrite <- !app_assoc. reflexivity.
Qed.
End DiscreteErrors.

(** ** Event logs *)

Section LogFacts.
Context {Agent C : Type}.

Lemma matching_graphs_In (log : list (Event Agent C)) (g : Graph Agent C) :
  In g (matching_graphs log) <-> In (EvMatch g) log.
Proof.
  unfold matching_graphs. rewrite in_flat_map. split.
  - intros (ev & Hev & Hg). destruct ev; try contradiction.
    destruct Hg as [<- | []]. exact Hev.
  - intros Hin. exists (EvMatch g). simpl. auto.
Qed.

Lemma evaluated_pieces_In (log : list (Event Agent C)) (p : Piece C) :
  In p (evaluated_pieces log) <-> exists a, In (EvEval a p) log.
Proof.
  unfold evaluated_pieces. rewrite in_flat_map. split.
  - intros (ev & Hev & Hp). destruct ev; try contradiction.
    destruct Hp as [<- | []]. eauto.
  - intros (a & Hin). exists (EvEval a p). simpl. auto.
Qed.

Lemma evaluation_events_In (agents : list Agent) (pieces : list (Piece C))
    (ev : Event Agent C) :
  In ev (evaluation_events agents pieces) <->
  exists a p, ev = EvEval a p /\ In a agents /\ In p pieces.
Proof.
  unfold evaluation_events. rewrite in_flat_map. split.
  - intros (p & Hp & Hev). apply in_map_iff in Hev.
    destruct Hev as (a & <- & Ha). eauto.
  - intros (a & p & -> & Ha & Hp). exists p. split; [ exact Hp | ].
    apply in_map_iff. eauto.
Qed.
End LogFacts.

Section EquallySizedResults.
Context {Agent : Type} `{EqDec Agent}.
Context `{Valuation Agent Z} `{Cake Agent} `{Solver Agent Z}.

Lemma equally_sized_pieces_inr_valid (agents : list Agent) (size : Q)
    (al : Allocation Agent Z) :
  result_of (equally_sized_pieces agents size) = inr al ->
  agents <> [] /\ (0 < size <= 1)%Q.
Proof.
  intros Hres.
  destruct agents as [| a agents].
  { destruct (equally_sized_pieces_invalid [] size (or_introl eq_refl)) as [msg Hm].
    rewrite Hm in Hres. discriminate. }
  split; [ discriminate | ].
  destruct (negb (Qltb 0 size && Qle_bool size 1)) eqn:Hb.
  - exfalso.
    destruct (equally_sized_pieces_invalid (a :: agents) size) as [msg Hm].
    { right. intros Hv. apply valid_size_bool in Hv. congruence. }
    rewrite Hm in Hres. discriminate.
  - apply valid_size_bool. exact Hb.
Qed.

(** A successful run built its allocation from the normalised matching
    of one of the two graphs it handed to the solver. *)
Lemma equally_sized_pieces_inv (agents : list Agent) (size : Q)
    (al : Allocation Agent Z) :
  result_of (equally_sized_pieces agents size) = inr al ->
  exists pieces right,
    let g := create_matching_graph agents right (evaluations_of agents pieces []) in
    In g (matching_graphs (log_of (equally_sized_pieces agents size)))
    /\ build_allocation (fix_edges (max_weight_matching g)) = inr al.
Proof.
  intros Hres.
  destruct (equally_sized_pieces_inr_valid agents size al Hres) as [Hne Hv].
  destruct (equally_sized_pieces_run agents size Hne Hv)
    as (p0 & pd & len & _ & _ & _ & Hrun).
  cbv zeta in Hrun. rewrite Hrun in *. cbn [result_of log_of fst snd] in *.
  set (pieces := map (normalize len) (p0 ++ pd)) in *.
  set (table := evaluations_of agents pieces []) in *.
  set (g0 := create_matching_graph agents (map (normalize len) p0) table) in *.
  set (gd := create_matching_graph agents (map (normalize len) pd) table) in *.
  destruct (calculate_weight gd _) as [e | wd]; [ discriminate | ].
  destruct (calculate_weight g0 _) as [e | w0]; [ discriminate | ].
  cbn [rbind] in Hres.
  assert (Hg : forall g, g = g0 \/ g = gd ->
             In g (matching_graphs
                     (EvPartition size 0 :: EvPartition size (tiling_offset size)
                        :: evaluation_events agents pieces ++ [EvMatch g0; EvMatch gd]))).
  { intros g Hg. apply matching_graphs_In. right. right.
    apply in_or_app. right. simpl. destruct Hg as [-> | ->]; auto. }
  destruct (Qltb w0 wd).
  - exists pieces, (map (normalize len) pd). cbv zeta. fold table gd. auto.
  - exists pieces, (map (normalize len) p0). cbv zeta. fold table g0. auto.
Qed.
End EquallySizedResults.

(** A graph built from an evaluation table joins agents of the input to
    pieces only. *)
Lemma table_graph_edges {Agent C : Type} `{EqDec Agent} `{EqDec C}
    `{Valuation Agent C} (agents : list Agent) (right pieces : list (Piece C)) :
  let g := create_matching_graph agents right (evaluations_of agents pieces []) in
  agent_to_piece g
  /\ forall a p w, get_edge_data g (inl a) (inr p) = Some w -> In a agents.
Proof.
  cbv zeta. split.
  - intros u v w Hget. apply get_edge_data_weights in Hget.
    destruct Hget as (a & p & -> & -> & _). eauto.
  - intros a p w Hget. apply get_edge_data_weights in Hget.
    destruct Hget as (a' & p' & Ha & Hp & Hin).
    injection Ha as <-. injection Hp as <-.
    apply evaluations_of_In in Hin. destruct Hin as [(_ & Hin & _) | []]. exact Hin.
Qed.


(** ** Algorithm 1: the tilings in agent coordinates *)

Lemma py_int_floor (x : Q) : (0 <= x)%Q -> py_int x = Qfloor x.
Proof.
  intros Hx. destruct x as [n d]. unfold py_int, Qfloor. cbn [Qnum Qden].
  apply Z.quot_div_nonneg; [ | reflexivity ].
  unfold Qle in Hx. simpl in Hx. lia.
Qed.

Lemma py_int_le (x y : Q) : (0 <= x)%Q -> (x <= y)%Q -> (py_int x <= py_int y)%Z.
Proof.
  intros Hx Hxy. rewrite !py_int_floor by lra. apply Qfloor_resp_le. exact Hxy.
Qed.

Lemma py_int_lt (x y : Q) : (0 <= x)%Q -> (x + 1 <= y)%Q -> (py_int x < py_int y)%Z.
Proof.
  intros Hx Hxy. rewrite !py_int_floor by lra.
  assert (Hstep : (Qfloor x + 1 <= Qfloor y)%Z).
  { rewrite <- (Qfloor_Z (Qfloor x + 1)). apply Qfloor_resp_le.
    rewrite inject_Z_plus. pose proof (Qfloor_le x) as Hfl.
    change (inject_Z 1) with 1%Q. lra. }
  lia.
Qed.

Lemma consecutive_pieces_In (size : Q) (n : nat) :
  (0 <= size)%Q ->
  forall start s e,
    In (s, e) (consecutive_pieces size start n) ->
    (start <= s)%Q /\ e = (s + size)%Q.
Proof.
  intros Hsize. induction n as [| n IH]; intros start s e Hin; [ destruct Hin | ].
  destruct Hin as [Heq | Hin].
  - injection Heq as <- <-. split; [ apply Qle_refl | reflexivity ].
  - apply IH in Hin. destruct Hin as [Hle ->]. split; [ lra | reflexivity ].
Qed.

Lemma tiling_offset_nonneg (size : Q) : (0 < size)%Q -> (0 <= tiling_offset size)%Q.
Proof.
  intros Hpos. unfold tiling_offset.
  assert (Hinv : (0 <= 1 / size)%Q).
  { apply Qlt_le_weak. unfold Qdiv. rewrite Qmult_1_l. apply Qinv_lt_0_compat. exact Hpos. }
  rewrite (py_int_floor _ Hinv).
  pose proof (Qfloor_le (1 / size)) as Hfl.
  assert (Hmul : (inject_Z (Qfloor (1 / size)) * size <= (1 / size) * size)%Q).
  { apply Qmult_le_compat_r; lra. }
  assert (Hone : ((1 / size) * size == 1)%Q) by (field; lra).
  lra.
Qed.

Section TilingFacts.
Context {Agent : Type} `{EqDec Agent}.
Context `{Valuation Agent Z} `{Cake Agent} `{Solver Agent Z}.

Lemma matching_graphs_evaluation_events (agents : list Agent)
    (pieces : list (Piece Z)) (rest : list (Event Agent Z)) :
  matching_graphs (evaluation_events agents pieces ++ rest) = matching_graphs rest.
Proof.
  unfold matching_graphs. rewrite flat_map_app.
  assert (Hnil : flat_map (fun ev : Event Agent Z =>
                             match ev with EvMatch g => [g] | _ => [] end)
                          (evaluation_events agents pieces) = []).
  { unfold evaluation_events.
    induction pieces as [| p pieces IH]; simpl; [ reflexivity | ].
    rewrite flat_map_app, IH, app_nil_r.
    clear IH. induction agents as [| a agents IHa]; simpl; auto. }
  rewrite Hnil. reflexivity.
Qed.

Lemma evaluated_pieces_evaluation_events (agents : list Agent)
    (pieces : list (Piece Z)) (rest : list (Event Agent Z)) :
  evaluated_pieces (evaluation_events agents pieces ++ rest)
  = flat_map (fun p => map (fun _ => p) agents) pieces ++ evaluated_pieces rest.
Proof.
  unfold evaluated_pieces. rewrite flat_map_app. f_equal.
  unfold evaluation_events.
  induction pieces as [| p pieces IH]; simpl; [ reflexivity | ].
  rewrite flat_map_app, IH. f_equal.
  clear IH. induction agents as [| a agents IHa]; simpl; [ reflexivity | ].
  rewrite IHa. reflexivity.
Qed.

(** The two graphs of a run have the same edges: every agent is joined
    to every piece of both tilings in each of them. *)
Lemma equally_sized_pieces_graphs (agents : list Agent) (size : Q) :
  agents <> [] -> (0 < size <= 1)%Q ->
  exists p0 pd len g0 gd,
    create_partition size 0 = inr p0
    /\ create_partition size (tiling_offset size) = inr pd
    /\ py_max (map cake_length agents) = inr len
    /\ g0 = create_matching_graph agents (map (normalize len) p0)
              (evaluations_of agents (map (normalize len) (p0 ++ pd)) [])
    /\ gd = create_matching_graph agents (map (normalize len) pd)
              (evaluations_of agents (map (normalize len) (p0 ++ pd)) [])
    /\ matching_graphs (log_of (equally_sized_pieces agents size)) = [g0; gd]
    /\ evaluated_pieces (log_of (equally_sized_pieces agents size))
       = flat_map (fun p => map (fun _ => p) agents) (map (normalize len) (p0 ++ pd))
    /\ g_edges g0 = g_edges gd
    /\ forall a p,
         In a agents -> In p (map (normalize len) (p0 ++ pd)) ->
         get_edge_data g0 (inl a) (inr p) = Some (eval a (fst p) (snd p))
         /\ get_edge_data gd (inl a) (inr p) = Some (eval a (fst p) (snd p)).
Proof.
  intros Hne Hv.
  destruct (equally_sized_pieces_run agents size Hne Hv)
    as (p0 & pd & len & Hp0 & Hpd & Hlen & Hrun).
  cbv zeta in Hrun.
  set (pieces := map (normalize len) (p0 ++ pd)) in *.
  set (table := evaluations_of agents pieces []) in *.
  exists p0, pd, len,
    (create_matching_graph agents (map (normalize len) p0) table),
    (create_matching_graph agents (map (normalize len) pd) table).
  rewrite Hrun. cbn [log_of fst].
  split; [ exact Hp0 | ]. split; [ exact Hpd | ]. split; [ exact Hlen | ].
  split; [ reflexivity | ]. split; [ reflexivity | ]. split.
  { change (matching_graphs (?a :: ?b :: ?l)) with (matching_graphs l).
    rewrite matching_graphs_evaluation_events. reflexivity. }
  split.
  { change (evaluated_pieces (?a :: ?b :: ?l)) with (evaluated_pieces l).
    rewrite evaluated_pieces_evaluation_events. simpl. apply app_nil_r. }
  split; [ rewrite !create_matching_graph_edges; reflexivity | ].
  assert (Hedge : forall right a p,
             In a agents -> In p pieces ->
             get_edge_data (create_matching_graph agents right table) (inl a) (inr p)
             = Some (eval a (fst p) (snd p))).
  { intros right a p Ha Hp.
    destruct (get_edge_data_key agents right table a p) as [w Hw].
    { apply evaluations_of_keys. auto. }
    rewrite Hw. f_equal.
    apply get_edge_data_weights in Hw. destruct Hw as (a' & p' & Ha' & Hp' & Hin).
    injection Ha' as <-. injection Hp' as <-.
    apply evaluations_of_In in Hin. destruct Hin as [(Hw & _) | []]. exact Hw. }
  intros a p Ha Hp. split; apply Hedge; assumption.
Qed.

(** A tiling piece in agent coordinates never ends before it starts, and
    is not empty when a piece is at least one unit of the agents' cake
    long. *)
Lemma normalize_ordered (size start len : Q) (n : nat) (p : Piece Q) :
  (0 < size)%Q -> (0 <= start)%Q -> (0 <= len)%Q ->
  In p (consecutive_pieces size start n) ->
  (fst (normalize len p) <= snd (normalize len p))%Z
  /\ ((1 <= size * len)%Q -> (fst (normalize len p) < snd (normalize len p))%Z).
Proof.
  intros Hsize Hstart Hlen Hin. destruct p as [s e].
  apply consecutive_pieces_In in Hin; [ | lra ]. destruct Hin as [Hs ->].
  unfold normalize. cbn [fst snd].
  assert (Hsl : (0 <= s * len)%Q) by (apply Qmult_le_0_compat; lra).
  assert (Hmul : ((s + size) * len == s * len + size * len)%Q) by ring.
  assert (Hpl : (0 <= size * len)%Q) by (apply Qmult_le_0_compat; lra).
  split.
  - apply py_int_le; [ exact Hsl | lra ].
  - intros Hone. apply py_int_lt; [ exact Hsl | lra ].
Qed.
End TilingFacts.


(** ** Algorithm 3: probing, boundaries and the remaining agents *)

Section ContinuousFacts.
Context {Agent C : Type} `{EqDec Agent} `{EqDec C}.
Context `{Valuation Agent C} `{Cake Agent} `{Marking Agent C} `{Solver Agent C}.

Lemma random_choices_map (draws : nat -> nat) (a0 : Agent) (agents : list Agent)
    (k : nat) :
  random_choices draws (a0 :: agents) k
  = map (fun j => nth (draws j mod length (a0 :: agents)) (a0 :: agents) a0) (seq 0 k).
Proof.
  unfold random_choices. generalize (seq 0 k). intros js.
  induction js as [| j js IH]; [ reflexivity | ].
  cbn [flat_map map]. rewrite IH.
  assert (Hlt : draws j mod length (a0 :: agents) < length (a0 :: agents)).
  { apply Nat.mod_upper_bound. discriminate. }
  rewrite (nth_error_nth' _ a0 Hlt). reflexivity.
Qed.

Lemma random_choices_draws (draws : nat -> nat) (agents : list Agent) (k : nat) :
  agents <> [] ->
  length (random_choices draws agents k) = k
  /\ forall j, j < k ->
       nth_error (random_choices draws agents k) j
       = nth_error agents (draws j mod length agents).
Proof.
  intros Hne. destruct agents as [| a0 agents]; [ contradiction | ].
  rewrite random_choices_map. split.
  - rewrite length_map, length_seq. reflexivity.
  - intros j Hj. rewrite nth_error_map, nth_error_seq.
    destruct (Nat.ltb_spec j k); [ | lia ]. cbn [option_map Nat.add].
    symmetry. apply nth_error_nth'. apply Nat.mod_upper_bound. discriminate.
Qed.

Lemma mark_loop_result (a : Agent) (n count : nat) :
  forall start partitions,
    result_of (mark_loop a n count start partitions)
    = inr (fold_left (fun s x => set_add x s) (probe_points a n count start) partitions).
Proof.
  induction count as [| count IH]; intros start partitions; [ reflexivity | ].
  cbn [mark_loop probe_points]. rewrite result_bind.
  unfold call_mark at 1. cbn [result_of bind tell ret fst snd rbind].
  destruct (mark a start (cake_value a / inject_Z (Z.of_nat (2 * n)))) as [e |];
    [ | reflexivity ].
  rewrite IH. reflexivity.
Qed.

Lemma probing_result (n : nat) (s : list Agent) :
  forall partitions,
    result_of (for_each s partitions (fun partitions a =>
                 mark_loop a n (2 * n) coord_zero partitions))
    = inr (fold_left (fun s x => set_add x s)
             (flat_map (fun a => probe_points a n (2 * n) coord_zero) s) partitions).
Proof.
  induction s as [| a s IH]; intros partitions; [ reflexivity | ].
  cbn [for_each flat_map]. rewrite result_bind, mark_loop_result. cbn [rbind].
  rewrite IH, fold_left_app. reflexivity.
Qed.

Lemma insert_sorted_In (x y : C) (l : list C) :
  In y (insert_sorted x l) <-> y = x \/ In y l.
Proof.
  induction l as [| z l IH]; simpl; [ intuition | ].
  destruct (coord_leb x z); simpl; rewrite ?IH; intuition.
Qed.

Lemma sorted_In (y : C) (l : list C) : In y (sorted l) <-> In y l.
Proof.
  unfold sorted. induction l as [| x l IH]; simpl; [ tauto | ].
  rewrite insert_sorted_In, IH. intuition.
Qed.

Lemma insert_sorted_NoDup (x : C) (l : list C) :
  ~ In x l -> NoDup l -> NoDup (insert_sorted x l).
Proof.
  induction l as [| z l IH]; intros Hx Hl; simpl.
  - constructor; [ intros [] | constructor ].
  - destruct (coord_leb x z).
    + constructor; assumption.
    + inversion Hl as [| ? ? Hz Hl']; subst. constructor.
      * rewrite insert_sorted_In. simpl in Hx. intuition.
      * apply IH; [ simpl in Hx; tauto | exact Hl' ].
Qed.

Lemma sorted_NoDup (l : list C) : NoDup l -> NoDup (sorted l).
Proof.
  unfold sorted. induction l as [| x l IH]; intros Hl; simpl; [ constructor | ].
  inversion Hl as [| ? ? Hx Hl']; subst.
  apply insert_sorted_NoDup; [ | auto ].
  fold (sorted l). rewrite sorted_In. exact Hx.
Qed.

Lemma insert_sorted_Sorted (x : C) (l : list C) :
  (forall u v, coord_leb u v = true \/ coord_leb v u = true) ->
  Sorted (fun u v => coord_leb u v = true) l ->
  Sorted (fun u v => coord_leb u v = true) (insert_sorted x l).
Proof.
  intros Htotal. induction l as [| z l IH]; intros Hl; simpl.
  - constructor; constructor.
  - destruct (coord_leb x z) eqn:Hxz.
    + constructor; [ exact Hl | constructor; exact Hxz ].
    + inversion Hl as [| ? ? Hl' Hhd]; subst.
      constructor; [ apply IH; exact Hl' | ].
      assert (Hzx : coord_leb z x = true).
      { destruct (Htotal x z) as [Hc | Hc]; congruence. }
      destruct l as [| z' l]; simpl.
      * constructor. exact Hzx.
      * destruct (coord_leb x z'); constructor; [ exact Hzx | ].
        inversion Hhd; subst. assumption.
Qed.

Lemma sorted_Sorted (l : list C) :
  (forall u v, coord_leb u v = true \/ coord_leb v u = true) ->
  Sorted (fun u v => coord_leb u v = true) (sorted l).
Proof.
  intros Htotal. unfold sorted.
  induction l as [| x l IH]; simpl; [ constructor | ].
  apply insert_sorted_Sorted; assumption.
Qed.

Lemma set_difference_In (agents s : list Agent) (a : Agent) :
  In a (set_difference agents s) <-> In a agents /\ ~ In a s.
Proof.
  unfold set_difference. rewrite filter_In, to_set_In, negb_true_iff.
  split; intros [Ha Hs]; split; auto.
  - intros Hin. apply (to_set_In s) in Hin. apply inb_true in Hin. congruence.
  - destruct (inb a (to_set s)) eqn:Hb; [ | reflexivity ].
    exfalso. apply Hs. apply (to_set_In s). apply inb_true. exact Hb.
Qed.

Lemma set_difference_NoDup (agents s : list Agent) :
  NoDup (set_difference agents s).
Proof. unfold set_difference. apply NoDup_filter, to_set_NoDup. Qed.

(** The run of [continuous_setting]: the boundaries it collects are those
    of partition J, and its result is that of [discrete_setting] on the
    agents outside the sample and the pieces between the boundaries. *)
Lemma continuous_setting_result (draws : nat -> nat) (agents : list Agent) :
  let n := length agents in
  let s := random_choices draws agents (n / 2) in
  exists b0 bs,
    boundaries_J n s = b0 :: bs
    /\ result_of (continuous_setting draws agents)
       = result_of (discrete_setting (set_difference agents s)
                      (boundaries_to_pieces b0 bs)).
Proof.
  cbv zeta. set (n := length agents). set (s := random_choices draws agents (n / 2)).
  destruct (boundaries_J n s) as [| b0 bs] eqn:HJ.
  { exfalso. assert (Hin : In coord_zero (boundaries_J n s)).
    { unfold boundaries_J. rewrite sorted_In, to_set_In. left. reflexivity. }
    rewrite HJ in Hin. destruct Hin. }
  exists b0, bs. split; [ reflexivity | ].
  unfold continuous_setting. fold n. fold s.
  rewrite result_bind, probing_result. cbn [rbind].
  change (fold_left (fun s0 x => set_add x s0)
            (flat_map (fun a => probe_points a n (2 * n) coord_zero) s)
            (set_add coord_zero []))
    with (to_set (coord_zero :: flat_map (fun a => probe_points a n (2 * n) coord_zero) s)).
  fold (boundaries_J n s). rewrite HJ.
  rewrite result_bind. reflexivity.
Qed.
End ContinuousFacts.


(** ** An upper bound on the weight of matchings *)

Lemma Qsum_app (l1 l2 : list Q) : (Qsum (l1 ++ l2) == Qsum l1 + Qsum l2)%Q.
Proof.
  induction l1 as [| x l1 IH]; simpl; [ ring | rewrite IH; ring ].
Qed.

Lemma Qsum_le {A : Type} (f g : A -> Q) (l : list A) :
  (forall x, In x l -> (f x <= g x)%Q) ->
  (Qsum (map f l) <= Qsum (map g l))%Q.
Proof.
  induction l as [| x l IH]; intros Hfg; simpl; [ apply Qle_refl | ].
  assert (Hx : (f x <= g x)%Q) by (apply Hfg; left; reflexivity).
  assert (Hl : (Qsum (map f l) <= Qsum (map g l))%Q).
  { apply IH. intros y Hy. apply Hfg. right. exact Hy. }
  lra.
Qed.

(** A sum over distinct elements of [U] is at most the sum over [U], for
    non-negative terms. *)
Lemma Qsum_NoDup_incl {A : Type} (f : A -> Q) (l : list A) :
  (forall u, 0 <= f u)%Q ->
  forall U, NoDup l -> incl l U -> (Qsum (map f l) <= Qsum (map f U))%Q.
Proof.
  intros Hpos. induction l as [| x l IH]; intros U Hnd Hincl; simpl.
  - induction U as [| u U IHU]; simpl; [ apply Qle_refl | ].
    assert (Hu := Hpos u).
    assert (HU : (0 <= Qsum (map f U))%Q) by (apply IHU; intros y []).
    lra.
  - inversion Hnd as [| ? ? Hx Hl]; subst.
    destruct (in_split x U) as (U1 & U2 & ->); [ apply Hincl; left; reflexivity | ].
    assert (Hrest : (Qsum (map f l) <= Qsum (map f (U1 ++ U2)))%Q).
    { apply IH; [ exact Hl | ].
      intros y Hy. assert (Hin : In y (U1 ++ x :: U2)) by (apply Hincl; right; exact Hy).
      apply in_app_iff in Hin. apply in_app_iff.
      destruct Hin as [Hin | [Heq | Hin]]; [ auto | | auto ].
      subst y. contradiction. }
    rewrite map_app, Qsum_app in *. simpl. lra.
Qed.

(** In a graph whose edges start at the nodes [U], a matching weighs at
    most the sum over [U] of a bound on the edges of each node. *)
Lemma matching_weight_bound {Agent C : Type} `{EqDec Agent} `{EqDec C}
    (g : Graph Agent C) (best : Node Agent C -> Q) (U : list (Node Agent C))
    (m : list (Node Agent C * Node Agent C)) (w : Q) :
  is_matching g m ->
  calculate_weight g (fix_edges m) = inr w ->
  (forall u, 0 <= best u)%Q ->
  (forall u v x, In ((u, v), x) (g_edges g) -> In u U /\ (x <= best u)%Q) ->
  (w <= Qsum (map best U))%Q.
Proof.
  intros Hm Hw Hpos Hedges.
  destruct (fix_edges_matching g m Hm) as (_ & Hfst & _).
  set (val := fun u v : Node Agent C =>
                match get_edge_data g u v with Some x => x | None => 0%Q end).
  unfold calculate_weight in Hw.
  destruct (calculate_weight_fold g val (fix_edges m)) with (acc := 0%Q) (w := w)
    as [Hsum Hall]; [ | exact Hw | ].
  { intros u v x Hx. unfold val. rewrite Hx. reflexivity. }
  assert (Hle : (Qsum (map (fun e => val (fst e) (snd e)) (fix_edges m))
                 <= Qsum (map (fun e => best (fst e)) (fix_edges m)))%Q).
  { apply Qsum_le. intros e He. specialize (Hall e He).
    apply dict_get_In in Hall. destruct e as [u v]. cbn [fst snd] in *.
    apply Hedges in Hall. tauto. }
  assert (Hmap : map (fun e : Node Agent C * Node Agent C => best (fst e)) (fix_edges m)
                 = map best (map fst (fix_edges m))) by (rewrite map_map; reflexivity).
  assert (HU : (Qsum (map best (map fst (fix_edges m))) <= Qsum (map best U))%Q).
  { apply Qsum_NoDup_incl; [ exact Hpos | exact Hfst | ].
    intros u Hu. apply in_map_iff in Hu. destruct Hu as ([u' v] & <- & He).
    specialize (Hall _ He). apply dict_get_In in Hall. cbn [fst snd] in *.
    apply Hedges in Hall. tauto. }
  rewrite Hmap in Hle. lra.
Qed.

(* ================================================================== *)
(** * The claims *)

(** C2. Whenever [discrete_setting] returns an allocation (and the solver
    returned matchings on the graphs it was given), the allocation is the
    one of the matching of some level [t0 <= floor(log2 m)]; its welfare is
    the weight of that matching, which is at least the weight of the
    matching of every level [0 .. floor(log2 m)], and strictly larger than
    the weight of every earlier level: among the levels of maximal weight
    the smallest is returned. *)
Theorem discrete_setting_returns_best_level {Agent C : Type}
    `{EqDec Agent} `{EqDec C} `{Valuation Agent C} `{Solver Agent C}
    (agents : list Agent) (pieces : list (Piece C)) (al : Allocation Agent C) :
  result_of (discrete_setting agents pieces) = inr al ->
  (forall g, In g (matching_graphs (log_of (discrete_setting agents pieces))) ->
             is_matching g (max_weight_matching g)) ->
  exists t0 m0 w0,
    t0 <= Nat.log2 (length pieces)
    /\ level_matching agents pieces t0 = inr m0
    /\ level_weight agents pieces t0 = inr w0
    /\ al = allocation_of_matching m0
    /\ (allocation_weight al == w0)%Q
    /\ (forall t, t <= Nat.log2 (length pieces) ->
          exists w, level_weight agents pieces t = inr w /\ (w <= w0)%Q)
    /\ (forall t, t < t0 ->
          exists w, level_weight agents pieces t = inr w /\ (w < w0)%Q).
Proof.
  intros Hres Hcontract.
  destruct (discrete_setting_inv agents pieces al Hres)
    as (t0 & m0 & w0 & Ht0 & Hl0 & Hpos & Hal & Hall & Hfirst).
  exists t0, m0, w0.
  destruct (discrete_level_inv agents pieces t0 m0 w0 Hl0)
    as (part & Hpart & Hm0 & Hw0 & Hlog0).
  assert (Hmatch : is_matching (level_graph agents part)
                     (max_weight_matching (level_graph agents part))).
  { apply Hcontract, matching_graphs_In.
    destruct (Hall t0 Ht0) as (m & w & _ & _ & Hincl).
    apply Hincl. rewrite Hlog0. right. apply in_or_app. right. simpl. auto. }
  destruct (fix_edges_matching _ _ Hmatch) as (_ & Hfst & _).
  rewrite <- Hm0 in Hfst.
  rewrite (build_allocation_matching _ Hfst) in Hal. injection Hal as <-.
  unfold level_matching, level_weight.
  split; [ exact Ht0 | ]. split; [ rewrite Hl0; reflexivity | ].
  split; [ rewrite Hl0; reflexivity | ]. split; [ reflexivity | ]. split.
  - rewrite allocation_weight_matching.
    destruct (discrete_level_weight agents pieces t0 m0 w0 Hl0) as (_ & _ & Hsum & _).
    symmetry. exact Hsum.
  - split.
    + intros t Ht. destruct (Hall t Ht) as (m & w & Hl & Hw & _).
      exists w. rewrite Hl. auto.
    + intros t Ht. destruct (Hall t) as (m & w & Hl & _); [ lia | ].
      exists w. rewrite Hl. split; [ reflexivity | ].
      exact (Hfirst t m w Ht Hl).
Qed.

Lemma discrete_setting_returns_best_level_witness :
  exists al,
    result_of (discrete_setting [Alice; Bob] [(0, 1); (1, 2)]%Z) = inr al
    /\ exists t0 m0 w0,
         t0 <= Nat.log2 2
         /\ level_matching [Alice; Bob] [(0, 1); (1, 2)]%Z t0 = inr m0
         /\ level_weight [Alice; Bob] [(0, 1); (1, 2)]%Z t0 = inr w0
         /\ al = allocation_of_matching m0
         /\ (allocation_weight al == w0)%Q
         /\ (forall t, t <= Nat.log2 2 ->
               exists w, level_weight [Alice; Bob] [(0, 1); (1, 2)]%Z t = inr w
                         /\ (w <= w0)%Q)
         /\ (forall t, t < t0 ->
               exists w, level_weight [Alice; Bob] [(0, 1); (1, 2)]%Z t = inr w
                         /\ (w < w0)%Q).
Proof.
  eexists. split; [ vm_compute; reflexivity | ].
  apply (discrete_setting_returns_best_level [Alice; Bob] [(0, 1); (1, 2)]%Z).
  - vm_compute. reflexivity.
  - intros g Hg. vm_compute in Hg.
    destruct Hg as [<- | [<- | []]]; apply is_matchingb_sound; vm_compute; reflexivity.
Defined.

(** C3. Whenever [equally_sized_pieces] or [discrete_setting] returns an
    allocation (and the solver returned matchings on the graphs it was
    given), the allocation is that of the normalised matching of one of
    those graphs: its chosen agents are pairwise distinct agents of the
    input, each holds exactly the one piece it is matched to, no piece is
    assigned twice, and an agent that is not in the matching is not in the
    allocation. *)
Theorem allocations_give_one_piece_each :
  (forall (Agent : Type) (HA : EqDec Agent) (HV : Valuation Agent Z)
          (HC : Cake Agent) (HS : Solver Agent Z)
          (agents : list Agent) (size : Q) (al : Allocation Agent Z),
      result_of (equally_sized_pieces agents size) = inr al ->
      (forall g, In g (matching_graphs (log_of (equally_sized_pieces agents size))) ->
                 is_matching g (max_weight_matching g)) ->
      exists g,
        In g (matching_graphs (log_of (equally_sized_pieces agents size)))
        /\ one_piece_each agents (fix_edges (max_weight_matching g)) al)
  /\ (forall (Agent C : Type) (HA : EqDec Agent) (HE : EqDec C)
             (HV : Valuation Agent C) (HS : Solver Agent C)
             (agents : list Agent) (pieces : list (Piece C)) (al : Allocation Agent C),
         result_of (discrete_setting agents pieces) = inr al ->
         (forall g, In g (matching_graphs (log_of (discrete_setting agents pieces))) ->
                    is_matching g (max_weight_matching g)) ->
         exists g,
           In g (matching_graphs (log_of (discrete_setting agents pieces)))
           /\ one_piece_each agents (fix_edges (max_weight_matching g)) al).
Proof.
  split.
  - intros Agent HA HV HC HS agents size al Hres Hcontract.
    destruct (equally_sized_pieces_inv agents size al Hres)
      as (pieces & right & Hin & Hal).
    cbv zeta in *.
    set (g := create_matching_graph agents right (evaluations_of agents pieces [])) in *.
    exists g. split; [ exact Hin | ].
    destruct (table_graph_edges agents right pieces) as [Hg Hag].
    apply (build_allocation_one_piece_each agents g); auto.
  - intros Agent C HA HE HV HS agents pieces al Hres Hcontract.
    destruct (discrete_setting_inv agents pieces al Hres)
      as (t0 & m0 & w0 & Ht0 & Hl0 & _ & Hal & Hall & _).
    destruct (discrete_level_inv agents pieces t0 m0 w0 Hl0)
      as (part & _ & Hm0 & _ & Hlog0).
    exists (level_graph agents part).
    assert (Hin : In (level_graph agents part)
                     (matching_graphs (log_of (discrete_setting agents pieces)))).
    { apply matching_graphs_In.
      destruct (Hall t0 Ht0) as (m & w & _ & _ & Hincl).
      apply Hincl. rewrite Hlog0. right. apply in_or_app. right. simpl. auto. }
    split; [ exact Hin | ]. subst m0.
    destruct (table_graph_edges agents part part) as [Hg Hag].
    apply (build_allocation_one_piece_each agents (level_graph agents part)); auto.
Qed.

Lemma allocations_give_one_piece_each_witness :
  (exists al g,
      result_of (equally_sized_pieces [Alice; Bob] (1 # 2)) = inr al
      /\ In g (matching_graphs (log_of (equally_sized_pieces [Alice; Bob] (1 # 2))))
      /\ one_piece_each [Alice; Bob] (fix_edges (max_weight_matching g)) al)
  /\ (exists al g,
         result_of (discrete_setting [Alice; Bob] [(0, 1); (1, 2)]%Z) = inr al
         /\ In g (matching_graphs
                    (log_of (discrete_setting [Alice; Bob] [(0, 1); (1, 2)]%Z)))
         /\ one_piece_each [Alice; Bob] (fix_edges (max_weight_matching g)) al).
Proof.
  destruct allocations_give_one_piece_each as [Hesp Hdisc]. split.
  - destruct (Hesp PCAgent _ _ _ _ [Alice; Bob] (1 # 2)
                {| alloc_agents := [inl Alice; inl Bob];
                   alloc_pieces := [Some [inr (0, 1)%Z]; Some [inr (1, 2)%Z]] |})
      as (g & Hg & Hone).
    + vm_compute. reflexivity.
    + intros g Hg. vm_compute in Hg.
      destruct Hg as [<- | [<- | []]]; apply is_matchingb_sound; vm_compute; reflexivity.
    + eexists. exists g. split; [ vm_compute; reflexivity | ]. split; assumption.
  - destruct (Hdisc PCAgent Z _ _ _ _ [Alice; Bob] [(0, 1); (1, 2)]%Z
                {| alloc_agents := [inl Alice; inl Bob];
                   alloc_pieces := [Some [inr (0, 1)%Z]; Some [inr (1, 2)%Z]] |})
      as (g & Hg & Hone).
    + vm_compute. reflexivity.
    + intros g Hg. vm_compute in Hg.
      destruct Hg as [<- | [<- | []]]; apply is_matchingb_sound; vm_compute; reflexivity.
    + eexists. exists g. split; [ vm_compute; reflexivity | ]. split; assumption.
Defined.

(** C4. For every partition of length [m] and every natural [t],
    [change_partition] returns (it does not raise) exactly [m / 2^t]
    pieces; output piece [i] runs from the start of input piece [i * 2^t]
    to the end of input piece [(i+1) * 2^t - 1], so it spans [2^t] input
    pieces; the runs cover the first [(m / 2^t) * 2^t] input pieces, and the
    [m mod 2^t] pieces after them are left out. *)
Theorem change_partition_spec {C : Type} (partition : list (Piece C)) (t : nat) :
  exists out,
    change_partition partition t = inr out
    /\ length out = length partition / 2 ^ t
    /\ (forall i, i < length out ->
          exists ps pe,
            nth_error partition (i * 2 ^ t) = Some ps
            /\ nth_error partition ((i + 1) * 2 ^ t - 1) = Some pe
            /\ nth_error out i = Some (fst ps, snd pe))
    /\ length out * 2 ^ t <= length partition
    /\ length partition - length out * 2 ^ t = length partition mod 2 ^ t.
Proof.
  set (m := length partition).
  assert (Hpos : 2 ^ t <> 0) by (apply Nat.pow_nonzero; discriminate).
  assert (Hdm : m = 2 ^ t * (m / 2 ^ t) + m mod 2 ^ t) by (apply Nat.div_mod_eq).
  unfold change_partition. fold m.
  match goal with
  | |- context [rmap ?f ?l] =>
      destruct (@rmap_ok Z (Piece C) f l) as (out & Hout & Hlen & Hnth)
  end.
  { intros x Hx. unfold py_range in Hx. rewrite range_len_runs in Hx.
    apply in_map_iff in Hx. destruct Hx as (i & <- & Hi). apply in_seq in Hi.
    destruct (change_partition_run_ok partition t i) as (ps & pe & _ & _ & Hrun);
      [ fold m; lia | ].
    exists (fst ps, snd pe). exact Hrun. }
  unfold py_range in Hlen. rewrite length_map, length_seq, range_len_runs in Hlen.
  exists out. split; [ exact Hout | ]. split; [ exact Hlen | ].
  split; [ | rewrite Hlen; split; nia ].
  intros i Hi. rewrite Hlen in Hi.
  destruct (change_partition_run_ok partition t i Hi) as (ps & pe & Hps & Hpe & Hrun).
  exists ps, pe. split; [ exact Hps | ]. split; [ exact Hpe | ].
  destruct (Hnth i (0 + Z.of_nat i * 2 ^ Z.of_nat t)%Z) as (y & Hy & Hf).
  { unfold py_range. rewrite range_len_runs.
    rewrite nth_error_map, nth_error_seq.
    destruct (Nat.ltb_spec i (m / 2 ^ t)); [ reflexivity | lia ]. }
  rewrite Hy. f_equal. cbv beta in Hf. rewrite Hrun in Hf. congruence.
Qed.

(** *** [create_partition] on binary64 numbers *)

Lemma nth_error_lt {A : Type} (l : list A) (i : nat) (x : A) :
  nth_error l i = Some x -> i < length l.
Proof. intros Hnth. apply nth_error_Some. rewrite Hnth. discriminate. Qed.

Section PartitionRounding.
Import PrimFloat.
Local Abbreviation rounded_start := Binary64.rounded_start.
Local Abbreviation rounded_end := Binary64.rounded_end.
Local Abbreviation rounded_pieces := Binary64.rounded_pieces.

Lemma rounded_pieces_S (size start : float) (n : nat) :
  rounded_pieces size start (S n)
  = rounded_pieces size start n
      ++ [(rounded_start size start n, rounded_end size start n)].
Proof.
  unfold Binary64.rounded_pieces. rewrite seq_S, map_app. reflexivity.
Qed.

Lemma rounded_pieces_length (size start : float) (n : nat) :
  length (rounded_pieces size start n) = n.
Proof. unfold Binary64.rounded_pieces. rewrite length_map, length_seq. reflexivity. Qed.

Lemma rounded_pieces_nth (size start : float) (n i : nat) :
  i < n ->
  nth_error (rounded_pieces size start n) i
  = Some (rounded_start size start i, rounded_end size start i).
Proof.
  intros Hi. unfold Binary64.rounded_pieces.
  rewrite nth_error_map, nth_error_seq.
  destruct (Nat.ltb_spec i n); [ reflexivity | lia ].
Qed.

Lemma rounded_end_start (size start : float) (i : nat) :
  rounded_end size start i = (rounded_start size start i + size)%float.
Proof. destruct i; reflexivity. Qed.

(** The loop, entered at piece [j] with the pieces before it collected,
    runs through the pieces up to the first end that is not [<= 1]. *)
Lemma create_partition_loop_rounded (size start : float) (n : nat) :
  (forall i, i < n -> (rounded_end size start i <=? 1)%float = true) ->
  (rounded_end size start n <=? 1)%float = false ->
  forall m j fuel,
    j + m = n -> m <= fuel ->
    Binary64.create_partition_loop fuel size
      (rounded_start size start j) (rounded_end size start j)
      (rounded_pieces size start j)
    = Some (rounded_pieces size start n).
Proof.
  intros Hin Hout. induction m as [| m IH]; intros j fuel Hj Hfuel.
  - assert (j = n) by lia. subst j.
    destruct fuel; cbn [Binary64.create_partition_loop]; rewrite Hout; reflexivity.
  - destruct fuel as [| fuel]; [ lia | ].
    cbn [Binary64.create_partition_loop]. rewrite (Hin j) by lia.
    cbv zeta. rewrite <- rounded_pieces_S.
    apply (IH (S j) fuel); lia.
Qed.

(** The same run with the list as an object: the new list, last in the
    heap, grows to the same pieces and no other list changes. *)
Lemma create_partition_heap_loop_rounded (size start : float) (n : nat) :
  (forall i, i < n -> (rounded_end size start i <=? 1)%float = true) ->
  (rounded_end size start n <=? 1)%float = false ->
  forall m j fuel h,
    j + m = n -> m <= fuel ->
    Binary64.create_partition_heap_loop fuel size
      (rounded_start size start j) (rounded_end size start j)
      (h ++ [rounded_pieces size start j]) (length h)
    = Some (h ++ [rounded_pieces size start n]).
Proof.
  intros Hin Hout. induction m as [| m IH]; intros j fuel h Hj Hfuel.
  - assert (j = n) by lia. subst j.
    destruct fuel; cbn [Binary64.create_partition_heap_loop]; rewrite Hout; reflexivity.
  - destruct fuel as [| fuel]; [ lia | ].
    cbn [Binary64.create_partition_heap_loop]. rewrite (Hin j) by lia.
    cbv zeta. unfold Binary64.heap_append.
    rewrite nth_error_app2, Nat.sub_diag by lia. cbn [nth_error].
    rewrite list_update_app, <- rounded_pieces_S.
    apply (IH (S j) fuel h); lia.
Qed.

(** With fewer iterations than pieces the loop is still running. *)
Lemma create_partition_loop_short (size start : float) (n : nat) :
  (forall i, i < n -> (rounded_end size start i <=? 1)%float = true) ->
  forall fuel j acc,
    j + fuel < n ->
    Binary64.create_partition_loop fuel size
      (rounded_start size start j) (rounded_end size start j) acc
    = None.
Proof.
  intros Hin. induction fuel as [| fuel IH]; intros j acc Hj;
    cbn [Binary64.create_partition_loop]; rewrite (Hin j) by lia; [ reflexivity | ].
  cbv zeta. apply (IH (S j)). lia.
Qed.

(** The loop never stops when no end exceeds 1. *)
Lemma create_partition_loop_running (size start : float) :
  (forall i, (rounded_end size start i <=? 1)%float = true) ->
  forall fuel j acc,
    Binary64.create_partition_loop fuel size
      (rounded_start size start j) (rounded_end size start j) acc
    = None.
Proof.
  intros Hin. induction fuel as [| fuel IH]; intros j acc;
    cbn [Binary64.create_partition_loop]; rewrite (Hin j); [ reflexivity | ].
  cbv zeta. apply (IH (S j)).
Qed.

Lemma rounded_pieces_contiguous (size start : float) (n : nat) :
  contiguous (rounded_pieces size start n).
Proof.
  intros i p q Hp Hq.
  assert (Hi : S i < n).
  { apply nth_error_lt in Hq. rewrite rounded_pieces_length in Hq. exact Hq. }
  rewrite rounded_pieces_nth in Hp, Hq by lia.
  injection Hp as <-. injection Hq as <-. reflexivity.
Qed.

(** C5, as stated, fails: for the size 0.1 (the double
    [0x1.999999999999ap-4]) and start 0 the code returns ten pieces, the
    last one ending at 0.9999999999999999.  They are not the pieces
    [(i * size, (i + 1) * size)], whose tenth ends at 1.0 when the
    products are rounded; and in exact arithmetic the tenth multiple of
    this size exceeds 1, so that the tenth piece would not be there. *)
Lemma create_partition_not_multiples :
  let size := 0x1.999999999999ap-4%float in
  (0 <? size)%float = true /\ (size <=? 1)%float = true
  /\ exists l,
       Binary64.create_partition 10 size 0 = inr l
       /\ length l = 10
       /\ nth_error l 9 = Some (0x1.cccccccccccccp-1, 0x1.fffffffffffffp-1)%float
       /\ (forall n, l <> Binary64.multiple_pieces size 0 n)
       /\ (1 < Binary64.to_Q 0 + 10 * Binary64.to_Q size)%Q.
Proof.
  cbv zeta. split; [ reflexivity | ]. split; [ reflexivity | ].
  eexists. split; [ vm_compute; reflexivity | ].
  split; [ reflexivity | ]. split; [ reflexivity | ]. split.
  - intros n Heq.
    assert (Hn : n = 10).
    { apply (f_equal (@length _)) in Heq. unfold Binary64.multiple_pieces in Heq.
      rewrite length_map, length_seq in Heq. cbn in Heq. congruence. }
    subst n. apply (f_equal (fun l => nth_error l 9)) in Heq.
    vm_compute in Heq. discriminate Heq.
  - vm_compute. reflexivity.
Qed.

(** C5 (amended). On floats [create_partition] builds its pieces by
    repeated rounded addition.  When piece number [n] is the first whose
    end, [start] with [size] added [n + 1] times and rounded each time, is
    not [<= 1], the function returns (as soon as [n] iterations are allowed,
    and then whatever their bound) exactly the [n] pieces before it: the
    first starts at [start], each starts where the previous one ends, each
    ends at the rounded sum of its start and [size], at most at 1; the
    fragment after them is dropped.  A call changes no list that exists:
    it returns a new list, and its content is the same for the same
    arguments whatever the heap. *)
Theorem create_partition_rounded (size start : float) (n : nat) :
  (forall i, i < n -> (rounded_end size start i <=? 1)%float = true) ->
  (rounded_end size start n <=? 1)%float = false ->
  exists l,
    (forall fuel, n <= fuel -> Binary64.create_partition fuel size start = inr l)
    /\ (forall fuel, fuel < n ->
          Binary64.create_partition fuel size start = inl NonTermination)
    /\ (forall fuel h, n <= fuel ->
          Binary64.create_partition_call fuel h size start = inr (h ++ [l], length h))
    /\ length l = n
    /\ contiguous l
    /\ (forall p, nth_error l 0 = Some p -> fst p = start)
    /\ (forall i s e, nth_error l i = Some (s, e) ->
          e = (s + size)%float /\ (e <=? 1)%float = true
          /\ s = rounded_start size start i)
    /\ (forall s e, nth_error l (n - 1) = Some (s, e) -> (e + size <=? 1)%float = false)
    /\ (n = 0 -> (start + size <=? 1)%float = false).
Proof.
  intros Hin Hout. exists (rounded_pieces size start n).
  split; [ | split; [ | split; [ | split; [ | split; [ | split; [ | split; [ | split ] ] ] ] ] ] ].
  - intros fuel Hfuel. unfold Binary64.create_partition.
    change (start + size)%float with (rounded_end size start 0).
    change start with (rounded_start size start 0) at 1.
    change (@nil (Piece float)) with (rounded_pieces size start 0).
    rewrite (create_partition_loop_rounded size start n Hin Hout n 0 fuel) by lia.
    reflexivity.
  - intros fuel Hfuel. unfold Binary64.create_partition.
    change (start + size)%float with (rounded_end size start 0).
    change start with (rounded_start size start 0) at 1.
    rewrite (create_partition_loop_short size start n Hin fuel 0) by lia.
    reflexivity.
  - intros fuel h Hfuel. unfold Binary64.create_partition_call. cbv zeta.
    change (start + size)%float with (rounded_end size start 0).
    change start with (rounded_start size start 0) at 1.
    change (@nil (Piece float)) with (rounded_pieces size start 0).
    rewrite (create_partition_heap_loop_rounded size start n Hin Hout n 0 fuel h) by lia.
    reflexivity.
  - apply rounded_pieces_length.
  - apply rounded_pieces_contiguous.
  - intros p Hp. destruct n as [| n]; [ discriminate Hp | ].
    rewrite rounded_pieces_nth in Hp by lia. injection Hp as <-. reflexivity.
  - intros i s e Hnth.
    assert (Hi : i < n).
    { apply nth_error_lt in Hnth. rewrite rounded_pieces_length in Hnth. exact Hnth. }
    rewrite rounded_pieces_nth in Hnth by exact Hi. injection Hnth as <- <-.
    split; [ apply rounded_end_start | ]. split; [ apply Hin; exact Hi | reflexivity ].
  - intros s e Hnth. destruct n as [| n]; [ discriminate Hnth | ].
    replace (S n - 1) with n in Hnth by lia.
    rewrite rounded_pieces_nth in Hnth by lia. injection Hnth as _ <-.
    exact Hout.
  - intros ->. exact Hout.
Qed.
Lemma create_partition_rounded_witness :
  let size := 0x1.999999999999ap-4%float in
  exists l,
    (forall fuel, 10 <= fuel -> Binary64.create_partition fuel size 0 = inr l)
    /\ (forall fuel, fuel < 10 ->
          Binary64.create_partition fuel size 0 = inl NonTermination)
    /\ (forall fuel h, 10 <= fuel ->
          Binary64.create_partition_call fuel h size 0 = inr (h ++ [l], length h))
    /\ length l = 10
    /\ contiguous l
    /\ (forall p, nth_error l 0 = Some p -> fst p = 0%float)
    /\ (forall i s e, nth_error l i = Some (s, e) ->
          e = (s + size)%float /\ (e <=? 1)%float = true
          /\ s = rounded_start size 0 i)
    /\ (forall s e, nth_error l (10 - 1) = Some (s, e) ->
          (e + size <=? 1)%float = false)
    /\ (10 = 0 -> (0 + size <=? 1)%float = false).
Proof.
  apply (create_partition_rounded 0x1.999999999999ap-4%float 0%float 10).
  - intros i Hi.
    do 10 (destruct i as [| i]; [ vm_compute; reflexivity | ]). lia.
  - vm_compute. reflexivity.
Defined.
End PartitionRounding.

(** C6 (what the code does instead). On a non-empty pieces sequence every
    coarsened piece of which every agent values at zero, [discrete_setting]
    does not return an allocation: it raises [TypeError]. *)
Theorem discrete_setting_zero_values_raise {Agent C : Type}
    `{EqDec Agent} `{EqDec C} `{Valuation Agent C} `{Solver Agent C}
    (agents : list Agent) (pieces : list (Piece C)) :
  pieces <> [] ->
  (forall t part a p,
      t <= Nat.log2 (length pieces) ->
      change_partition pieces t = inr part ->
      In a agents -> In p part ->
      (eval a (fst p) (snd p) == 0)%Q) ->
  exists msg, result_of (discrete_setting agents pieces) = inl (TypeError msg).
Proof.
  intros Hne Hzero. apply discrete_setting_no_positive_weight; [ exact Hne | ].
  intros t m w Ht Hlev.
  destruct (discrete_level_weight agents pieces t m w Hlev) as (part & Hpart & Hsum & Hedges).
  rewrite Hsum, Qsum_zero; [ apply Qle_refl | ].
  intros x Hx. apply in_map_iff in Hx. destruct Hx as (e & <- & He).
  destruct (Hedges e He) as (a & p & -> & Ha & Hp).
  cbn [fst snd node_value]. eapply Hzero; eauto.
Qed.

Lemma discrete_setting_zero_values_raise_witness :
  exists msg,
    result_of (discrete_setting [Zero2] [(0, 1); (1, 2)]%Z) = inl (TypeError msg).
Proof.
  apply (discrete_setting_zero_values_raise [Zero2] [(0, 1); (1, 2)]%Z).
  - discriminate.
  - intros t part a p Ht Hpart [<- | []] Hp.
    assert (Hcases : t = 0 \/ t = 1).
    { change (Nat.log2 (length [(0, 1); (1, 2)]%Z)) with 1 in Ht. lia. }
    destruct Hcases as [-> | ->]; vm_compute in Hpart; injection Hpart as <-.
    + destruct Hp as [<- | [<- | []]]; reflexivity.
    + destruct Hp as [<- | []]; reflexivity.
Defined.

(** C7 (what the code does instead). With an empty agent list and a
    non-empty pieces sequence, [discrete_setting] raises no input error
    before it starts: it coarsens, calls the matching solver, and then
    raises [TypeError].  Only an empty pieces sequence stops it before any
    computation, with the [ValueError] of [log]. *)
Theorem discrete_setting_empty_agents_fails_late {Agent C : Type}
    `{EqDec Agent} `{EqDec C} `{Valuation Agent C} `{Solver Agent C}
    (pieces : list (Piece C)) :
  pieces <> [] ->
  (exists msg, result_of (discrete_setting [] pieces) = inl (TypeError msg))
  /\ In (EvCoarsen 0) (log_of (discrete_setting [] pieces))
  /\ matching_graphs (log_of (discrete_setting [] pieces)) <> []
  /\ forall agents : list Agent,
       discrete_setting agents [] = ([], inl (ValueError "math domain error")).
Proof.
  intros Hne. split; [ | split; [ | split ] ].
  - apply discrete_setting_no_positive_weight; [ exact Hne | ].
    intros t m w _ Hlev.
    destruct (discrete_level_weight [] pieces t m w Hlev) as (part & _ & Hsum & Hedges).
    destruct m as [| e m].
    + rewrite Hsum. simpl. apply Qle_refl.
    + destruct (Hedges e (or_introl eq_refl)) as (a & p & _ & [] & _).
  - destruct (discrete_setting_log_level0 [] pieces Hne) as (part & l & _ & ->).
    left. reflexivity.
  - destruct (discrete_setting_log_level0 [] pieces Hne) as (part & l & _ & Hlog).
    intros Hnil.
    assert (Hin : In (level_graph [] part)
                     (matching_graphs (log_of (discrete_setting [] pieces)))).
    { apply matching_graphs_In. rewrite Hlog. apply in_or_app. left.
      right. apply in_or_app. right. simpl. auto. }
    rewrite Hnil in Hin. destruct Hin.
  - intros agents. reflexivity.
Qed.

Lemma discrete_setting_empty_agents_fails_late_witness :
  (exists msg,
      result_of (discrete_setting ([] : list PCAgent) [(0, 1); (1, 2)]%Z)
      = inl (TypeError msg))
  /\ In (EvCoarsen 0) (log_of (discrete_setting ([] : list PCAgent) [(0, 1); (1, 2)]%Z))
  /\ matching_graphs (log_of (discrete_setting ([] : list PCAgent) [(0, 1); (1, 2)]%Z))
     <> []
  /\ forall agents : list PCAgent,
       discrete_setting agents ([] : list (Piece Z))
       = ([], inl (ValueError "math domain error")).
Proof.
  apply (discrete_setting_empty_agents_fails_late (Agent := PCAgent) [(0, 1); (1, 2)]%Z).
  discriminate.
Defined.

(** C8. [equally_sized_pieces] raises [ValueError] exactly when the agent
    list is empty or the piece size is outside (0, 1]; it then has built
    no partition, asked no valuation and called no solver (its log is
    empty).  On a non-empty agent list and a size in (0, 1] it raises no
    [ValueError] and goes on to build the two partitions. *)
Theorem equally_sized_pieces_input_check {Agent : Type} `{EqDec Agent}
    `{Valuation Agent Z} `{Cake Agent} `{Solver Agent Z}
    (agents : list Agent) (size : Q) :
  ((exists msg, result_of (equally_sized_pieces agents size) = inl (ValueError msg))
   <-> (agents = [] \/ ~ (0 < size <= 1)%Q))
  /\ (agents = [] \/ ~ (0 < size <= 1)%Q ->
      log_of (equally_sized_pieces agents size) = [])
  /\ (agents <> [] -> (0 < size <= 1)%Q ->
      (forall msg, result_of (equally_sized_pieces agents size) <> inl (ValueError msg))
      /\ In (EvPartition size 0) (log_of (equally_sized_pieces agents size))
      /\ In (EvPartition size (tiling_offset size))
            (log_of (equally_sized_pieces agents size))).
Proof.
  assert (Hvalid : agents <> [] -> (0 < size <= 1)%Q ->
            (forall msg, result_of (equally_sized_pieces agents size) <> inl (ValueError msg))
            /\ In (EvPartition size 0) (log_of (equally_sized_pieces agents size))
            /\ In (EvPartition size (tiling_offset size))
                  (log_of (equally_sized_pieces agents size))).
  { intros Hne Hv.
    destruct (equally_sized_pieces_run agents size Hne Hv)
      as (p0 & pd & len & _ & _ & _ & Hrun).
    cbv zeta in Hrun. rewrite Hrun. cbn [result_of log_of fst snd].
    split; [ | split; simpl; auto ].
    intros msg Hres.
    match type of Hres with
    | rbind ?c _ = _ => destruct c as [e | wd] eqn:Hwd
    end.
    { apply calculate_weight_inl in Hwd. cbn [rbind] in Hres. congruence. }
    cbn [rbind] in Hres.
    match type of Hres with
    | rbind ?c _ = _ => destruct c as [e | w0] eqn:Hw0
    end.
    { apply calculate_weight_inl in Hw0. cbn [rbind] in Hres. congruence. }
    cbn [rbind] in Hres.
    match type of Hres with
    | build_allocation ?m = _ => destruct (build_allocation_returns m) as [al Hal]
    end.
    congruence. }
  split; [ split | split; [ | exact Hvalid ] ].
  - intros [msg Hres].
    destruct agents as [| a agents]; [ auto | right ].
    intros Hv. destruct (Hvalid ltac:(discriminate) Hv) as [Hno _].
    exact (Hno msg Hres).
  - intros Hbad. destruct (equally_sized_pieces_invalid agents size Hbad) as [msg ->].
    exists msg. reflexivity.
  - intros Hbad. destruct (equally_sized_pieces_invalid agents size Hbad) as [msg ->].
    reflexivity.
Qed.

Lemma equally_sized_pieces_input_check_witness :
  log_of (equally_sized_pieces [Alice; Bob] (3 # 2)) = []
  /\ (forall msg,
         result_of (equally_sized_pieces [Alice; Bob] (1 # 2)) <> inl (ValueError msg)).
Proof.
  split.
  - apply (proj1 (proj2 (equally_sized_pieces_input_check [Alice; Bob] (3 # 2)))).
    right. intros [_ Hle]. revert Hle. vm_compute. intros Hle. apply Hle. reflexivity.
  - apply (proj2 (proj2 (equally_sized_pieces_input_check [Alice; Bob] (1 # 2)))).
    + discriminate.
    + split; [ reflexivity | discriminate ].
Defined.

(** C1 (what the code does instead). In every valid run of
    [equally_sized_pieces] the graph built for tiling P0 and the graph
    built for tiling Pdelta have the same edges: in both of them every
    agent is joined to every piece of both tilings, because both are built
    from the one table of evaluations. *)
Theorem equally_sized_pieces_graphs_share_edges {Agent : Type} `{EqDec Agent}
    `{Valuation Agent Z} `{Cake Agent} `{Solver Agent Z}
    (agents : list Agent) (size : Q) :
  agents <> [] -> (0 < size <= 1)%Q ->
  exists p0 pd len g0 gd,
    create_partition size 0 = inr p0
    /\ create_partition size (tiling_offset size) = inr pd
    /\ py_max (map cake_length agents) = inr len
    /\ g0 = create_matching_graph agents (map (normalize len) p0)
              (evaluations_of agents (map (normalize len) (p0 ++ pd)) [])
    /\ gd = create_matching_graph agents (map (normalize len) pd)
              (evaluations_of agents (map (normalize len) (p0 ++ pd)) [])
    /\ matching_graphs (log_of (equally_sized_pieces agents size)) = [g0; gd]
    /\ g_edges g0 = g_edges gd
    /\ forall a p,
         In a agents -> In p (map (normalize len) (p0 ++ pd)) ->
         get_edge_data g0 (inl a) (inr p) = Some (eval a (fst p) (snd p))
         /\ get_edge_data gd (inl a) (inr p) = Some (eval a (fst p) (snd p)).
Proof.
  intros Hne Hv.
  destruct (equally_sized_pieces_graphs agents size Hne Hv)
    as (p0 & pd & len & g0 & gd & Hp0 & Hpd & Hlen & Hg0 & Hgd & Hgs & _ & Hedges & Hall).
  exists p0, pd, len, g0, gd.
  split; [ exact Hp0 | ]. split; [ exact Hpd | ]. split; [ exact Hlen | ].
  split; [ exact Hg0 | ]. split; [ exact Hgd | ]. split; [ exact Hgs | ].
  split; [ exact Hedges | exact Hall ].
Qed.

Lemma equally_sized_pieces_graphs_share_edges_witness :
  exists p0 pd len g0 gd,
    create_partition (3 # 5) 0 = inr p0
    /\ create_partition (3 # 5) (tiling_offset (3 # 5)) = inr pd
    /\ py_max (map cake_length [Alice5; Bob5]) = inr len
    /\ g0 = create_matching_graph [Alice5; Bob5] (map (normalize len) p0)
              (evaluations_of [Alice5; Bob5] (map (normalize len) (p0 ++ pd)) [])
    /\ gd = create_matching_graph [Alice5; Bob5] (map (normalize len) pd)
              (evaluations_of [Alice5; Bob5] (map (normalize len) (p0 ++ pd)) [])
    /\ matching_graphs (log_of (equally_sized_pieces [Alice5; Bob5] (3 # 5))) = [g0; gd]
    /\ g_edges g0 = g_edges gd
    /\ forall a p,
         In a [Alice5; Bob5] -> In p (map (normalize len) (p0 ++ pd)) ->
         get_edge_data g0 (inl a) (inr p) = Some (eval a (fst p) (snd p))
         /\ get_edge_data gd (inl a) (inr p) = Some (eval a (fst p) (snd p)).
Proof.
  apply (equally_sized_pieces_graphs_share_edges [Alice5; Bob5] (3 # 5)).
  - discriminate.
  - split; [ reflexivity | discriminate ].
Defined.

(** The second example of the docstring, with an exhaustive solver: the
    graph of tiling P0 = [(0, 3)] joins Alice to the piece (2, 5) of tiling
    Pdelta; no matching of that graph weighs more than 12, the matching the
    solver returns weighs 12 and uses that edge; and the allocation gives
    out the overlapping pieces (0, 3) and (2, 5), where the docstring
    expects Bob alone to get (0, 3). *)
Lemma equally_sized_pieces_docstring_example :
  exists p0 pd g0 gd,
    create_partition (3 # 5) 0 = inr p0
    /\ create_partition (3 # 5) (tiling_offset (3 # 5)) = inr pd
    /\ map (normalize 5) p0 = [(0, 3)%Z]
    /\ map (normalize 5) pd = [(2, 5)%Z]
    /\ matching_graphs (log_of (equally_sized_pieces [Alice5; Bob5] (3 # 5))) = [g0; gd]
    /\ In (inr (2, 5)%Z) (g_nodes g0)
    /\ get_edge_data g0 (inl Alice5) (inr (2, 5)%Z) = Some 3%Q
    /\ In (inr (0, 3)%Z) (g_nodes gd)
    /\ get_edge_data gd (inl Bob5) (inr (0, 3)%Z) = Some 9%Q
    /\ (forall m w, is_matching g0 m ->
                    calculate_weight g0 (fix_edges m) = inr w -> (w <= 12)%Q)
    /\ is_matching g0 (max_weight_matching g0)
    /\ calculate_weight g0 (fix_edges (max_weight_matching g0)) = inr 12%Q
    /\ In (inr (2, 5)%Z, inl Alice5) (max_weight_matching g0)
    /\ result_of (equally_sized_pieces [Alice5; Bob5] (3 # 5))
       = inr {| alloc_agents := [inl Bob5; inl Alice5];
                alloc_pieces := [Some [inr (0, 3)%Z]; Some [inr (2, 5)%Z]] |}.
Proof.
  do 4 eexists.
  split; [ vm_compute; reflexivity | ].
  split; [ vm_compute; reflexivity | ].
  split; [ vm_compute; reflexivity | ].
  split; [ vm_compute; reflexivity | ].
  split; [ vm_compute; reflexivity | ].
  split; [ vm_compute; tauto | ].
  split; [ vm_compute; reflexivity | ].
  split; [ vm_compute; tauto | ].
  split; [ vm_compute; reflexivity | ].
  split.
  { intros m w Hm Hw.
    pose (best := fun u : Node PCAgent Z =>
                    if eq_dec u (inl Alice5) then 3%Q
                    else if eq_dec u (inl Bob5) then 9%Q else 0%Q).
    assert (Hbound := matching_weight_bound _ best [inl Alice5; inl Bob5] m w Hm Hw).
    apply Hbound.
    - intros u. unfold best.
      destruct (eq_dec u (inl Alice5)); [ discriminate | ].
      destruct (eq_dec u (inl Bob5)); discriminate.
    - intros u v x Hin. cbn in Hin.
      destruct Hin as [Heq | [Heq | [Heq | [Heq | []]]]]; injection Heq as <- <- <-;
        (split; [ simpl; tauto | vm_compute; discriminate ]). }
  split; [ apply is_matchingb_sound; vm_compute; reflexivity | ].
  split; [ vm_compute; reflexivity | ].
  split; [ vm_compute; tauto | ].
  vm_compute. reflexivity.
Qed.

(** C10, as stated, fails: with a cake of length 2 and pieces of size
    1/4 the degenerate piece (0, 0) is evaluated. *)
Lemma normalized_piece_degenerate :
  ~ (forall p : Piece Z,
        In p (evaluated_pieces (log_of (equally_sized_pieces [Alice; Bob] (1 # 4)))) ->
        (fst p < snd p)%Z).
Proof.
  intros Hall. specialize (Hall (0, 0)%Z).
  assert (Hin : In (0, 0)%Z
                   (evaluated_pieces (log_of (equally_sized_pieces [Alice; Bob] (1 # 4))))).
  { vm_compute. tauto. }
  apply Hall in Hin. simpl in Hin. lia.
Qed.

(** In a valid run of [equally_sized_pieces] over agents with non-negative
    cake lengths, every piece that is evaluated is a tiling piece in agent
    coordinates, with [start <= end], and every edge of a matching graph
    leads from an agent to an evaluated piece. *)
Lemma equally_sized_pieces_evaluated {Agent : Type} `{EqDec Agent}
    `{Valuation Agent Z} `{Cake Agent} `{Solver Agent Z}
    (agents : list Agent) (size : Q) :
  agents <> [] -> (0 < size <= 1)%Q ->
  (forall a, In a agents -> (0 <= cake_length a)%Q) ->
  (forall p,
      In p (evaluated_pieces (log_of (equally_sized_pieces agents size))) ->
      (fst p <= snd p)%Z)
  /\ (forall g u v w,
           In g (matching_graphs (log_of (equally_sized_pieces agents size))) ->
           get_edge_data g u v = Some w ->
           exists a p, u = inl a /\ v = inr p
                       /\ In p (evaluated_pieces
                                  (log_of (equally_sized_pieces agents size)))).
Proof.
  intros Hne Hv Hlen. assert (Hpos : (0 < size)%Q) by tauto.
  destruct (equally_sized_pieces_run agents size Hne Hv)
    as (p0 & pd & len & Hp0 & Hpd & Hmax & Hrun).
  destruct (equally_sized_pieces_graphs agents size Hne Hv)
    as (p0' & pd' & len' & g0 & gd & Hp0' & Hpd' & Hmax' & _ & _ & Hgraphs & Hev & _ & _).
  assert (p0' = p0) by congruence. assert (pd' = pd) by congruence.
  assert (len' = len) by congruence. subst p0' pd' len'. clear Hp0' Hpd' Hmax'.
  cbv zeta in Hrun.
  assert (Hlen0 : (0 <= len)%Q).
  { destruct agents as [| a agents]; [ contradiction | ].
    destruct (py_max_nonempty (cake_length a) (map cake_length agents)) as (m & Hm & Hin).
    change (cake_length a :: map cake_length agents)
      with (map cake_length (a :: agents)) in Hm, Hin.
    assert (m = len) by congruence. subst m.
    apply in_map_iff in Hin. destruct Hin as (b & <- & Hb). auto. }
  destruct (create_partition_consecutive size 0 Hpos) as (n0 & Hl0 & _).
  destruct (create_partition_consecutive size (tiling_offset size) Hpos)
    as (nd & Hld & _).
  assert (p0 = consecutive_pieces size 0 n0) by congruence.
  assert (pd = consecutive_pieces size (tiling_offset size) nd) by congruence.
  subst p0 pd.
  assert (Hpiece : forall p,
             In p (map (normalize len)
                     (consecutive_pieces size 0 n0
                        ++ consecutive_pieces size (tiling_offset size) nd)) ->
             (fst p <= snd p)%Z).
  { intros p Hp. apply in_map_iff in Hp. destruct Hp as (q & <- & Hq).
    apply in_app_iff in Hq. destruct Hq as [Hq | Hq].
    - exact (proj1 (normalize_ordered size 0 len n0 q Hpos (Qle_refl 0) Hlen0 Hq)).
    - exact (proj1 (normalize_ordered size (tiling_offset size) len nd q Hpos
                      (tiling_offset_nonneg size Hpos) Hlen0 Hq)). }
  split.
  - intros p Hp. rewrite Hev in Hp. apply in_flat_map in Hp.
    destruct Hp as (q & Hq & Hp). apply in_map_iff in Hp.
    destruct Hp as (_ & <- & _). auto.
  - intros g u v w Hg Hget. rewrite Hgraphs in Hg. rewrite Hrun in Hgraphs.
    cbn [log_of fst] in Hgraphs.
    change (matching_graphs (?a :: ?b :: ?l)) with (matching_graphs l) in Hgraphs.
    rewrite matching_graphs_evaluation_events in Hgraphs.
    injection Hgraphs as <- <-.
    assert (Hedge : forall right,
               get_edge_data
                 (create_matching_graph agents right
                    (evaluations_of agents
                       (map (normalize len)
                          (consecutive_pieces size 0 n0
                             ++ consecutive_pieces size (tiling_offset size) nd)) []))
                 u v = Some w ->
               exists a p, u = inl a /\ v = inr p
                           /\ In p (evaluated_pieces
                                      (log_of (equally_sized_pieces agents size)))).
    { intros right Hw. apply get_edge_data_weights in Hw.
      destruct Hw as (a & p & -> & -> & Hin).
      apply evaluations_of_In in Hin. destruct Hin as [(_ & Ha & Hp) | []].
      exists a, p. split; [ reflexivity | split; [ reflexivity | ] ].
      rewrite Hev. apply in_flat_map. exists p. split; [ exact Hp | ].
      apply in_map_iff. exists a. auto. }
    destruct Hg as [<- | [<- | []]]; eapply Hedge; eauto.
Qed.

(** *** Boundaries in decimal coordinates *)

Lemma round_half_even_near (q : Q) :
  (Qabs (q - inject_Z (round_half_even q)) <= 1 # 2)%Q.
Proof.
  unfold round_half_even.
  pose proof (Qfloor_le q) as Hlo. pose proof (Qlt_floor q) as Hhi.
  rewrite inject_Z_plus in Hhi. change (inject_Z 1) with 1%Q in Hhi.
  apply Qabs_Qle_condition.
  destruct (Qcompare (q - inject_Z (Qfloor q)) (1 # 2)) eqn:Hc.
  - apply Qeq_alt in Hc.
    destruct (Z.even (Qfloor q));
      rewrite ?inject_Z_plus; change (inject_Z 1) with 1%Q; split; lra.
  - apply Qlt_alt in Hc. split; lra.
  - apply Qgt_alt in Hc. rewrite inject_Z_plus. change (inject_Z 1) with 1%Q.
    split; lra.
Qed.

(** The rounding of [float("%.4f" % x)]: the result is a multiple of
    1/10000 and differs from [x] by at most half of 1/10000. *)
Lemma round4_decimal_near (x : Q) :
  exists k : Z,
    round4_decimal x = Qred (k # 10000)
    /\ (round4_decimal x == inject_Z k / 10000)%Q
    /\ (Qabs (x - round4_decimal x) <= 1 # 20000)%Q.
Proof.
  exists (round_half_even (x * 10000)). split; [ reflexivity | ].
  assert (Hval : (round4_decimal x == inject_Z (round_half_even (x * 10000)) / 10000)%Q).
  { unfold round4_decimal. rewrite Qred_correct. rewrite Qmake_Qdiv. reflexivity. }
  split; [ exact Hval | ].
  pose proof (round_half_even_near (x * 10000)) as Hn.
  apply Qabs_Qle_condition in Hn. apply Qabs_Qle_condition.
  rewrite Hval. set (k := inject_Z (round_half_even (x * 10000))) in *.
  assert (Hk : (k / 10000 * 10000 == k)%Q) by (field).
  split.
  - apply (Qmult_le_r _ _ 10000); [ reflexivity | ].
    assert (Hexp : ((x - k / 10000) * 10000 == x * 10000 - k)%Q) by (field).
    rewrite Hexp. lra.
  - apply (Qmult_le_r _ _ 10000); [ reflexivity | ].
    assert (Hexp : ((x - k / 10000) * 10000 == x * 10000 - k)%Q) by (field).
    rewrite Hexp. lra.
Qed.

(** On fractions in lowest terms equal values are equal terms. *)
Lemma Qred_eq (a b : Q) : (Qred a == Qred b)%Q -> Qred a = Qred b.
Proof.
  intros Heq. apply Qred_complete. rewrite !Qred_correct in Heq. exact Heq.
Qed.

Lemma Qle_bool_total (u v : Q) : Qle_bool u v = true \/ Qle_bool v u = true.
Proof.
  destruct (Qlt_le_dec u v) as [Hlt | Hle].
  - left. apply Qle_bool_iff. apply Qlt_le_weak. exact Hlt.
  - right. apply Qle_bool_iff. exact Hle.
Qed.

(** A sorted list without repetition, of fractions in lowest terms, is
    strictly increasing. *)
Lemma sorted_strictly (l : list Q) :
  Sorted (fun u v => Qle_bool u v = true) l ->
  NoDup l ->
  (forall x, In x l -> exists q, x = Qred q) ->
  StronglySorted Qlt l.
Proof.
  intros Hs Hnd Hred.
  assert (Htrans : Relations_1.Transitive (fun u v => Qle_bool u v = true)).
  { intros u v w Huv Hvw. apply Qle_bool_iff in Huv, Hvw. apply Qle_bool_iff.
    eapply Qle_trans; eauto. }
  apply (Sorted_StronglySorted Htrans) in Hs.
  induction Hs as [| x l Hl IH Hall]; [ constructor | ].
  inversion Hnd as [| ? ? Hx Hnd']; subst.
  constructor.
  - apply IH; [ exact Hnd' | ]. intros y Hy. apply Hred. right. exact Hy.
  - apply Forall_forall. intros y Hy.
    rewrite Forall_forall in Hall. specialize (Hall y Hy).
    apply Qle_bool_iff in Hall.
    destruct (Hred x (or_introl eq_refl)) as [qx ->].
    destruct (Hred y (or_intror Hy)) as [qy ->].
    destruct (Qle_lt_or_eq _ _ Hall) as [Hlt | Heq]; [ exact Hlt | ].
    exfalso. apply Hx. rewrite (Qred_eq _ _ Heq). exact Hy.
Qed.

(** In a strictly increasing list every pair of consecutive elements is
    increasing. *)
Lemma consecutive_increasing (l : list Q) :
  StronglySorted Qlt l ->
  forall p, In p (combine l (tl l)) -> (fst p < snd p)%Q.
Proof.
  induction 1 as [| x l Hl IH Hall]; intros p Hp; [ destruct Hp | ].
  destruct l as [| y l]; [ destruct Hp | ].
  cbn [tl combine] in Hp. destruct Hp as [<- | Hp].
  - cbn [fst snd]. rewrite Forall_forall in Hall. apply Hall. left. reflexivity.
  - apply IH. exact Hp.
Qed.

Section DecimalBoundaries.
Context {Agent : Type} `{EqDec Agent} `{Valuation Agent Q}.
Context `{Cake Agent} `{Marker Agent} `{Solver Agent Q}.

Lemma boundaries_to_pieces_combine (bs : list Q) :
  forall b0, boundaries_to_pieces b0 bs = combine (b0 :: bs) bs.
Proof.
  induction bs as [| b bs IH]; intros b0; [ reflexivity | ].
  cbn [boundaries_to_pieces combine]. rewrite IH. reflexivity.
Qed.

Lemma probe_points_rounded (a : Agent) (n count : nat) :
  forall start x,
    In x (probe_points a n count start) -> exists e, x = round4_decimal e.
Proof.
  induction count as [| count IH]; intros start x Hx; [ destruct Hx | ].
  cbn [probe_points] in Hx.
  destruct (mark a start _) as [e |]; [ | destruct Hx ].
  destruct Hx as [<- | Hx]; [ exists e; reflexivity | eauto ].
Qed.

Lemma boundaries_J_In (n : nat) (s : list Agent) (x : Q) :
  In x (boundaries_J n s)
  <-> x = 0%Q \/ exists a, In a s /\ In x (probe_points a n (2 * n) 0%Q).
Proof.
  unfold boundaries_J. rewrite sorted_In, to_set_In. cbn [In coord_zero Decimal_Marking].
  rewrite in_flat_map. intuition.
Qed.

Lemma boundaries_J_increasing (n : nat) (s : list Agent) :
  StronglySorted Qlt (boundaries_J n s).
Proof.
  apply sorted_strictly.
  - assert (Htotal : forall u v : Q,
               @coord_leb Agent Q _ u v = true \/ @coord_leb Agent Q _ v u = true)
      by apply Qle_bool_total.
    unfold boundaries_J. exact (sorted_Sorted _ Htotal).
  - unfold boundaries_J. apply sorted_NoDup, to_set_NoDup.
  - intros x Hx. apply boundaries_J_In in Hx.
    destruct Hx as [-> | (a & _ & Hx)]; [ exists 0%Q; reflexivity | ].
    destruct (probe_points_rounded a n (2 * n) 0%Q x Hx) as [e ->].
    eexists. reflexivity.
Qed.
End DecimalBoundaries.

(** C9. For a non-empty agent list of size [n] and any random draws,
    [continuous_setting] samples [n / 2] agents, each draw an agent of the
    list whatever was drawn before (with replacement).  Every sampled
    agent is asked for the position ending a range worth
    [cake_value / (2 n)], from 0 and then from each recorded position, and
    each answer is recorded rounded to four decimals: a multiple of
    1/10000 at most half of 1/10000 away.  The boundaries are the point 0
    and the recorded positions, each once and in strictly increasing
    order; partition J is made of the pairs of consecutive boundaries, so
    each of its pieces has [start < end]; and the result is, unchanged,
    the result of [discrete_setting] on the agents outside the sample
    (each once) and partition J. *)
Theorem continuous_setting_spec {Agent : Type} `{EqDec Agent} `{Valuation Agent Q}
    `{Cake Agent} `{Marker Agent} `{Solver Agent Q}
    (draws : nat -> nat) (agents : list Agent) :
  agents <> [] ->
  let n := length agents in
  let s := random_choices draws agents (n / 2) in
  let v := fun a => (cake_value a / inject_Z (Z.of_nat (2 * n)))%Q in
  let J := boundaries_J n s in
  length s = n / 2
  /\ (forall j, j < n / 2 -> nth_error s j = nth_error agents (draws j mod n))
  /\ (forall a, In a (set_difference agents s) <-> In a agents /\ ~ In a s)
  /\ NoDup (set_difference agents s)
  /\ (forall a start, probe_points a n 0 start = [])
  /\ (forall a count start,
         probe_points a n (S count) start
         = match mark_position a start (v a) with
           | None => []
           | Some e => round4_decimal e :: probe_points a n count (round4_decimal e)
           end)
  /\ (forall e, exists k : Z,
         (round4_decimal e == inject_Z k / 10000)%Q
         /\ (Qabs (e - round4_decimal e) <= 1 # 20000)%Q)
  /\ (forall x, In x J <->
                x = 0%Q \/ exists a, In a s /\ In x (probe_points a n (2 * n) 0%Q))
  /\ StronglySorted Qlt J
  /\ (forall p, In p (combine J (tl J)) -> (fst p < snd p)%Q)
  /\ result_of (continuous_setting draws agents)
     = result_of (discrete_setting (set_difference agents s) (combine J (tl J))).
Proof.
  intros Hne. cbv zeta.
  set (n := length agents). set (s := random_choices draws agents (n / 2)).
  destruct (random_choices_draws draws agents (n / 2) Hne) as [Hlen Hnth].
  split; [ exact Hlen | ]. split; [ exact Hnth | ].
  split; [ apply set_difference_In | ]. split; [ apply set_difference_NoDup | ].
  split; [ reflexivity | ]. split; [ reflexivity | ].
  split.
  { intros e. destruct (round4_decimal_near e) as (k & _ & Hk & Hnear). eauto. }
  split; [ apply boundaries_J_In | ].
  pose proof (boundaries_J_increasing n s) as Hsorted.
  split; [ exact Hsorted | ].
  split; [ apply consecutive_increasing; exact Hsorted | ].
  destruct (continuous_setting_result draws agents) as (b0 & bs & HJ & Hres).
  fold n in HJ, Hres. fold s in HJ, Hres.
  rewrite Hres, HJ, boundaries_to_pieces_combine. reflexivity.
Qed.

Lemma continuous_setting_spec_witness :
  let agents := [Alice; mkPC 1 [100; 1]%Z; Bob] in
  let draws := fun _ : nat => 0 in
  let n := length agents in
  let s := random_choices draws agents (n / 2) in
  let v := fun a => (cake_value a / inject_Z (Z.of_nat (2 * n)))%Q in
  let J := boundaries_J n s in
  length s = n / 2
  /\ (forall j, j < n / 2 -> nth_error s j = nth_error agents (draws j mod n))
  /\ (forall a, In a (set_difference agents s) <-> In a agents /\ ~ In a s)
  /\ NoDup (set_difference agents s)
  /\ (forall a start, probe_points a n 0 start = [])
  /\ (forall a count start,
         probe_points a n (S count) start
         = match mark_position a start (v a) with
           | None => []
           | Some e => round4_decimal e :: probe_points a n count (round4_decimal e)
           end)
  /\ (forall e, exists k : Z,
         (round4_decimal e == inject_Z k / 10000)%Q
         /\ (Qabs (e - round4_decimal e) <= 1 # 20000)%Q)
  /\ (forall x, In x J <->
                x = 0%Q \/ exists a, In a s /\ In x (probe_points a n (2 * n) 0%Q))
  /\ StronglySorted Qlt J
  /\ (forall p, In p (combine J (tl J)) -> (fst p < snd p)%Q)
  /\ result_of (continuous_setting draws agents)
     = result_of (discrete_setting (set_difference agents s) (combine J (tl J))).
Proof.
  apply (continuous_setting_spec (fun _ : nat => 0) [Alice; mkPC 1 [100; 1]%Z; Bob]).
  discriminate.
Defined.

(** The run of the docstring: two agents valuing [100, 1], the first one
    sampled.  It marks 0.2525, 0.505, 0.7575 and 2, and the other agent
    gets the whole cake [(0, 2)], worth 101.  With three agents the marks
    of the sampled one are not decimals with four digits, and are
    rounded. *)
Lemma continuous_setting_docstring_example :
  boundaries_J 2 [Alice] = [0; 101 # 400; 101 # 200; 303 # 400; 2]%Q
  /\ result_of (continuous_setting (fun _ : nat => 0) [Alice; mkPC 1 [100; 1]%Z])
     = inr {| alloc_agents := [inl (mkPC 1 [100; 1]%Z)];
              alloc_pieces := [Some [inr (0, 2)%Q]] |}
  /\ eval (mkPC 1 [100; 1]%Z) 0%Q 2%Q = 101%Q
  /\ mark_position Alice 0%Q (101 # 6)%Q = Some (101 # 600)%Q
  /\ boundaries_J 3 [Alice]
     = [0; 1683 # 10000; 1683 # 5000; 5049 # 10000; 1683 # 2500; 1683 # 2000;
        19833 # 10000]%Q.
Proof.
  repeat split; vm_compute; reflexivity.
Qed.

(* ================================================================== *)
(** * Further properties of the module *)

(** ** [fix_edges] *)

Section FixEdges.
Context {Agent C : Type} `{EqDec Agent} `{EqDec C}.
Local Abbreviation node := (Node Agent C).

Lemma fold_set_add_length {A : Type} `{EqDec A} (l s : list A) :
  length (fold_left (fun s x => set_add x s) l s) <= length s + length l.
Proof.
  revert s. induction l as [| x l IH]; intros s; simpl; [ lia | ].
  specialize (IH (set_add x s)). unfold set_add in *.
  destruct (in_dec eq_dec x s); [ lia | ].
  rewrite length_app in IH. simpl in IH. lia.
Qed.

(** X1. [fix_edges] returns a set (no pair twice, never more pairs than it
    was given) that holds every given pair, as it was or turned; a pair
    is turned only when a piece came first, so a pair with an agent at
    either end has the agent first afterwards. *)
Theorem fix_edges_agent_first (m : list (node * node)) :
  NoDup (fix_edges m)
  /\ length (fix_edges m) <= length m
  /\ (forall e, In e (fix_edges m) ->
        (In e m \/ (is_agent (snd e) = false /\ In (snd e, fst e) m))
        /\ (is_agent (snd e) = true -> is_agent (fst e) = true))
  /\ (forall e, In e m ->
        if is_agent (fst e) then In e (fix_edges m)
        else In (snd e, fst e) (fix_edges m)).
Proof.
  split; [ apply fix_edges_NoDup | ]. split.
  { rewrite fix_edges_to_set. unfold to_set.
    pose proof (fold_set_add_length (map fix_edge m) []) as Hlen.
    rewrite length_map in Hlen. exact Hlen. }
  split.
  - intros e He. apply fix_edges_In in He. destruct He as ([u v] & Hin & ->).
    unfold fix_edge. cbn [fst snd].
    destruct (is_agent u) eqn:Hu; cbn [negb fst snd].
    + split; [ left; exact Hin | auto ].
    + split; [ right; auto | intros Hc; congruence ].
  - intros [u v] He. cbn [fst snd].
    destruct (is_agent u) eqn:Hu; apply fix_edges_In; exists (u, v);
      (split; [ exact He | ]); unfold fix_edge; cbn [fst snd]; rewrite Hu; reflexivity.
Qed.

(** X2. Fixing twice is fixing once, provided every pair has an agent at
    one end.  A pair of two pieces is the exception: it is turned each
    time. *)
Theorem fix_edges_idempotent (m : list (node * node)) :
  (forall e, In e m -> is_agent (fst e) = true \/ is_agent (snd e) = true) ->
  fix_edges (fix_edges m) = fix_edges m
  /\ forall e, In e (fix_edges m) -> is_agent (fst e) = true.
Proof.
  intros Hagent.
  assert (Hfirst : forall e, In e (fix_edges m) -> is_agent (fst e) = true).
  { intros e He. apply fix_edges_In in He. destruct He as ([u v] & Hin & ->).
    specialize (Hagent _ Hin). unfold fix_edge. cbn [fst snd] in *.
    destruct (is_agent u) eqn:Hu; cbn [negb fst snd]; [ exact Hu | ].
    destruct Hagent; congruence. }
  split; [ | exact Hfirst ].
  rewrite (fix_edges_to_set (fix_edges m)).
  assert (Hid : map fix_edge (fix_edges m) = fix_edges m).
  { rewrite <- (map_id (fix_edges m)) at 2. apply map_ext_in.
    intros [u v] He. apply Hfirst in He. unfold fix_edge. cbn [fst snd] in *.
    rewrite He. reflexivity. }
  rewrite Hid. unfold to_set. rewrite fold_set_add_fresh; [ reflexivity | ].
  simpl. apply fix_edges_NoDup.
Qed.

End FixEdges.

Lemma fix_edges_idempotent_witness :
  (fix_edges (fix_edges [(inr (0, 1)%Z, inl Alice)]) = fix_edges [(inr (0, 1)%Z, inl Alice)]
   /\ forall e, In e (fix_edges [(@inr PCAgent (Piece Z) (0, 1)%Z, inl Alice)]) ->
                is_agent (fst e) = true)
  /\ fix_edges [(@inr PCAgent (Piece Z) (0, 1)%Z, @inr PCAgent (Piece Z) (1, 2)%Z)]
     = [(inr (1, 2)%Z, inr (0, 1)%Z)].
Proof.
  split; [ | reflexivity ].
  apply (fix_edges_idempotent [(inr (0, 1)%Z, inl Alice)]).
  intros e [<- | []]. right. reflexivity.
Defined.

Section MatchingsFixed.
Context {Agent C : Type} `{EqDec Agent} `{EqDec C}.
Local Abbreviation node := (Node Agent C).

Lemma fix_edge_nodes_perm (m : list (node * node)) :
  Permutation (map fst (map fix_edge m) ++ map snd (map fix_edge m))
              (map fst m ++ map snd m).
Proof.
  induction m as [| [u v] m IH]; simpl; [ constructor | ].
  unfold fix_edge at 1 3. cbn [fst snd].
  destruct (negb (is_agent u)); cbn [fst snd].
  - etransitivity; [ apply perm_skip; symmetry; apply Permutation_middle | ].
    etransitivity; [ apply perm_swap | ].
    apply perm_skip. etransitivity; [ apply perm_skip; exact IH | ].
    apply Permutation_middle.
  - apply perm_skip.
    etransitivity; [ symmetry; apply Permutation_middle | ].
    etransitivity; [ apply perm_skip; exact IH | ].
    apply Permutation_middle.
Qed.

Lemma joinsb_fix_edge_same (g : Graph Agent C) (e : node * node) :
  joinsb g (fix_edge e) = joinsb g e.
Proof.
  destruct e as [u v]. unfold fix_edge, joinsb. cbn [fst snd].
  destruct (negb (is_agent u)); cbn [fst snd]; [ apply orb_comm | reflexivity ].
Qed.

(** X3. On a matching [fix_edges] loses nothing: the result is a matching
    of the same graph with as many pairs, no agent and no piece twice. *)
Theorem fix_edges_keeps_matchings (g : Graph Agent C) (m : list (node * node)) :
  is_matching g m ->
  is_matching g (fix_edges m)
  /\ length (fix_edges m) = length m
  /\ NoDup (map fst (fix_edges m))
  /\ NoDup (map snd (fix_edges m)).
Proof.
  intros Hm. destruct (fix_edges_matching g m Hm) as (Heq & Hfst & Hsnd).
  split; [ | split; [ rewrite Heq; apply length_map | auto ] ].
  destruct Hm as [Hjoin Hnd]. split.
  - intros e He. apply fix_edges_In in He. destruct He as (e' & He' & ->).
    rewrite joinsb_fix_edge_same. auto.
  - rewrite Heq. eapply Permutation_NoDup; [ | exact Hnd ].
    symmetry. apply fix_edge_nodes_perm.
Qed.
End MatchingsFixed.

Lemma fix_edges_keeps_matchings_witness :
  let g := level_graph [Alice; Bob] [(0, 1); (1, 2)]%Z in
  let m := [(inr (0, 1)%Z, inl Alice); (inl Bob, inr (1, 2)%Z)] in
  is_matching g (fix_edges m)
  /\ length (fix_edges m) = length m
  /\ NoDup (map fst (fix_edges m))
  /\ NoDup (map snd (fix_edges m)).
Proof.
  apply (fix_edges_keeps_matchings (level_graph [Alice; Bob] [(0, 1); (1, 2)]%Z)).
  apply is_matchingb_sound. vm_compute. reflexivity.
Defined.

(** ** [calculate_weight] *)

Section CalculateWeight.
Context {Agent C : Type} `{EqDec Agent} `{EqDec C}.
Local Abbreviation node := (Node Agent C).

Lemma calculate_weight_present (g : Graph Agent C) (m : list (node * node)) :
  (forall e, In e m -> get_edge_data g (fst e) (snd e) <> None) ->
  exists w, calculate_weight g m = inr w
            /\ (w == Qsum (map (edge_data_or_zero g) m))%Q.
Proof.
  intros Hall. unfold calculate_weight.
  assert (Hgen : forall acc,
             exists w,
               fold_left (fun ret edge =>
                            rbind ret (fun ret =>
                            match get_edge_data g (fst edge) (snd edge) with
                            | Some w => inr (ret + w)%Q
                            | None => inl (TypeError "'NoneType' object is not subscriptable")
                            end))
                         m (inr acc) = inr w
               /\ (w == acc + Qsum (map (edge_data_or_zero g) m))%Q).
  { induction m as [| e m IH]; intros acc; simpl.
    - exists acc. split; [ reflexivity | ring ].
    - unfold edge_data_or_zero at 1.
      destruct (get_edge_data g (fst e) (snd e)) as [x |] eqn:Hx.
      + destruct (IH (fun e' He' => Hall e' (or_intror He')) (acc + x)%Q) as (w & Hw & Hsum).
        exists w. split; [ exact Hw | rewrite Hsum; ring ].
      + exfalso. apply (Hall e (or_introl eq_refl)). exact Hx. }
  destruct (Hgen 0%Q) as (w & Hw & Hsum). exists w. split; [ exact Hw | ].
  rewrite Hsum. ring.
Qed.

Lemma calculate_weight_missing (g : Graph Agent C) (m : list (node * node))
    (e : node * node) :
  In e m -> get_edge_data g (fst e) (snd e) = None ->
  calculate_weight g m = inl (TypeError "'NoneType' object is not subscriptable").
Proof.
  intros He Hnone.
  destruct (calculate_weight g m) as [x | w] eqn:Hw.
  - f_equal. exact (calculate_weight_inl g m x Hw).
  - exfalso. unfold calculate_weight in Hw.
    destruct (calculate_weight_fold g (fun u v => edge_data_or_zero g (u, v)) m)
      with (acc := 0%Q) (w := w) as [_ Hall]; [ | exact Hw | ].
    + intros u v x Hx. unfold edge_data_or_zero. cbn [fst snd]. rewrite Hx. reflexivity.
    + rewrite (Hall e He) in Hnone. discriminate.
Qed.

(** X5. [calculate_weight] returns exactly when every pair it is given is
    an edge of the graph in the direction given; one missing edge makes
    it raise [TypeError].  The edges of a matching graph lead from agents
    to pieces, so on such a graph a pair with the piece first raises:
    solver output has to go through [fix_edges] first. *)
Theorem calculate_weight_returns_iff (g : Graph Agent C) (m : list (node * node)) :
  ((exists w, calculate_weight g m = inr w)
   <-> forall e, In e m -> get_edge_data g (fst e) (snd e) <> None)
  /\ ((exists e, In e m /\ get_edge_data g (fst e) (snd e) = None) ->
      calculate_weight g m = inl (TypeError "'NoneType' object is not subscriptable"))
  /\ forall (left : list Agent) (right : list (Piece C))
            (weights : dict (Agent * Piece C) Q) (p : Piece C) (n : node),
       In (inr p, n) m ->
       calculate_weight (create_matching_graph left right weights) m
       = inl (TypeError "'NoneType' object is not subscriptable").
Proof.
  split; [ split | split ].
  - intros [w Hw] e He Hn.
    rewrite (calculate_weight_missing g m e He Hn) in Hw. discriminate.
  - intros Hall. destruct (calculate_weight_present g m Hall) as (w & Hw & _). eauto.
  - intros (e & He & Hn). exact (calculate_weight_missing g m e He Hn).
  - intros left right weights p n Hin.
    apply (calculate_weight_missing _ m (inr p, n) Hin). cbn [fst snd].
    destruct (get_edge_data (create_matching_graph left right weights) (inr p) n)
      as [w |] eqn:Hget; [ | reflexivity ].
    apply get_edge_data_weights in Hget. destruct Hget as (a & q & Hu & _). discriminate.
Qed.
End CalculateWeight.

(** ** [create_matching_graph] *)

Section GraphLookup.
Context {Agent C : Type} `{EqDec Agent} `{EqDec C}.
Local Abbreviation node := (Node Agent C).

Lemma dict_unique {K V : Type} (d : dict K V) (k : K) (v v' : V) :
  NoDup (map fst d) -> In (k, v) d -> In (k, v') d -> v = v'.
Proof.
  induction d as [| [k0 v0] d IH]; simpl; intros Hnd Hv Hv'; [ contradiction | ].
  inversion Hnd as [| ? ? Hk Hd]; subst.
  assert (Hkey : forall x, In (k, x) d -> In k (map fst d)).
  { intros x Hx. apply in_map_iff. exists (k, x). auto. }
  destruct Hv as [Hv | Hv]; destruct Hv' as [Hv' | Hv'].
  - congruence.
  - injection Hv as -> ->. exfalso. eauto.
  - injection Hv' as -> ->. exfalso. eauto.
  - auto.
Qed.

Lemma add_nodes_from_nodes (ns : list node) (g : Graph Agent C) :
  g_nodes (add_nodes_from g ns) = fold_left (fun s x => set_add x s) ns (g_nodes g).
Proof.
  unfold add_nodes_from. revert g.
  induction ns as [| n ns IH]; intros g; simpl; [ reflexivity | ].
  rewrite IH. reflexivity.
Qed.

Lemma add_edges_nodes (weights : dict (Agent * Piece C) Q) :
  forall g : Graph Agent C,
    NoDup (g_nodes g) ->
    NoDup (g_nodes (fold_left (fun g kv =>
                                 add_edge g (inl (fst (fst kv))) (inr (snd (fst kv))) (snd kv))
                              weights g))
    /\ forall n,
         In n (g_nodes (fold_left (fun g kv =>
                                     add_edge g (inl (fst (fst kv))) (inr (snd (fst kv)))
                                              (snd kv))
                                  weights g))
         <-> In n (g_nodes g)
             \/ exists a p, In (a, p) (map fst weights) /\ (n = inl a \/ n = inr p).
Proof.
  induction weights as [| [[a p] w] weights IH]; intros g Hnd; simpl.
  - split; [ exact Hnd | ]. intros n. split; [ auto | ].
    intros [Hn | (a & p & [] & _)]. exact Hn.
  - destruct (IH (add_edge g (inl a) (inr p) w)) as [IHnd IHin].
    { cbn [add_edge g_nodes]. apply set_add_NoDup, set_add_NoDup, Hnd. }
    split; [ exact IHnd | ]. intros n. rewrite IHin.
    cbn [add_edge g_nodes]. rewrite !set_add_In. split.
    + intros [[-> | [-> | Hn]] | (a' & p' & Hin & Hn)].
      * right. exists a, p. auto.
      * right. exists a, p. auto.
      * left. exact Hn.
      * right. exists a', p'. auto.
    + intros [Hn | (a' & p' & [Heq | Hin] & Hn)].
      * auto.
      * injection Heq as <- <-. destruct Hn as [-> | ->]; auto.
      * right. exists a', p'. auto.
Qed.

(** X6. In the graph built from a dict of weights, the data of the edge
    from an agent to a piece is the dict's entry for that pair, and there
    is no edge in any other direction (piece to agent, agent to agent,
    piece to piece).  Its nodes, without duplicates, are the agents of
    [left], the pieces of [right], and the agents and pieces of the dict's
    keys. *)
Theorem create_matching_graph_lookup (left : list Agent) (right : list (Piece C))
    (weights : dict (Agent * Piece C) Q) :
  NoDup (map fst weights) ->
  let g := create_matching_graph left right weights in
  (forall a p, get_edge_data g (inl a) (inr p) = dict_get weights (a, p))
  /\ (forall u v, is_agent u = false \/ is_agent v = true -> get_edge_data g u v = None)
  /\ NoDup (g_nodes g)
  /\ (forall a, In (inl a) (g_nodes g)
                <-> In a left \/ exists p, In (a, p) (map fst weights))
  /\ (forall p, In (inr p) (g_nodes g)
                <-> In p right \/ exists a, In (a, p) (map fst weights)).
Proof.
  intros Hkeys. cbv zeta. split; [ | split ].
  - intros a p.
    destruct (dict_get weights (a, p)) as [v |] eqn:Hv.
    + destruct (get_edge_data_key left right weights a p) as [w Hw].
      { apply dict_get_In in Hv. apply in_map_iff. exists ((a, p), v). auto. }
      rewrite Hw. f_equal.
      apply get_edge_data_weights in Hw. destruct Hw as (a' & p' & Ha & Hp & Hin).
      injection Ha as <-. injection Hp as <-.
      apply dict_get_In in Hv. exact (dict_unique weights (a, p) w v Hkeys Hin Hv).
    + destruct (get_edge_data (create_matching_graph left right weights) (inl a) (inr p))
        as [w |] eqn:Hw; [ | reflexivity ].
      apply get_edge_data_weights in Hw. destruct Hw as (a' & p' & Ha & Hp & Hin).
      injection Ha as <-. injection Hp as <-.
      destruct (dict_get_key weights (a, p)) as [v' Hv'].
      { apply in_map_iff. exists ((a, p), w). auto. }
      congruence.
  - intros u v Huv.
    destruct (get_edge_data (create_matching_graph left right weights) u v)
      as [w |] eqn:Hw; [ | reflexivity ].
    apply get_edge_data_weights in Hw. destruct Hw as (a & p & -> & -> & _).
    destruct Huv; discriminate.
  - unfold create_matching_graph.
    set (g0 := add_nodes_from (add_nodes_from empty_graph (map inl left)) (map inr right)).
    assert (Hnd0 : NoDup (g_nodes g0)).
    { unfold g0. rewrite !add_nodes_from_nodes.
      apply fold_set_add_NoDup, fold_set_add_NoDup. constructor. }
    assert (Hin0 : forall n, In n (g_nodes g0)
                             <-> In n (map inr right) \/ In n (map inl left)).
    { intros n. unfold g0. rewrite !add_nodes_from_nodes, !fold_set_add_In.
      simpl. tauto. }
    destruct (add_edges_nodes weights g0 Hnd0) as [Hnd Hin].
    split; [ exact Hnd | ]. split.
    + intros a. rewrite Hin, Hin0, !in_map_iff. split.
      * intros [[(p & Hp & _) | (a' & Ha & Hin')] | (a' & p & Hk & [Hn | Hn])];
          try discriminate.
        -- injection Ha as <-. auto.
        -- injection Hn as <-. eauto.
      * intros [Ha | (p & Hk)]; [ left; right; eauto | ].
        right. exists a, p. auto.
    + intros p. rewrite Hin, Hin0, !in_map_iff. split.
      * intros [[(p' & Hp & Hin') | (a' & Ha & _)] | (a & p' & Hk & [Hn | Hn])];
          try discriminate.
        -- injection Hp as <-. auto.
        -- injection Hn as <-. eauto.
      * intros [Hp | (a & Hk)]; [ left; left; eauto | ].
        right. exists a, p. auto.
Qed.
End GraphLookup.

Lemma create_matching_graph_lookup_witness :
  let weights := [((Alice, (0, 1)%Z), 100%Q); ((Bob, (1, 2)%Z), 90%Q)] in
  let g := create_matching_graph [Alice; Bob] [(0, 1); (1, 2); (2, 3)]%Z weights in
  (forall a p, get_edge_data g (inl a) (inr p) = dict_get weights (a, p))
  /\ (forall u v, is_agent u = false \/ is_agent v = true -> get_edge_data g u v = None)
  /\ NoDup (g_nodes g)
  /\ (forall a, In (inl a) (g_nodes g)
                <-> In a [Alice; Bob] \/ exists p, In (a, p) (map fst weights))
  /\ (forall p, In (inr p) (g_nodes g)
                <-> In p [(0, 1); (1, 2); (2, 3)]%Z \/ exists a, In (a, p) (map fst weights)).
Proof.
  apply (create_matching_graph_lookup [Alice; Bob] [(0, 1); (1, 2); (2, 3)]%Z
           [((Alice, (0, 1)%Z), 100%Q); ((Bob, (1, 2)%Z), 90%Q)]).
  apply nodupb_true. vm_compute. reflexivity.
Defined.

(** ** [create_partition] *)

Section PartitionStall.
Import PrimFloat.
Local Abbreviation rounded_start := Binary64.rounded_start.
Local Abbreviation rounded_end := Binary64.rounded_end.

(** Once the rounded sum stops moving it stays where it is. *)
Lemma rounded_end_stalled (size start : float) (k : nat) :
  rounded_end size start (S k) = rounded_end size start k ->
  forall i, rounded_end size start (k + i) = rounded_end size start k.
Proof.
  intros Hstall. induction i as [| i IH].
  - rewrite Nat.add_0_r. reflexivity.
  - rewrite Nat.add_succ_r. cbn [Binary64.rounded_end]. rewrite IH. exact Hstall.
Qed.

(** X8. [create_partition] does not check its size.  When the end of a
    piece is [<= 1] and adding the size to it gives the same float again
    (a size of zero, or one too small to move the sum, such as 1e-17 at
    0.5), the loop does not stop, whatever the number of iterations
    allowed. *)
Theorem create_partition_without_progress (size start : float) (k : nat) :
  (forall i, i <= k -> (rounded_end size start i <=? 1)%float = true) ->
  rounded_end size start (S k) = rounded_end size start k ->
  forall fuel, Binary64.create_partition fuel size start = inl NonTermination.
Proof.
  intros Hin Hstall fuel.
  assert (Hall : forall i, (rounded_end size start i <=? 1)%float = true).
  { intros i. destruct (Nat.le_gt_cases i k) as [Hle | Hgt]; [ apply Hin; exact Hle | ].
    replace i with (k + (i - k)) by lia.
    rewrite (rounded_end_stalled size start k Hstall). apply Hin. lia. }
  unfold Binary64.create_partition.
  change (start + size)%float with (rounded_end size start 0).
  change start with (rounded_start size start 0) at 1.
  rewrite (create_partition_loop_running size start Hall fuel 0). reflexivity.
Qed.

Lemma create_partition_without_progress_witness :
  (forall fuel,
      Binary64.create_partition fuel 0x1.70ef54646d497p-57%float 0.5%float
      = inl NonTermination)
  /\ (0 <? 0x1.70ef54646d497p-57)%float = true
  /\ (forall fuel, Binary64.create_partition fuel 0%float 0%float = inl NonTermination).
Proof.
  split; [ | split; [ reflexivity | ] ].
  - apply (create_partition_without_progress 0x1.70ef54646d497p-57%float 0.5%float 0).
    + intros i Hi. assert (i = 0) by lia. subst i. vm_compute. reflexivity.
    + vm_compute. reflexivity.
  - apply (create_partition_without_progress 0%float 0%float 0).
    + intros i Hi. assert (i = 0) by lia. subst i. vm_compute. reflexivity.
    + vm_compute. reflexivity.
Defined.
End PartitionStall.

(** ** [change_partition] *)

Section Coarsening.
Context {C : Type}.

(** The pieces of a coarsened partition, by position. *)
Lemma change_partition_pieces (partition : list (Piece C)) (t : nat) :
  exists out,
    change_partition partition t = inr out
    /\ length out = length partition / 2 ^ t
    /\ forall i, i < length partition / 2 ^ t ->
         exists ps pe,
           nth_error partition (i * 2 ^ t) = Some ps
           /\ nth_error partition ((i + 1) * 2 ^ t - 1) = Some pe
           /\ nth_error out i = Some (fst ps, snd pe).
Proof.
  set (m := length partition).
  unfold change_partition. fold m.
  match goal with
  | |- context [rmap ?f ?l] =>
      destruct (@rmap_ok Z (Piece C) f l) as (out & Hout & Hlen & Hnth)
  end.
  { intros x Hx. unfold py_range in Hx. rewrite range_len_runs in Hx.
    apply in_map_iff in Hx. destruct Hx as (i & <- & Hi). apply in_seq in Hi.
    destruct (change_partition_run_ok partition t i) as (ps & pe & _ & _ & Hrun);
      [ fold m; lia | ].
    exists (fst ps, snd pe). exact Hrun. }
  unfold py_range in Hlen. rewrite length_map, length_seq, range_len_runs in Hlen.
  exists out. split; [ exact Hout | ]. split; [ exact Hlen | ].
  intros i Hi.
  destruct (change_partition_run_ok partition t i Hi) as (ps & pe & Hps & Hpe & Hrun).
  exists ps, pe. split; [ exact Hps | ]. split; [ exact Hpe | ].
  destruct (Hnth i (0 + Z.of_nat i * 2 ^ Z.of_nat t)%Z) as (y & Hy & Hf).
  { unfold py_range. rewrite range_len_runs.
    rewrite nth_error_map, nth_error_seq.
    destruct (Nat.ltb_spec i (m / 2 ^ t)); [ reflexivity | lia ]. }
  rewrite Hy. f_equal. cbv beta in Hf. rewrite Hrun in Hf. congruence.
Qed.

(** X10. Coarsening composes: level 0 gives the partition back, the
    level-[t] coarsening of the level-[s] coarsening is the level-[s + t]
    coarsening, and a level whose runs are longer than the partition gives
    the empty partition (it does not raise). *)
Theorem change_partition_compose (partition : list (Piece C)) :
  change_partition partition 0 = inr partition
  /\ (forall s t,
         exists q, change_partition partition s = inr q
                   /\ change_partition q t = change_partition partition (s + t))
  /\ (forall t, length partition < 2 ^ t -> change_partition partition t = inr []).
Proof.
  split; [ | split ].
  - destruct (change_partition_pieces partition 0) as (out & -> & Hlen & Hnth).
    f_equal. apply nth_error_ext. intros i.
    change (2 ^ 0) with 1 in *. rewrite Nat.div_1_r in *.
    destruct (Nat.lt_ge_cases i (length partition)) as [Hi | Hi].
    + destruct (Hnth i Hi) as (ps & pe & Hps & Hpe & Hout).
      replace (i * 1) with i in Hps by lia.
      replace ((i + 1) * 1 - 1) with i in Hpe by lia.
      rewrite Hout, Hps. rewrite Hps in Hpe. injection Hpe as <-.
      destruct ps; reflexivity.
    + pose proof Hi as Hi'. rewrite <- Hlen in Hi'.
      apply nth_error_None in Hi, Hi'. rewrite Hi, Hi'. reflexivity.
  - intros s t.
    destruct (change_partition_pieces partition s) as (q & Hq & Hqlen & Hqnth).
    exists q. split; [ exact Hq | ].
    destruct (change_partition_pieces q t) as (r1 & -> & Hlen1 & Hnth1).
    destruct (change_partition_pieces partition (s + t)) as (r2 & -> & Hlen2 & Hnth2).
    f_equal. apply nth_error_ext. intros i.
    assert (Hps : 2 ^ s <> 0) by (apply Nat.pow_nonzero; discriminate).
    assert (Hpt : 2 ^ t <> 0) by (apply Nat.pow_nonzero; discriminate).
    assert (Hpow : 2 ^ (s + t) = 2 ^ s * 2 ^ t) by apply Nat.pow_add_r.
    assert (Hlen : length q / 2 ^ t = length partition / 2 ^ (s + t)).
    { rewrite Hqlen, Hpow. apply Nat.Div0.div_div. }
    destruct (Nat.lt_ge_cases i (length q / 2 ^ t)) as [Hi | Hi].
    + destruct (Hnth1 i Hi) as (qs & qe & Hqs & Hqe & Hr1).
      destruct (Hnth2 i) as (ps & pe & Hps' & Hpe' & Hr2); [ lia | ].
      assert (Hdm : length q = 2 ^ t * (length q / 2 ^ t) + length q mod 2 ^ t)
        by apply Nat.div_mod_eq.
      destruct (Hqnth (i * 2 ^ t)) as (a1 & a2 & Ha1 & _ & Hqa); [ rewrite <- Hqlen; nia | ].
      destruct (Hqnth ((i + 1) * 2 ^ t - 1)) as (b1 & b2 & _ & Hb2 & Hqb);
        [ rewrite <- Hqlen; nia | ].
      rewrite Hqs in Hqa. injection Hqa as ->.
      rewrite Hqe in Hqb. injection Hqb as ->.
      replace (i * 2 ^ t * 2 ^ s) with (i * 2 ^ (s + t)) in Ha1 by nia.
      replace (((i + 1) * 2 ^ t - 1 + 1) * 2 ^ s - 1) with ((i + 1) * 2 ^ (s + t) - 1)
        in Hb2 by nia.
      rewrite Hr1, Hr2. cbn [fst snd]. congruence.
    + assert (Hn1 : nth_error r1 i = None) by (apply nth_error_None; lia).
      assert (Hn2 : nth_error r2 i = None) by (apply nth_error_None; lia).
      rewrite Hn1, Hn2. reflexivity.
  - intros t Ht.
    destruct (change_partition_pieces partition t) as (out & -> & Hlen & _).
    rewrite (Nat.div_small _ _ Ht) in Hlen.
    destruct out; [ reflexivity | discriminate ].
Qed.

(** X11. Coarsening keeps a partition contiguous: when every piece of the
    input starts where the previous one ends, so does every piece of the
    output; and the output starts where the input starts. *)
Theorem change_partition_contiguous (partition : list (Piece C)) (t : nat) :
  contiguous partition ->
  exists out,
    change_partition partition t = inr out
    /\ contiguous out
    /\ forall p0 o0, nth_error partition 0 = Some p0 -> nth_error out 0 = Some o0 ->
                     fst o0 = fst p0.
Proof.
  intros Hcont.
  destruct (change_partition_pieces partition t) as (out & Hout & Hlen & Hnth).
  exists out. split; [ exact Hout | ].
  assert (Hpt : 2 ^ t <> 0) by (apply Nat.pow_nonzero; discriminate).
  split.
  - intros i p q Hp Hq.
    assert (Hi : S i < length out) by (apply nth_error_Some; congruence).
    rewrite Hlen in Hi.
    destruct (Hnth i) as (ps & pe & _ & Hpe & Hoi); [ lia | ].
    destruct (Hnth (S i) Hi) as (ps' & pe' & Hps' & _ & Hoi').
    rewrite Hp in Hoi. injection Hoi as ->.
    rewrite Hq in Hoi'. injection Hoi' as ->.
    cbn [fst snd].
    apply (Hcont ((i + 1) * 2 ^ t - 1)); [ exact Hpe | ].
    replace (S ((i + 1) * 2 ^ t - 1)) with (S i * 2 ^ t) by nia. exact Hps'.
  - intros p0 o0 Hp0 Ho0.
    assert (Hi : 0 < length out) by (apply nth_error_Some; congruence).
    rewrite Hlen in Hi.
    destruct (Hnth 0 Hi) as (ps & pe & Hps & _ & Ho).
    rewrite Nat.mul_0_l in Hps. rewrite Hp0 in Hps. injection Hps as <-.
    rewrite Ho0 in Ho. injection Ho as ->. reflexivity.
Qed.
End Coarsening.

Lemma change_partition_contiguous_witness :
  exists out,
    change_partition [(0, 1); (1, 2); (2, 3); (3, 4); (4, 5)]%Z 1 = inr out
    /\ contiguous out
    /\ forall p0 o0,
         nth_error [(0, 1); (1, 2); (2, 3); (3, 4); (4, 5)]%Z 0 = Some p0 ->
         nth_error out 0 = Some o0 -> fst o0 = fst p0.
Proof.
  apply (change_partition_contiguous [(0, 1); (1, 2); (2, 3); (3, 4); (4, 5)]%Z 1).
  intros i p q Hp Hq.
  do 5 (destruct i as [| i]; [ simpl in Hp, Hq; try discriminate;
                               injection Hp as <-; injection Hq as <-; reflexivity | ]).
  destruct i; discriminate.
Defined.

(** ** Algorithm 1: queries, result and welfare *)

Section QueryCounts.
Context {Agent C : Type} `{EqDec Agent}.

Lemma queries_of_app (a : Agent) (l1 l2 : list (Event Agent C)) :
  queries_of a (l1 ++ l2) = queries_of a l1 ++ queries_of a l2.
Proof. unfold queries_of. apply flat_map_app. Qed.

Lemma queries_of_evaluation_events (a : Agent) (agents : list Agent)
    (pieces : list (Piece C)) :
  length (queries_of a (evaluation_events agents pieces))
  = count_occ eq_dec agents a * length pieces.
Proof.
  unfold evaluation_events.
  induction pieces as [| p pieces IH]; simpl; [ lia | ].
  rewrite queries_of_app, length_app, IH.
  assert (Hrow : length (queries_of a (map (fun agent => EvEval agent p) agents))
                 = count_occ eq_dec agents a).
  { clear IH. induction agents as [| b agents IHa]; simpl; [ reflexivity | ].
    destruct (eq_dec a b) as [-> | Hne].
    - destruct (eq_dec b b); [ | congruence ]. simpl. rewrite IHa. reflexivity.
    - destruct (eq_dec b a); [ congruence | ]. exact IHa. }
  rewrite Hrow. lia.
Qed.

Lemma matching_graphs_app (l1 l2 : list (Event Agent C)) :
  matching_graphs (l1 ++ l2) = matching_graphs l1 ++ matching_graphs l2.
Proof. unfold matching_graphs. apply flat_map_app. Qed.

Lemma matching_graphs_evaluations (agents : list Agent) (pieces : list (Piece C)) :
  matching_graphs (evaluation_events agents pieces) = [].
Proof.
  unfold evaluation_events, matching_graphs.
  induction pieces as [| p pieces IH]; simpl; [ reflexivity | ].
  rewrite flat_map_app, IH, app_nil_r.
  clear IH. induction agents as [| a agents IHa]; simpl; auto.
Qed.
End QueryCounts.

Section EquallySizedResult.
Context {Agent : Type} `{EqDec Agent}.
Context `{Valuation Agent Z} `{Cake Agent} `{Solver Agent Z}.
Local Abbreviation node := (Node Agent Z).

Lemma table_graph_value (agents : list Agent) (right pieces : list (Piece Z))
    (u v : node) (w : Q) :
  get_edge_data (create_matching_graph agents right (evaluations_of agents pieces [])) u v
  = Some w ->
  w = node_value u v.
Proof.
  intros Hget. apply get_edge_data_weights in Hget.
  destruct Hget as (a & p & -> & -> & Hin).
  apply evaluations_of_In in Hin. destruct Hin as [(Hw & _) | []]. exact Hw.
Qed.

(** The weight of the normalised matching of a graph built from an
    evaluation table: it exists, and is the sum of the agents' values of
    their pieces. *)
Lemma table_graph_matching_weight (agents : list Agent) (right pieces : list (Piece Z))
    (m : list (node * node)) :
  let g := create_matching_graph agents right (evaluations_of agents pieces []) in
  is_matching g m ->
  exists w,
    calculate_weight g (fix_edges m) = inr w
    /\ build_allocation (fix_edges m) = inr (allocation_of_matching (fix_edges m))
    /\ (allocation_weight (allocation_of_matching (fix_edges m)) == w)%Q.
Proof.
  cbv zeta. intros Hm.
  set (g := create_matching_graph agents right (evaluations_of agents pieces [])) in *.
  destruct (table_graph_edges agents right pieces) as [Hg _]. fold g in Hg.
  destruct (fix_edges_matching g m Hm) as (_ & Hfst & _).
  assert (Hall : forall e, In e (fix_edges m) ->
                           get_edge_data g (fst e) (snd e) <> None).
  { intros e He. apply fix_edges_In in He. destruct He as (e' & He' & ->).
    destruct Hm as [Hjoin _].
    destruct (joinsb_fix_edge g e' Hg (Hjoin e' He')) as (a & p & w & -> & Hw).
    cbn [fst snd]. congruence. }
  destruct (calculate_weight_present g (fix_edges m) Hall) as (w & Hw & _).
  exists w. split; [ exact Hw | ]. split; [ apply build_allocation_matching; exact Hfst | ].
  rewrite allocation_weight_matching.
  unfold calculate_weight in Hw.
  destruct (calculate_weight_fold g node_value (fix_edges m)
              (table_graph_value agents right pieces) 0%Q w Hw) as [Hsum _].
  rewrite Hsum. ring.
Qed.

(** X13. Once [equally_sized_pieces] has called the solver for its two
    graphs, and the solver returned matchings of them, it returns an
    allocation (nothing after the solver calls raises): the allocation of
    the matching of the second graph when that one is strictly heavier, of
    the first otherwise; and its welfare is the larger of the two
    weights. *)
Theorem equally_sized_pieces_returns_heavier (agents : list Agent) (size : Q) :
  length (matching_graphs (log_of (equally_sized_pieces agents size))) = 2 ->
  (forall g, In g (matching_graphs (log_of (equally_sized_pieces agents size))) ->
             is_matching g (max_weight_matching g)) ->
  exists g0 gd w0 wd al,
    matching_graphs (log_of (equally_sized_pieces agents size)) = [g0; gd]
    /\ calculate_weight g0 (fix_edges (max_weight_matching g0)) = inr w0
    /\ calculate_weight gd (fix_edges (max_weight_matching gd)) = inr wd
    /\ result_of (equally_sized_pieces agents size) = inr al
    /\ al = allocation_of_matching
              (fix_edges (max_weight_matching (if Qltb w0 wd then gd else g0)))
    /\ (allocation_weight al == (if Qltb w0 wd then wd else w0))%Q
    /\ (w0 <= allocation_weight al)%Q
    /\ (wd <= allocation_weight al)%Q.
Proof.
  intros Hcalls Hcontract.
  assert (Hvalid : agents <> [] /\ (0 < size <= 1)%Q).
  { destruct agents as [| a agents].
    { destruct (equally_sized_pieces_invalid [] size (or_introl eq_refl)) as [msg Hm].
      rewrite Hm in Hcalls. discriminate Hcalls. }
    split; [ discriminate | ].
    destruct (negb (Qltb 0 size && Qle_bool size 1)) eqn:Hb.
    - exfalso.
      destruct (equally_sized_pieces_invalid (a :: agents) size) as [msg Hm].
      { right. intros Hv. apply valid_size_bool in Hv. congruence. }
      rewrite Hm in Hcalls. discriminate Hcalls.
    - apply valid_size_bool. exact Hb. }
  destruct Hvalid as [Hne Hv].
  destruct (equally_sized_pieces_graphs agents size Hne Hv)
    as (p0 & pd & len & g0 & gd & Hp0 & Hpd & Hlen & Hg0 & Hgd & Hgs & _).
  destruct (equally_sized_pieces_run agents size Hne Hv)
    as (p0' & pd' & len' & Hp0' & Hpd' & Hlen' & Hrun).
  assert (p0' = p0) by congruence. assert (pd' = pd) by congruence.
  assert (len' = len) by congruence. subst p0' pd' len'.
  cbv zeta in Hrun. rewrite <- Hg0, <- Hgd in Hrun.
  assert (Hm0 : is_matching g0 (max_weight_matching g0)).
  { apply Hcontract. rewrite Hgs. left. reflexivity. }
  assert (Hmd : is_matching gd (max_weight_matching gd)).
  { apply Hcontract. rewrite Hgs. right. left. reflexivity. }
  pose proof Hm0 as Hm0'. pose proof Hmd as Hmd'.
  rewrite Hg0 in Hm0'. rewrite Hgd in Hmd'.
  destruct (table_graph_matching_weight _ _ _ _ Hm0') as (w0 & Hw0 & Hb0 & Ha0).
  destruct (table_graph_matching_weight _ _ _ _ Hmd') as (wd & Hwd & Hbd & Had).
  rewrite <- Hg0 in Hw0, Hb0, Ha0. rewrite <- Hgd in Hwd, Hbd, Had.
  exists g0, gd, w0, wd.
  exists (allocation_of_matching
            (fix_edges (max_weight_matching (if Qltb w0 wd then gd else g0)))).
  split; [ exact Hgs | ]. split; [ exact Hw0 | ]. split; [ exact Hwd | ].
  split.
  { rewrite Hrun. cbn [result_of snd]. rewrite Hwd, Hw0. cbn [rbind].
    destruct (Qltb w0 wd); assumption. }
  split; [ reflexivity | ].
  destruct (Qltb w0 wd) eqn:Hb.
  - apply Qltb_true in Hb. rewrite Had. split; [ reflexivity | ]. split; lra.
  - apply Qltb_false in Hb. rewrite Ha0. split; [ reflexivity | ]. split; lra.
Qed.

End EquallySizedResult.

Lemma equally_sized_pieces_returns_heavier_witness :
  exists g0 gd w0 wd al,
    matching_graphs (log_of (equally_sized_pieces [Alice; Bob] (1 # 2))) = [g0; gd]
    /\ calculate_weight g0 (fix_edges (max_weight_matching g0)) = inr w0
    /\ calculate_weight gd (fix_edges (max_weight_matching gd)) = inr wd
    /\ result_of (equally_sized_pieces [Alice; Bob] (1 # 2)) = inr al
    /\ al = allocation_of_matching
              (fix_edges (max_weight_matching (if Qltb w0 wd then gd else g0)))
    /\ (allocation_weight al == (if Qltb w0 wd then wd else w0))%Q
    /\ (w0 <= allocation_weight al)%Q
    /\ (wd <= allocation_weight al)%Q.
Proof.
  apply (equally_sized_pieces_returns_heavier [Alice; Bob] (1 # 2)).
  - vm_compute. reflexivity.
  - intros g Hg. vm_compute in Hg.
    destruct Hg as [<- | [<- | []]]; apply is_matchingb_sound; vm_compute; reflexivity.
Defined.

(** ** Algorithm 2: result and work *)

Section DiscreteResult.
Context {Agent C : Type} `{EqDec Agent} `{EqDec C}.
Context `{Valuation Agent C} `{Solver Agent C}.
Local Abbreviation node := (Node Agent C).

Lemma length_list_update {A : Type} (l : list A) (i : nat) (v : A) :
  length (list_update l i v) = length l.
Proof.
  revert i. induction l as [| x l IH]; intros [| i]; simpl; auto.
Qed.

Lemma build_allocation_shape (m : list (node * node)) (al : Allocation Agent C) :
  build_allocation m = inr al ->
  alloc_agents al = map fst m /\ length (alloc_pieces al) = length m.
Proof.
  unfold build_allocation.
  assert (Hgen : forall (todo : list (node * node)) (al0 al1 : Allocation Agent C),
             fold_left (fun (al : res (Allocation Agent C)) (edge : node * node) =>
                          rbind al (fun al =>
                          match list_index (fst edge) (map fst m) with
                          | Some i => inr (set_piece al i [snd edge])
                          | None => inl (ValueError "x is not in list")
                          end))
                       todo (inr al0) = inr al1 ->
             alloc_agents al1 = alloc_agents al0
             /\ length (alloc_pieces al1) = length (alloc_pieces al0)).
  { induction todo as [| e todo IH]; intros al0 al1 Hf; simpl in Hf.
    - injection Hf as <-. auto.
    - destruct (list_index (fst e) (map fst m)) as [i |].
      + apply IH in Hf. destruct Hf as [Ha Hp]. rewrite Ha, Hp.
        unfold set_piece. cbn [alloc_agents alloc_pieces].
        rewrite length_list_update. auto.
      + exfalso. clear IH. induction todo as [| e' todo IH']; simpl in Hf;
          [ discriminate | auto ]. }
  intros Hb. apply Hgen in Hb. destruct Hb as [Ha Hp].
  unfold new_allocation in *. cbn [alloc_agents alloc_pieces] in *.
  rewrite repeat_length, length_map in Hp. auto.
Qed.

(** X15. [discrete_setting] never returns the allocation of no agent:
    when it returns, some level has positive weight, at least one agent is
    chosen, and every chosen agent has an entry in the list of pieces. *)
Theorem discrete_setting_never_empty (agents : list Agent) (pieces : list (Piece C))
    (al : Allocation Agent C) :
  result_of (discrete_setting agents pieces) = inr al ->
  alloc_agents al <> []
  /\ length (alloc_pieces al) = length (alloc_agents al)
  /\ exists t0 w0,
       t0 <= Nat.log2 (length pieces)
       /\ level_weight agents pieces t0 = inr w0
       /\ (0 < w0)%Q.
Proof.
  intros Hres.
  destruct (discrete_setting_inv agents pieces al Hres)
    as (t0 & m0 & w0 & Ht0 & Hl0 & Hpos & Hal & _).
  destruct (build_allocation_shape m0 al Hal) as [Hagents Hlen].
  destruct (discrete_level_inv agents pieces t0 m0 w0 Hl0) as (part & _ & _ & Hw & _).
  split; [ | split ].
  - rewrite Hagents. destruct m0 as [| e m0]; [ | discriminate ].
    exfalso. cbn in Hw. injection Hw as <-. revert Hpos. apply Qlt_irrefl.
  - rewrite Hagents, length_map. exact Hlen.
  - exists t0, w0. unfold level_weight. rewrite Hl0. auto.
Qed.

Lemma list_sum_firstn (k : nat) (l : list nat) : list_sum (firstn k l) <= list_sum l.
Proof.
  revert k. induction l as [| x l IH]; intros [| k]; simpl; try lia.
  specialize (IH k). lia.
Qed.

Lemma levels_pieces_bound (m r : nat) : levels_pieces m r <= 2 * m.
Proof.
  unfold levels_pieces.
  assert (Hstrong : list_sum (map (fun t => m / 2 ^ t) (seq 0 (r + 1))) + m / 2 ^ r
                    <= 2 * m).
  { induction r as [| r IH].
    - change (seq 0 (0 + 1)) with [0]. cbn [map list_sum].
      change (2 ^ 0) with 1. rewrite Nat.div_1_r.
      change (list_sum [m]) with (m + 0). lia.
    - replace (S r + 1) with (S (r + 1)) by lia.
      rewrite seq_S, map_app, list_sum_app. cbn [map Nat.add].
      replace (r + 1) with (S r) in * by lia.
      change (list_sum [m / 2 ^ S r]) with (m / 2 ^ S r + 0).
      assert (Hhalf : 2 * (m / 2 ^ S r) <= m / 2 ^ r).
      { replace (2 ^ S r) with (2 ^ r * 2) by (rewrite Nat.pow_succ_r'; lia).
        rewrite <- Nat.Div0.div_div.
        pose proof (Nat.Div0.mul_div_le (m / 2 ^ r) 2). lia. }
      lia. }
  lia.
Qed.

Variable agents : list Agent.
Variable pieces : list (Piece C).

Lemma discrete_loop_log (ts : list nat) :
  forall st,
    exists k,
      k <= length ts
      /\ log_of (for_each ts st (discrete_body agents pieces))
         = flat_map (fun t => log_of (discrete_level agents pieces t)) (firstn k ts)
      /\ (forall st', result_of (for_each ts st (discrete_body agents pieces)) = inr st' ->
                      k = length ts).
Proof.
  induction ts as [| t ts IH]; intros st.
  - exists 0. split; [ lia | ]. split; [ reflexivity | auto ].
  - cbn [for_each].
    destruct (result_of (discrete_body agents pieces st t)) as [e | s1] eqn:Hb.
    + exists 1. split; [ simpl; lia | ]. split.
      * rewrite (log_bind_err _ _ e Hb), discrete_body_run. simpl.
        rewrite app_nil_r. reflexivity.
      * intros st' Hres. rewrite result_bind, Hb in Hres. discriminate.
    + destruct (IH s1) as (k & Hk & Hlog & Hfull).
      exists (S k). split; [ simpl; lia | ]. split.
      * rewrite (log_bind_ok _ _ s1 Hb), discrete_body_run, Hlog. reflexivity.
      * intros st' Hres. rewrite result_bind, Hb in Hres. cbn [rbind] in Hres.
        rewrite (Hfull st' Hres). reflexivity.
Qed.

Lemma bind_lift_inr {A B : Type} (a : A) (f : A -> M Agent C B) :
  bind (lift (inr a)) f = f a.
Proof. unfold bind, lift. destruct (f a) as [l r]. reflexivity. Qed.

Lemma discrete_setting_log :
  exists k,
    k <= Nat.log2 (length pieces) + 1
    /\ log_of (discrete_setting agents pieces)
       = flat_map (fun t => log_of (discrete_level agents pieces t))
                  (firstn k (seq 0 (Nat.log2 (length pieces) + 1)))
    /\ (forall al, result_of (discrete_setting agents pieces) = inr al ->
                   k = Nat.log2 (length pieces) + 1).
Proof.
  unfold discrete_setting.
  destruct (int_log2 (length pieces)) as [e | r] eqn:Hm.
  { exists 0. split; [ lia | ]. split; [ reflexivity | ]. intros al Hres. discriminate Hres. }
  assert (Hr : r = Nat.log2 (length pieces)).
  { unfold int_log2 in Hm. destruct (length pieces); [ discriminate Hm | ].
    injection Hm as <-. reflexivity. }
  rewrite bind_lift_inr. rewrite <- Hr.
  destruct (discrete_loop_log (seq 0 (r + 1)) (0%Q, None)) as (k & Hk & Hlog & Hfull).
  rewrite length_seq in Hk, Hfull.
  exists k. split; [ exact Hk | ]. split.
  - destruct (result_of (for_each (seq 0 (r + 1)) (0%Q, None) (discrete_body agents pieces)))
      as [e | st] eqn:Hloop.
    + rewrite (log_bind_err _ _ e Hloop). exact Hlog.
    + rewrite (log_bind_ok _ _ st Hloop).
      destruct (snd st); unfold lift, raise, log_of at 2; cbn [fst];
        rewrite app_nil_r; exact Hlog.
  - intros al Hres. destruct (bind_inr _ _ _ Hres) as (st & Hst & _).
    exact (Hfull st Hst).
Qed.
Lemma discrete_level_matchings (t : nat) :
  length (matching_graphs (log_of (discrete_level agents pieces t))) = 1.
Proof.
  destruct (discrete_level_log agents pieces t) as (part & _ & ->).
  change (EvCoarsen t :: ?l) with ([@EvCoarsen Agent C t] ++ l).
  rewrite !matching_graphs_app, matching_graphs_evaluations. reflexivity.
Qed.

Lemma discrete_level_queries (t : nat) (a : Agent) :
  length (queries_of a (log_of (discrete_level agents pieces t)))
  = count_occ eq_dec agents a * (length pieces / 2 ^ t).
Proof.
  destruct (discrete_level_log agents pieces t) as (part & Hpart & ->).
  destruct (change_partition_pieces pieces t) as (out & Hout & Hlen & _).
  rewrite Hout in Hpart. injection Hpart as ->.
  change (EvCoarsen t :: ?l) with ([@EvCoarsen Agent C t] ++ l).
  rewrite !queries_of_app, !length_app, queries_of_evaluation_events, Hlen.
  cbn. lia.
Qed.

Lemma discrete_levels_matchings (ts : list nat) :
  length (matching_graphs
            (flat_map (fun t => log_of (discrete_level agents pieces t)) ts))
  = length ts.
Proof.
  induction ts as [| t ts IH]; cbn [flat_map length]; [ reflexivity | ].
  rewrite matching_graphs_app, length_app, discrete_level_matchings, IH. reflexivity.
Qed.

Lemma discrete_levels_queries (ts : list nat) (a : Agent) :
  length (queries_of a
            (flat_map (fun t => log_of (discrete_level agents pieces t)) ts))
  = count_occ eq_dec agents a * list_sum (map (fun t => length pieces / 2 ^ t) ts).
Proof.
  induction ts as [| t ts IH]; cbn [flat_map map].
  - cbn. lia.
  - rewrite queries_of_app, length_app, discrete_level_queries, IH.
    change (list_sum (?x :: ?l)) with (x + list_sum l). lia.
Qed.

(** X16. The work of [discrete_setting].  The solver is called at most
    [floor(log2 m) + 1] times and every agent is asked for at most [2 m]
    values per occurrence in the list of agents, [m] being the number of
    pieces; a run that returns made exactly one solver call per level and
    asked every agent once for every piece of every level. *)
Theorem discrete_setting_work :
  let log := log_of (discrete_setting agents pieces) in
  let m := length pieces in
  length (matching_graphs log) <= Nat.log2 m + 1
  /\ (forall a, length (queries_of a log) <= count_occ eq_dec agents a * (2 * m))
  /\ (forall al,
        result_of (discrete_setting agents pieces) = inr al ->
        length (matching_graphs log) = Nat.log2 m + 1
        /\ forall a, length (queries_of a log)
                     = count_occ eq_dec agents a * levels_pieces m (Nat.log2 m)).
Proof.
  cbv zeta.
  destruct discrete_setting_log as (k & Hk & Hlog & Hfull).
  rewrite Hlog. set (r := Nat.log2 (length pieces)) in *.
  split; [ | split ].
  - rewrite discrete_levels_matchings, length_firstn, length_seq. lia.
  - intros a. rewrite discrete_levels_queries, <- firstn_map.
    pose proof (list_sum_firstn k (map (fun t => length pieces / 2 ^ t) (seq 0 (r + 1))))
      as Hle.
    pose proof (levels_pieces_bound (length pieces) r) as Hb.
    unfold levels_pieces in Hb.
    apply Nat.mul_le_mono_l. lia.
  - intros al Hres. rewrite (Hfull al Hres).
    rewrite firstn_all2 by (rewrite length_seq; lia).
    split.
    + rewrite discrete_levels_matchings, length_seq. reflexivity.
    + intros a. rewrite discrete_levels_queries. reflexivity.
Qed.
Lemma discrete_setting_matchings_le :
  length (matching_graphs (log_of (discrete_setting agents pieces)))
  <= Nat.log2 (length pieces) + 1.
Proof.
  destruct discrete_setting_log as (k & Hk & -> & _).
  rewrite discrete_levels_matchings, length_firstn, length_seq. lia.
Qed.

Lemma discrete_setting_queries_le (a : Agent) :
  length (queries_of a (log_of (discrete_setting agents pieces)))
  <= count_occ eq_dec agents a * (2 * length pieces).
Proof.
  destruct discrete_setting_log as (k & Hk & -> & _).
  rewrite discrete_levels_queries, <- firstn_map.
  pose proof (list_sum_firstn k (map (fun t => length pieces / 2 ^ t)
                                     (seq 0 (Nat.log2 (length pieces) + 1)))) as Hle.
  pose proof (levels_pieces_bound (length pieces) (Nat.log2 (length pieces))) as Hb.
  unfold levels_pieces in Hb.
  apply Nat.mul_le_mono_l. lia.
Qed.

Lemma mark_queries_evaluation_events (part : list (Piece C)) :
  mark_queries (evaluation_events agents part) = [].
Proof.
  unfold evaluation_events, mark_queries.
  induction part as [| p part IH]; cbn [flat_map]; [ reflexivity | ].
  rewrite flat_map_app, IH, app_nil_r.
  clear IH. induction agents as [| a l IHa]; cbn [map flat_map app]; auto.
Qed.

Lemma discrete_setting_marks :
  mark_queries (log_of (discrete_setting agents pieces)) = [].
Proof.
  destruct discrete_setting_log as (k & _ & -> & _).
  induction (firstn k (seq 0 (Nat.log2 (length pieces) + 1))) as [| t ts IH];
    cbn [flat_map]; [ reflexivity | ].
  unfold mark_queries in *. rewrite flat_map_app, IH, app_nil_r.
  destruct (discrete_level_log agents pieces t) as (part & _ & ->).
  change (EvCoarsen t :: ?l) with ([@EvCoarsen Agent C t] ++ l).
  rewrite !flat_map_app.
  fold (mark_queries (evaluation_events agents part)).
  rewrite mark_queries_evaluation_events. reflexivity.
Qed.

Lemma discrete_setting_one_piece_each (al : Allocation Agent C) :
  result_of (discrete_setting agents pieces) = inr al ->
  (forall g, In g (matching_graphs (log_of (discrete_setting agents pieces))) ->
             is_matching g (max_weight_matching g)) ->
  exists g,
    In g (matching_graphs (log_of (discrete_setting agents pieces)))
    /\ one_piece_each agents (fix_edges (max_weight_matching g)) al.
Proof.
  intros Hres Hcontract.
  destruct (discrete_setting_inv agents pieces al Hres)
    as (t0 & m0 & w0 & Ht0 & Hl0 & _ & Hal & Hall & _).
  destruct (discrete_level_inv agents pieces t0 m0 w0 Hl0)
    as (part & _ & Hm0 & _ & Hlog0).
  exists (level_graph agents part).
  assert (Hin : In (level_graph agents part)
                   (matching_graphs (log_of (discrete_setting agents pieces)))).
  { apply matching_graphs_In.
    destruct (Hall t0 Ht0) as (m & w & _ & _ & Hincl).
    apply Hincl. rewrite Hlog0. right. apply in_or_app. right. simpl. auto. }
  split; [ exact Hin | ]. subst m0.
  destruct (table_graph_edges agents part part) as [Hg Hag].
  apply (build_allocation_one_piece_each agents (level_graph agents part)); auto.
Qed.
End DiscreteResult.

Lemma discrete_setting_never_empty_witness :
  exists al,
    result_of (discrete_setting [Alice; Bob] [(0, 1); (1, 2)]%Z) = inr al
    /\ alloc_agents al <> []
    /\ length (alloc_pieces al) = length (alloc_agents al)
    /\ exists t0 w0,
         t0 <= Nat.log2 2
         /\ level_weight [Alice; Bob] [(0, 1); (1, 2)]%Z t0 = inr w0
         /\ (0 < w0)%Q.
Proof.
  eexists. split; [ vm_compute; reflexivity | ].
  apply (discrete_setting_never_empty [Alice; Bob] [(0, 1); (1, 2)]%Z).
  vm_compute. reflexivity.
Defined.

(** ** Algorithm 3: queries, work and the sample *)

Section ContinuousRun.
Context {Agent C : Type} `{EqDec Agent} `{EqDec C}.
Context `{Valuation Agent C} `{Cake Agent} `{Marking Agent C} `{Solver Agent C}.

Lemma mark_queries_app (l1 l2 : list (Event Agent C)) :
  mark_queries (l1 ++ l2) = mark_queries l1 ++ mark_queries l2.
Proof. unfold mark_queries. apply flat_map_app. Qed.

Lemma mark_loop_log (a : Agent) (n count : nat) :
  forall start partitions,
    log_of (mark_loop a n count start partitions)
    = map (fun st => EvMark a st (cake_value a / inject_Z (Z.of_nat (2 * n)))%Q)
          (firstn count (start :: probe_points a n count start)).
Proof.
  induction count as [| count IH]; intros start partitions; [ reflexivity | ].
  cbn [mark_loop probe_points].
  set (v := (cake_value a / inject_Z (Z.of_nat (2 * n)))%Q) in *.
  rewrite (log_bind_ok (call_mark a start v) _ (mark a start v) eq_refl).
  change (log_of (call_mark a start v)) with [@EvMark Agent C a start v].
  destruct (mark a start v) as [e |].
  - rewrite IH. reflexivity.
  - cbn [firstn map]. rewrite firstn_nil. reflexivity.
Qed.

Lemma probing_log (n : nat) (s : list Agent) :
  forall partitions,
    log_of (for_each s partitions (fun partitions a =>
              mark_loop a n (2 * n) coord_zero partitions))
    = flat_map (fun a =>
                  map (fun st => EvMark a st (cake_value a / inject_Z (Z.of_nat (2 * n)))%Q)
                      (firstn (2 * n)
                              (coord_zero :: probe_points a n (2 * n) coord_zero)))
               s.
Proof.
  induction s as [| a s IH]; intros partitions; [ reflexivity | ].
  cbn [for_each flat_map].
  rewrite (log_bind_ok _ _ _ (mark_loop_result a n (2 * n) coord_zero partitions)).
  rewrite mark_loop_log, IH. reflexivity.
Qed.

Lemma continuous_setting_log (draws : nat -> nat) (agents : list Agent) :
  let n := length agents in
  let s := random_choices draws agents (n / 2) in
  exists b0 bs,
    boundaries_J n s = b0 :: bs
    /\ log_of (continuous_setting draws agents)
       = flat_map (fun a =>
                     map (fun st => EvMark a st
                                      (cake_value a / inject_Z (Z.of_nat (2 * n)))%Q)
                         (firstn (2 * n)
                                 (coord_zero :: probe_points a n (2 * n) coord_zero)))
                  s
         ++ log_of (discrete_setting (set_difference agents s)
                      (boundaries_to_pieces b0 bs))
    /\ result_of (continuous_setting draws agents)
       = result_of (discrete_setting (set_difference agents s)
                      (boundaries_to_pieces b0 bs)).
Proof.
  cbv zeta. set (n := length agents). set (s := random_choices draws agents (n / 2)).
  destruct (continuous_setting_result draws agents) as (b0 & bs & HJ & Hres).
  fold n in HJ, Hres. fold s in HJ, Hres.
  exists b0, bs. split; [ exact HJ | ]. split; [ | exact Hres ].
  unfold continuous_setting. fold n. fold s.
  rewrite (log_bind_ok _ _ _ (probing_result n s (set_add coord_zero []))).
  rewrite probing_log. f_equal.
  change (fold_left (fun s0 x => set_add x s0)
            (flat_map (fun a => probe_points a n (2 * n) coord_zero) s)
            (set_add coord_zero []))
    with (to_set (coord_zero :: flat_map (fun a => probe_points a n (2 * n) coord_zero) s)).
  fold (boundaries_J n s). rewrite HJ.
  change (py_index (b0 :: bs) 0) with (@inr exn C b0).
  rewrite bind_lift_inr. reflexivity.
Qed.

Lemma length_insert_sorted (x : C) (l : list C) :
  length (insert_sorted x l) = S (length l).
Proof.
  induction l as [| y l IH]; simpl; [ reflexivity | ].
  destruct (coord_leb x y); simpl; auto.
Qed.

Lemma length_sorted (l : list C) : length (sorted l) = length l.
Proof.
  unfold sorted. induction l as [| x l IH]; simpl; [ reflexivity | ].
  rewrite length_insert_sorted, IH. reflexivity.
Qed.

Lemma length_probe_points (a : Agent) (n count : nat) :
  forall start, length (probe_points a n count start) <= count.
Proof.
  induction count as [| count IH]; intros start; cbn [probe_points]; [ simpl; lia | ].
  destruct (mark a start _) as [e |]; simpl; [ | lia ].
  specialize (IH (round4 e)). lia.
Qed.

Lemma length_boundaries_to_pieces (parts : list C) :
  forall start, length (boundaries_to_pieces start parts) = length parts.
Proof.
  induction parts as [| p parts IH]; intros start; simpl; auto.
Qed.

Lemma length_random_choices (draws : nat -> nat) (agents : list Agent) (k : nat) :
  length (random_choices draws agents k) <= k.
Proof.
  unfold random_choices.
  pose proof (length_seq k 0) as Hk. revert Hk.
  generalize (seq 0 k). intros js Hk. subst k.
  induction js as [| j js IH]; cbn [flat_map]; [ simpl; lia | ].
  rewrite length_app. destruct (nth_error agents _); simpl in *; lia.
Qed.

Lemma random_choices_In (draws : nat -> nat) (agents : list Agent) (k : nat) (a : Agent) :
  In a (random_choices draws agents k) -> In a agents.
Proof.
  unfold random_choices. rewrite in_flat_map. intros (j & _ & Hj).
  destruct (nth_error agents _) as [b |] eqn:Hb; [ | destruct Hj ].
  destruct Hj as [<- | []]. apply (nth_error_In _ _ Hb).
Qed.

Lemma length_flat_map_le {A B : Type} (f : A -> list B) (l : list A) (k : nat) :
  (forall x, length (f x) <= k) -> length (flat_map f l) <= length l * k.
Proof.
  intros Hf. induction l as [| x l IH]; cbn [flat_map]; [ simpl; lia | ].
  rewrite length_app. specialize (Hf x). simpl. lia.
Qed.

Lemma half_twice_le (n : nat) : n / 2 * (2 * n) <= n * n.
Proof.
  pose proof (Nat.Div0.mul_div_le n 2) as Hle. nia.
Qed.

Lemma pieces_of_J_le (draws : nat -> nat) (agents : list Agent) (b0 : C) (bs : list C) :
  let n := length agents in
  let s := random_choices draws agents (n / 2) in
  boundaries_J n s = b0 :: bs ->
  length (boundaries_to_pieces b0 bs) <= n * n.
Proof.
  cbv zeta. set (n := length agents). set (s := random_choices draws agents (n / 2)).
  intros HJ. rewrite length_boundaries_to_pieces.
  assert (Hlen : length (boundaries_J n s) = S (length bs)) by (rewrite HJ; reflexivity).
  unfold boundaries_J in Hlen. rewrite length_sorted in Hlen.
  pose proof (fold_set_add_length
                (coord_zero :: flat_map (fun a => probe_points a n (2 * n) coord_zero) s) [])
    as Hset.
  fold (to_set (coord_zero :: flat_map (fun a => probe_points a n (2 * n) coord_zero) s))
    in Hset.
  cbn [length] in Hset.
  pose proof (length_flat_map_le (fun a => probe_points a n (2 * n) coord_zero) s (2 * n)
                (fun a => length_probe_points a n (2 * n) coord_zero)) as Hpp.
  pose proof (length_random_choices draws agents (n / 2)) as Hs. fold s in Hs.
  pose proof (half_twice_le n) as Hn.
  assert (Hmul : length s * (2 * n) <= n / 2 * (2 * n))
    by (apply Nat.mul_le_mono_r; exact Hs).
  lia.
Qed.

(** X17. [continuous_setting] needs two agents: with no agent or one
    agent nobody is sampled, partition J has no piece, and the call ends in
    the [ValueError] of the logarithm of zero, before any query. *)
Theorem continuous_setting_needs_two_agents (draws : nat -> nat) (agents : list Agent) :
  length agents <= 1 ->
  continuous_setting draws agents = ([], inl (ValueError "math domain error")).
Proof.
  intros Hlen. destruct agents as [| a [| b l]]; [ reflexivity | reflexivity | ].
  simpl in Hlen. lia.
Qed.

(** X18. Who is asked what by [continuous_setting].  The boundary queries
    are those of the sampled agents, in the order of the sample: each is
    asked for a mark from 0 and then from every point it reported, at most
    [2 n] times, always for the value [cake_value / (2 n)].  Values of
    pieces are asked only of agents outside the sample. *)
Theorem continuous_setting_queries (draws : nat -> nat) (agents : list Agent) :
  let n := length agents in
  let s := random_choices draws agents (n / 2) in
  let log := log_of (continuous_setting draws agents) in
  mark_queries log
  = flat_map (fun a =>
                map (fun st => (a, st, (cake_value a / inject_Z (Z.of_nat (2 * n)))%Q))
                    (firstn (2 * n) (coord_zero :: probe_points a n (2 * n) coord_zero)))
             s
  /\ (forall a start v, In (a, start, v) (mark_queries log) -> In a s)
  /\ (forall a, queries_of a log <> [] -> In a agents /\ ~ In a s).
Proof.
  cbv zeta. set (n := length agents). set (s := random_choices draws agents (n / 2)).
  destruct (continuous_setting_log draws agents) as (b0 & bs & _ & Hlog & _).
  fold n in Hlog. fold s in Hlog. rewrite Hlog.
  assert (Hmarks :
    mark_queries
      (flat_map (fun a =>
                   map (fun st => @EvMark Agent C a st
                                    (cake_value a / inject_Z (Z.of_nat (2 * n)))%Q)
                       (firstn (2 * n) (coord_zero :: probe_points a n (2 * n) coord_zero)))
                s)
    = flat_map (fun a =>
                  map (fun st => (a, st, (cake_value a / inject_Z (Z.of_nat (2 * n)))%Q))
                      (firstn (2 * n) (coord_zero :: probe_points a n (2 * n) coord_zero)))
               s).
  { generalize s. intros l. induction l as [| a l IH]; cbn [flat_map]; [ reflexivity | ].
    rewrite mark_queries_app, IH. f_equal.
    generalize (firstn (2 * n) (coord_zero :: probe_points a n (2 * n) coord_zero)).
    intros sts. induction sts as [| st sts IHs]; [ reflexivity | ].
    cbn [map]. rewrite <- IHs. reflexivity. }
  assert (Hq : forall a,
    queries_of a
      (flat_map (fun a =>
                   map (fun st => @EvMark Agent C a st
                                    (cake_value a / inject_Z (Z.of_nat (2 * n)))%Q)
                       (firstn (2 * n) (coord_zero :: probe_points a n (2 * n) coord_zero)))
                s)
    = []).
  { intros a. generalize s. intros l.
    induction l as [| b l IH]; cbn [flat_map]; [ reflexivity | ].
    rewrite queries_of_app, IH, app_nil_r.
    generalize (firstn (2 * n) (coord_zero :: probe_points b n (2 * n) coord_zero)).
    intros sts. induction sts as [| st sts IHs]; [ reflexivity | exact IHs ]. }
  rewrite mark_queries_app, discrete_setting_marks, app_nil_r, Hmarks.
  split; [ reflexivity | ]. split.
  - intros a start v Hin. apply in_flat_map in Hin. destruct Hin as (b & Hb & Hin).
    apply in_map_iff in Hin. destruct Hin as (st & Heq & _).
    injection Heq as <- _ _. exact Hb.
  - intros a Hne. rewrite queries_of_app, Hq in Hne. cbn [app] in Hne.
    pose proof (discrete_setting_queries_le (set_difference agents s)
                  (boundaries_to_pieces b0 bs) a) as Hle.
    destruct (in_dec eq_dec a (set_difference agents s)) as [Hin | Hout].
    + apply set_difference_In. exact Hin.
    + exfalso. apply Hne.
      rewrite (proj1 (count_occ_not_In eq_dec _ a) Hout) in Hle.
      destruct (queries_of a _); [ reflexivity | simpl in Hle; lia ].
Qed.

(** X19. The work of [continuous_setting] on [n] agents: at most [n^2]
    boundary queries in all, at most [n^2 + 1] boundaries (so at most
    [n^2] pieces) in partition J, at most [2 n^2] values asked of any
    agent, and at most [floor(log2 (n^2)) + 1] calls of the matching
    solver. *)
Theorem continuous_setting_work (draws : nat -> nat) (agents : list Agent) :
  let n := length agents in
  let s := random_choices draws agents (n / 2) in
  let log := log_of (continuous_setting draws agents) in
  length (mark_queries log) <= n * n
  /\ length (boundaries_J n s) <= n * n + 1
  /\ (forall a, length (queries_of a log) <= 2 * (n * n))
  /\ length (matching_graphs log) <= Nat.log2 (n * n) + 1.
Proof.
  cbv zeta. set (n := length agents). set (s := random_choices draws agents (n / 2)).
  destruct (continuous_setting_log draws agents) as (b0 & bs & HJ & Hlog & _).
  fold n in HJ, Hlog. fold s in HJ, Hlog. rewrite Hlog.
  pose proof (pieces_of_J_le draws agents b0 bs HJ) as Hm. fold n in Hm.
  set (probes := flat_map _ s) in *.
  assert (Hlenp : length (mark_queries probes) <= length probes).
  { unfold mark_queries. generalize probes. intros l.
    induction l as [| ev l IH]; cbn [flat_map]; [ simpl; lia | ].
    rewrite length_app. destruct ev; simpl; lia. }
  assert (Hlenprobes : length probes <= n * n).
  { unfold probes.
    pose proof (length_flat_map_le
                  (fun a => map (fun st => @EvMark Agent C a st
                                             (cake_value a / inject_Z (Z.of_nat (2 * n)))%Q)
                                (firstn (2 * n)
                                   (coord_zero :: probe_points a n (2 * n) coord_zero)))
                  s (2 * n)) as Hfm.
    assert (Hs : length s <= n / 2) by apply length_random_choices.
    pose proof (half_twice_le n) as Hn.
    assert (Hmul : length s * (2 * n) <= n / 2 * (2 * n))
      by (apply Nat.mul_le_mono_r; exact Hs).
    assert (Hall : forall a,
               length (map (fun st => @EvMark Agent C a st
                                        (cake_value a / inject_Z (Z.of_nat (2 * n)))%Q)
                           (firstn (2 * n)
                              (coord_zero :: probe_points a n (2 * n) coord_zero)))
               <= 2 * n).
    { intros a. rewrite length_map. apply firstn_le_length. }
    specialize (Hfm Hall). lia. }
  assert (Hqprobes : forall a, queries_of a probes = []).
  { intros a. unfold probes. generalize s. intros l.
    induction l as [| b l IH]; cbn [flat_map]; [ reflexivity | ].
    rewrite queries_of_app, IH, app_nil_r.
    generalize (firstn (2 * n) (coord_zero :: probe_points b n (2 * n) coord_zero)).
    intros sts. induction sts as [| st sts IHs]; [ reflexivity | exact IHs ]. }
  assert (Hgprobes : matching_graphs probes = []).
  { unfold probes. generalize s. intros l.
    induction l as [| b l IH]; cbn [flat_map]; [ reflexivity | ].
    rewrite matching_graphs_app, IH, app_nil_r.
    generalize (firstn (2 * n) (coord_zero :: probe_points b n (2 * n) coord_zero)).
    intros sts. induction sts as [| st sts IHs]; [ reflexivity | exact IHs ]. }
  split; [ | split; [ | split ] ].
  - rewrite mark_queries_app, discrete_setting_marks, app_nil_r. lia.
  - rewrite HJ. rewrite length_boundaries_to_pieces in Hm. simpl. lia.
  - intros a. rewrite queries_of_app, Hqprobes. cbn [app].
    pose proof (discrete_setting_queries_le (set_difference agents s)
                  (boundaries_to_pieces b0 bs) a) as Hle.
    assert (Hocc : count_occ eq_dec (set_difference agents s) a <= 1).
    { apply NoDup_count_occ. apply set_difference_NoDup. }
    nia.
  - rewrite matching_graphs_app, Hgprobes. cbn [app].
    pose proof (discrete_setting_matchings_le (set_difference agents s)
                  (boundaries_to_pieces b0 bs)) as Hle.
    pose proof (Nat.log2_le_mono _ _ Hm) as Hlog2. lia.
Qed.

(** X20. The agents of the sample get nothing: when [continuous_setting]
    returns an allocation (the solver having returned matchings on the
    graphs it was given), every agent in it is an agent of the input that
    was not sampled, it holds exactly one piece, and no two agents hold
    the same piece. *)
Theorem continuous_setting_sample_gets_nothing (draws : nat -> nat)
    (agents : list Agent) (al : Allocation Agent C) :
  let n := length agents in
  let s := random_choices draws agents (n / 2) in
  result_of (continuous_setting draws agents) = inr al ->
  (forall g, In g (matching_graphs (log_of (continuous_setting draws agents))) ->
             is_matching g (max_weight_matching g)) ->
  NoDup (alloc_agents al)
  /\ NoDup (assigned_pieces al)
  /\ forall i node, nth_error (alloc_agents al) i = Some node ->
        exists a p, node = inl a /\ In a agents /\ ~ In a s
                    /\ nth_error (alloc_pieces al) i = Some (Some [inr p]).
Proof.
  cbv zeta. set (n := length agents). set (s := random_choices draws agents (n / 2)).
  intros Hres Hcontract.
  destruct (continuous_setting_log draws agents) as (b0 & bs & _ & Hlog & Hr).
  fold n in Hlog, Hr. fold s in Hlog, Hr.
  rewrite Hr in Hres.
  destruct (discrete_setting_one_piece_each (set_difference agents s)
              (boundaries_to_pieces b0 bs) al Hres) as (g & _ & Hone).
  { intros g Hg. apply Hcontract. rewrite Hlog, matching_graphs_app.
    apply in_or_app. right. exact Hg. }
  destruct Hone as (_ & Hnd & Hndp & Hnth & _).
  split; [ exact Hnd | ]. split; [ exact Hndp | ].
  intros i node Hi. destruct (Hnth i node Hi) as (a & p & -> & Ha & Hp & _).
  apply set_difference_In in Ha. destruct Ha as [Ha Hs].
  exists a, p. auto.
Qed.
End ContinuousRun.

Lemma continuous_setting_needs_two_agents_witness :
  continuous_setting (fun _ : nat => 0) [Alice]
  = ([], inl (ValueError "math domain error")).
Proof.
  apply (continuous_setting_needs_two_agents (fun _ : nat => 0) [Alice]).
  simpl. lia.
Defined.

Lemma continuous_setting_sample_gets_nothing_witness :
  let agents := [Alice; mkPC 1 [100; 1]%Z] in
  let s := random_choices (fun _ : nat => 0) agents (length agents / 2) in
  exists al,
    result_of (continuous_setting (fun _ : nat => 0) agents) = inr al
    /\ NoDup (alloc_agents al)
    /\ NoDup (assigned_pieces al)
    /\ forall i node, nth_error (alloc_agents al) i = Some node ->
          exists a p, node = inl a /\ In a agents /\ ~ In a s
                      /\ nth_error (alloc_pieces al) i = Some (Some [inr p]).
Proof.
  cbv zeta. eexists. split; [ vm_compute; reflexivity | ].
  apply (continuous_setting_sample_gets_nothing (fun _ : nat => 0)
           [Alice; mkPC 1 [100; 1]%Z]).
  - vm_compute. reflexivity.
  - intros g Hg. vm_compute in Hg.
    destruct Hg as [<- | [<- | [<- | []]]];
      apply is_matchingb_sound; vm_compute; reflexivity.
Defined.

(* ================================================================== *)
(** * The order of the pieces *)

Section AllocatedPieces.
Context {Agent C : Type} `{EqDec Agent} `{EqDec C}.
Local Abbreviation node := (Node Agent C).

(** Every piece of the allocation of a normalised matching is the end of
    an edge of the graph. *)
Lemma allocated_pieces_edges (agents : list Agent) (g : Graph Agent C)
    (m0 : list (node * node)) (al : Allocation Agent C) :
  agent_to_piece g -> is_matching g m0 ->
  one_piece_each agents (fix_edges m0) al ->
  forall x, In x (assigned_pieces al) ->
    exists a p w, x = inr p /\ get_edge_data g (inl a) (inr p) = Some w.
Proof.
  intros Hg [Hjoin _] (Hal & _) x Hx. subst al.
  rewrite assigned_pieces_matching in Hx.
  apply in_map_iff in Hx. destruct Hx as (e & <- & He).
  apply fix_edges_In in He. destruct He as (e' & He' & ->).
  destruct (joinsb_fix_edge g e' Hg (Hjoin e' He')) as (a & p & w & -> & Hw).
  exists a, p, w. auto.
Qed.
End AllocatedPieces.

Section DiscretePieces.
Context {Agent C : Type} `{EqDec Agent} `{EqDec C}.
Context `{Valuation Agent C} `{Solver Agent C}.
Variable agents : list Agent.
Variable pieces : list (Piece C).

(** A coarsened piece runs from the start of an input piece to the end
    of the same or a later one. *)
Lemma coarsened_piece (t : nat) (part : list (Piece C)) (p : Piece C) :
  change_partition pieces t = inr part -> In p part ->
  exists i j ps pe,
    i <= j /\ nth_error pieces i = Some ps /\ nth_error pieces j = Some pe
    /\ p = (fst ps, snd pe).
Proof.
  intros Hpart Hp.
  destruct (change_partition_pieces pieces t) as (out & Hout & Hlen & Hnth).
  assert (out = part) by congruence. subst out.
  destruct (In_nth_error _ _ Hp) as [i Hi].
  assert (Hlt : i < length pieces / 2 ^ t).
  { rewrite <- Hlen. exact (nth_error_lt _ _ _ Hi). }
  destruct (Hnth i Hlt) as (ps & pe & Hps & Hpe & Hi').
  exists (i * 2 ^ t), ((i + 1) * 2 ^ t - 1), ps, pe.
  assert (Hpow : 1 <= 2 ^ t).
  { pose proof (Nat.pow_nonzero 2 t). lia. }
  split; [ nia | ]. split; [ exact Hps | ]. split; [ exact Hpe | ].
  rewrite Hi in Hi'. congruence.
Qed.

(** The events of a run: every event belongs to a level, and the pieces
    evaluated at a level are those of its coarsened partition. *)
Lemma discrete_setting_events (ev : Event Agent C) :
  In ev (log_of (discrete_setting agents pieces)) ->
  exists t part,
    change_partition pieces t = inr part
    /\ (ev = EvCoarsen t
        \/ (exists a p, ev = EvEval a p /\ In p part)
        \/ ev = EvMatch (level_graph agents part)).
Proof.
  intros Hev.
  destruct (discrete_setting_log agents pieces) as (k & _ & Hlog & _).
  rewrite Hlog in Hev. apply in_flat_map in Hev. destruct Hev as (t & _ & Hev).
  destruct (discrete_level_log agents pieces t) as (part & Hpart & Hl).
  rewrite Hl in Hev. exists t, part. split; [ exact Hpart | ].
  destruct Hev as [<- | Hev]; [ left; reflexivity | ].
  apply in_app_iff in Hev. destruct Hev as [Hev | [<- | []]].
  - right. left. apply evaluation_events_In in Hev.
    destruct Hev as (a & p & -> & _ & Hp). eauto.
  - right. right. reflexivity.
Qed.
End DiscretePieces.

Section StrictBoundaries.

Lemma StronglySorted_nth (l : list Q) :
  StronglySorted Qlt l ->
  forall i j x y, i < j -> nth_error l i = Some x -> nth_error l j = Some y ->
                  (x < y)%Q.
Proof.
  induction 1 as [| a l Hl IH Hall]; intros i j x y Hij Hx Hy.
  - destruct i; discriminate Hx.
  - destruct j as [| j]; [ lia | ]. cbn [nth_error] in Hy.
    destruct i as [| i]; cbn [nth_error] in Hx.
    + injection Hx as <-. rewrite Forall_forall in Hall. apply Hall.
      exact (nth_error_In _ _ Hy).
    + apply (IH i j); [ lia | exact Hx | exact Hy ].
Qed.

Lemma combine_tl_nth (l : list Q) :
  forall i p, nth_error (combine l (tl l)) i = Some p ->
              nth_error l i = Some (fst p) /\ nth_error l (S i) = Some (snd p).
Proof.
  induction l as [| a l IH]; intros i p Hp; [ destruct i; discriminate Hp | ].
  destruct l as [| b l]; [ destruct i; discriminate Hp | ].
  destruct i as [| i].
  - cbn in Hp. injection Hp as <-. split; reflexivity.
  - cbn [tl combine nth_error] in Hp. cbn [nth_error].
    apply (IH i p). exact Hp.
Qed.

(** The pieces between the consecutive elements of a strictly increasing
    list are in order: a piece starts before its own end and before the
    end of every later piece. *)
Lemma consecutive_in_order (l : list Q) :
  StronglySorted Qlt l ->
  forall i j p q, i <= j ->
    nth_error (combine l (tl l)) i = Some p ->
    nth_error (combine l (tl l)) j = Some q ->
    (fst p < snd q)%Q.
Proof.
  intros Hs i j p q Hij Hp Hq.
  apply combine_tl_nth in Hp, Hq. destruct Hp as [Hp _]. destruct Hq as [_ Hq].
  apply (StronglySorted_nth l Hs i (S j)); [ lia | exact Hp | exact Hq ].
Qed.
End StrictBoundaries.

Section ContinuousPieces.
Context {Agent : Type} `{EqDec Agent} `{Valuation Agent Q}.
Context `{Cake Agent} `{Marker Agent} `{Solver Agent Q}.

(** The run of [continuous_setting] in decimal coordinates: boundary
    queries, then the run of [discrete_setting] on partition J. *)
Lemma continuous_setting_run (draws : nat -> nat) (agents : list Agent) :
  let n := length agents in
  let s := random_choices draws agents (n / 2) in
  let J := boundaries_J n s in
  exists marks,
    (forall ev, In ev marks -> exists a start v, ev = EvMark a start v)
    /\ log_of (continuous_setting draws agents)
       = marks ++ log_of (discrete_setting (set_difference agents s) (combine J (tl J)))
    /\ result_of (continuous_setting draws agents)
       = result_of (discrete_setting (set_difference agents s) (combine J (tl J))).
Proof.
  cbv zeta.
  destruct (continuous_setting_log draws agents) as (b0 & bs & HJ & Hlog & Hres).
  cbv zeta in Hlog, Hres.
  eexists. split; [ | split ].
  2: { rewrite Hlog, HJ, boundaries_to_pieces_combine. reflexivity. }
  - intros ev Hev. apply in_flat_map in Hev. destruct Hev as (a & _ & Hev).
    apply in_map_iff in Hev. destruct Hev as (st & <- & _). eauto.
  - rewrite Hres, HJ, boundaries_to_pieces_combine. reflexivity.
Qed.
End ContinuousPieces.

(** [discrete_setting] does not check the order of its pieces: given the
    pieces (1, 2) and (0, 1) it evaluates the piece (1, 1) at level 1. *)
Lemma discrete_setting_unordered_pieces :
  In (1, 1)%Z
     (evaluated_pieces (log_of (discrete_setting [Alice; Bob] [(1, 2); (0, 1)]%Z))).
Proof. vm_compute. tauto. Qed.

Section NormalizeRounding.
Import PrimFloat.

(** On floats a degenerate piece also comes from rounding: of the ten
    pieces of size 0.1, normalised to a cake of length 10, the eighth is
    (7, 7) and the tenth (9, 9), their ends 0.7999999999999999 and
    0.9999999999999999 being truncated to 7 and 9. *)
Lemma normalize_rounded_degenerate :
  exists l,
    Binary64.create_partition 10 0x1.999999999999ap-4 0 = inr l
    /\ map (Binary64.normalize 10) l
       = map Some [(0, 1); (1, 2); (2, 3); (3, 4); (4, 5); (5, 6); (6, 7);
                   (7, 7); (7, 9); (9, 9)]%Z.
Proof.
  eexists. split; [ vm_compute; reflexivity | ].
  vm_compute. reflexivity.
Qed.

(** The rounding of the boundaries on floats and on rationals: the last
    mark of the docstring run is computed as 1.9999999999999964 and
    recorded as 2.0, and 0.16833333333333333 is recorded as the double
    nearest to 0.1683. *)
Lemma round4_examples :
  Binary64.round4 0x1.ffffffffffff0p+0%float = 2%float
  /\ Binary64.round4 0x1.58bf258bf258cp-3%float = 0x1.58adab9f559b4p-3%float
  /\ round4_decimal (Binary64.to_Q 0x1.58bf258bf258cp-3%float) = (1683 # 10000)%Q
  /\ (1683 / 10000)%float = 0x1.58adab9f559b4p-3%float.
Proof.
  repeat split; vm_compute; reflexivity.
Qed.
End NormalizeRounding.

Lemma equally_sized_pieces_valid_dec {Agent : Type} `{EqDec Agent}
    `{Valuation Agent Z} `{Cake Agent} `{Solver Agent Z}
    (agents : list Agent) (size : Q) :
  (agents <> [] /\ (0 < size <= 1)%Q)
  \/ exists msg, equally_sized_pieces agents size = ([], inl (ValueError msg)).
Proof.
  destruct agents as [| a agents].
  { right. apply equally_sized_pieces_invalid. left. reflexivity. }
  destruct (negb (Qltb 0 size && Qle_bool size 1)) eqn:Hb.
  - right. apply equally_sized_pieces_invalid. right.
    intros Hv. apply valid_size_bool in Hv. congruence.
  - left. split; [ discriminate | apply valid_size_bool; exact Hb ].
Qed.

(** C10 (amended). The pieces are in order as far as the algorithms see
    to it.
    - [equally_sized_pieces] (agents with non-negative cake lengths): every
      piece that is evaluated, that an edge of a matching graph leads to,
      or that is placed into the allocation satisfies [start <= end];
      [start = end] is possible.
    - [discrete_setting] takes its pieces as they are given.  When they are
      in order, each piece starting before its own end and before the end
      of every later piece, every piece evaluated, matched or allocated
      satisfies [start < end].
    - [continuous_setting]: the pieces of partition J lie between distinct
      sorted boundaries, and every piece evaluated, matched or allocated
      satisfies [start < end]. *)
Theorem pieces_in_order :
  (forall (Agent : Type) (HA : EqDec Agent) (HV : Valuation Agent Z)
          (HC : Cake Agent) (HS : Solver Agent Z)
          (agents : list Agent) (size : Q),
      (forall a, In a agents -> (0 <= cake_length a)%Q) ->
      (forall p,
          In p (evaluated_pieces (log_of (equally_sized_pieces agents size))) ->
          (fst p <= snd p)%Z)
      /\ (forall g u v w,
             In g (matching_graphs (log_of (equally_sized_pieces agents size))) ->
             get_edge_data g u v = Some w ->
             exists a p, u = inl a /\ v = inr p /\ (fst p <= snd p)%Z)
      /\ (forall al,
             result_of (equally_sized_pieces agents size) = inr al ->
             (forall g,
                 In g (matching_graphs (log_of (equally_sized_pieces agents size))) ->
                 is_matching g (max_weight_matching g)) ->
             forall x, In x (assigned_pieces al) ->
                       exists p, x = inr p /\ (fst p <= snd p)%Z))
  /\ (forall (Agent C : Type) (HA : EqDec Agent) (HE : EqDec C)
             (HV : Valuation Agent C) (HS : Solver Agent C)
             (lt : C -> C -> Prop) (agents : list Agent) (pieces : list (Piece C)),
         (forall i j p q,
             i <= j -> nth_error pieces i = Some p -> nth_error pieces j = Some q ->
             lt (fst p) (snd q)) ->
         (forall p,
             In p (evaluated_pieces (log_of (discrete_setting agents pieces))) ->
             lt (fst p) (snd p))
         /\ (forall g u v w,
                In g (matching_graphs (log_of (discrete_setting agents pieces))) ->
                get_edge_data g u v = Some w ->
                exists a p, u = inl a /\ v = inr p /\ lt (fst p) (snd p))
         /\ (forall al,
                result_of (discrete_setting agents pieces) = inr al ->
                (forall g,
                    In g (matching_graphs (log_of (discrete_setting agents pieces))) ->
                    is_matching g (max_weight_matching g)) ->
                forall x, In x (assigned_pieces al) ->
                          exists p, x = inr p /\ lt (fst p) (snd p)))
  /\ (forall (Agent : Type) (HA : EqDec Agent) (HV : Valuation Agent Q)
             (HC : Cake Agent) (HM : Marker Agent) (HS : Solver Agent Q)
             (draws : nat -> nat) (agents : list Agent),
         (forall p,
             In p (evaluated_pieces (log_of (continuous_setting draws agents))) ->
             (fst p < snd p)%Q)
         /\ (forall g u v w,
                In g (matching_graphs (log_of (continuous_setting draws agents))) ->
                get_edge_data g u v = Some w ->
                exists a p, u = inl a /\ v = inr p /\ (fst p < snd p)%Q)
         /\ (forall al,
                result_of (continuous_setting draws agents) = inr al ->
                (forall g,
                    In g (matching_graphs (log_of (continuous_setting draws agents))) ->
                    is_matching g (max_weight_matching g)) ->
                forall x, In x (assigned_pieces al) ->
                          exists p, x = inr p /\ (fst p < snd p)%Q)).
Proof.
  assert (Hdiscrete :
    forall (Agent C : Type) (HA : EqDec Agent) (HE : EqDec C)
           (HV : Valuation Agent C) (HS : Solver Agent C)
           (lt : C -> C -> Prop) (agents : list Agent) (pieces : list (Piece C)),
      (forall i j p q,
          i <= j -> nth_error pieces i = Some p -> nth_error pieces j = Some q ->
          lt (fst p) (snd q)) ->
      (forall p,
          In p (evaluated_pieces (log_of (discrete_setting agents pieces))) ->
          lt (fst p) (snd p))
      /\ (forall g u v w,
             In g (matching_graphs (log_of (discrete_setting agents pieces))) ->
             get_edge_data g u v = Some w ->
             exists a p, u = inl a /\ v = inr p /\ lt (fst p) (snd p))
      /\ (forall al,
             result_of (discrete_setting agents pieces) = inr al ->
             (forall g,
                 In g (matching_graphs (log_of (discrete_setting agents pieces))) ->
                 is_matching g (max_weight_matching g)) ->
             forall x, In x (assigned_pieces al) ->
                       exists p, x = inr p /\ lt (fst p) (snd p))).
  { intros Agent C HA HE HV HS lt agents pieces Horder.
    assert (Hpart : forall t part p,
               change_partition pieces t = inr part -> In p part -> lt (fst p) (snd p)).
    { intros t part p Ht Hp.
      destruct (coarsened_piece pieces t part p Ht Hp)
        as (i & j & ps & pe & Hij & Hps & Hpe & ->).
      cbn [fst snd]. exact (Horder i j ps pe Hij Hps Hpe). }
    assert (Hgraph : forall g u v w,
               In g (matching_graphs (log_of (discrete_setting agents pieces))) ->
               get_edge_data g u v = Some w ->
               agent_to_piece g
               /\ exists a p, u = inl a /\ v = inr p /\ lt (fst p) (snd p)).
    { intros g u v w Hg Hget. apply matching_graphs_In in Hg.
      destruct (discrete_setting_events agents pieces _ Hg)
        as (t & part & Ht & [Hev | [(a & p & Hev & _) | Hev]]);
        [ discriminate Hev | discriminate Hev | ].
      injection Hev as ->.
      split; [ exact (proj1 (table_graph_edges agents part part)) | ].
      destruct (level_graph_edge agents part u v w Hget)
        as (a & p & -> & -> & _ & _ & Hp).
      exists a, p. split; [ reflexivity | ].
      split; [ reflexivity | exact (Hpart t part p Ht Hp) ]. }
    split; [ | split ].
    - intros p Hp. apply evaluated_pieces_In in Hp. destruct Hp as [a Hev].
      destruct (discrete_setting_events agents pieces _ Hev)
        as (t & part & Ht & [Hc | [(a' & p' & Heq & Hp') | Hc]]);
        [ discriminate Hc | | discriminate Hc ].
      injection Heq as _ <-. exact (Hpart t part p Ht Hp').
    - intros g u v w Hg Hget. exact (proj2 (Hgraph g u v w Hg Hget)).
    - intros al Hres Hcontract x Hx.
      destruct (discrete_setting_one_piece_each agents pieces al Hres Hcontract)
        as (g & Hg & Hone).
      assert (Hatp : agent_to_piece g).
      { apply matching_graphs_In in Hg.
        destruct (discrete_setting_events agents pieces _ Hg)
          as (t & part & Ht & [Hev | [(a & p & Hev & _) | Hev]]);
          [ discriminate Hev | discriminate Hev | ].
        injection Hev as ->. exact (proj1 (table_graph_edges agents part part)). }
      destruct (allocated_pieces_edges agents g _ al Hatp (Hcontract g Hg) Hone x Hx)
        as (a & p & w & -> & Hw).
      destruct (Hgraph g _ _ w Hg Hw) as (_ & a' & p' & _ & Hp' & Hlt).
      injection Hp' as <-. exists p. split; [ reflexivity | exact Hlt ]. }
  split; [ | split; [ exact Hdiscrete | ] ].
  - intros Agent HA HV HC HS agents size Hlen.
    destruct (equally_sized_pieces_valid_dec agents size) as [[Hne Hv] | [msg Hbad]].
    2: { rewrite Hbad. cbn [log_of result_of fst snd].
         split; [ intros p [] | ]. split; [ intros g u v w [] | ].
         intros al Hres. discriminate Hres. }
    destruct (equally_sized_pieces_evaluated agents size Hne Hv Hlen) as [Hev Hgr].
    split; [ exact Hev | ]. split.
    + intros g u v w Hg Hget.
      destruct (Hgr g u v w Hg Hget) as (a & p & -> & -> & Hp).
      exists a, p. split; [ reflexivity | ]. split; [ reflexivity | exact (Hev p Hp) ].
    + intros al Hres Hcontract x Hx.
      destruct (equally_sized_pieces_inv agents size al Hres)
        as (pieces & right & Hg & Hal). cbv zeta in Hg, Hal.
      set (g := create_matching_graph agents right (evaluations_of agents pieces []))
        in *.
      destruct (table_graph_edges agents right pieces) as [Hatp Hag]. fold g in Hatp, Hag.
      assert (Hone : one_piece_each agents (fix_edges (max_weight_matching g)) al).
      { apply (build_allocation_one_piece_each agents g); auto. }
      destruct (allocated_pieces_edges agents g _ al Hatp (Hcontract g Hg) Hone x Hx)
        as (a & p & w & -> & Hw).
      destruct (Hgr g _ _ w Hg Hw) as (a' & p' & _ & Hp' & Hin).
      injection Hp' as <-. exists p. split; [ reflexivity | exact (Hev p Hin) ].
  - intros Agent HA HV HC HM HS draws agents.
    destruct (continuous_setting_run draws agents) as (marks & Hmarks & Hlog & Hres).
    cbv zeta in Hlog, Hres.
    set (s := random_choices draws agents (length agents / 2)) in *.
    set (J := boundaries_J (length agents) s) in *.
    destruct (Hdiscrete Agent Q _ _ _ _ Qlt (set_difference agents s)
                (combine J (tl J))
                (consecutive_in_order J (boundaries_J_increasing (length agents) s)))
      as (Hev & Hgr & Hal).
    assert (Hin : forall ev,
               In ev (log_of (continuous_setting draws agents)) ->
               (forall a start v, ev <> EvMark a start v) ->
               In ev (log_of (discrete_setting (set_difference agents s)
                                (combine J (tl J))))).
    { intros ev Hev' Hno. rewrite Hlog in Hev'. apply in_app_iff in Hev'.
      destruct Hev' as [Hm | Hd]; [ | exact Hd ].
      destruct (Hmarks ev Hm) as (a & start & v & ->). exfalso. exact (Hno a start v eq_refl). }
    split; [ | split ].
    + intros p Hp. apply Hev. apply evaluated_pieces_In in Hp. destruct Hp as [a Ha].
      apply evaluated_pieces_In. exists a. apply Hin; [ exact Ha | discriminate ].
    + intros g u v w Hg Hget. apply (Hgr g u v w); [ | exact Hget ].
      apply matching_graphs_In. apply Hin; [ | discriminate ].
      apply matching_graphs_In. exact Hg.
    + intros al Hr Hcontract x Hx. rewrite Hres in Hr.
      apply (Hal al Hr); [ | exact Hx ].
      intros g Hg. apply Hcontract. apply matching_graphs_In.
      rewrite Hlog. apply in_or_app. right. apply matching_graphs_In. exact Hg.
Qed.

Lemma pieces_in_order_witness :
  ((forall p,
       In p (evaluated_pieces (log_of (equally_sized_pieces [Alice5; Bob5] (3 # 5)))) ->
       (fst p <= snd p)%Z)
   /\ exists al,
        result_of (equally_sized_pieces [Alice5; Bob5] (3 # 5)) = inr al
        /\ forall x, In x (assigned_pieces al) ->
                     exists p, x = inr p /\ (fst p <= snd p)%Z)
  /\ ((forall p,
          In p (evaluated_pieces
                  (log_of (discrete_setting [Alice; Bob] [(0, 1); (1, 2)]%Z))) ->
          (fst p < snd p)%Z)
      /\ exists al,
           result_of (discrete_setting [Alice; Bob] [(0, 1); (1, 2)]%Z) = inr al
           /\ forall x, In x (assigned_pieces al) ->
                        exists p, x = inr p /\ (fst p < snd p)%Z)
  /\ ((forall p,
          In p (evaluated_pieces
                  (log_of (continuous_setting (fun _ : nat => 0)
                             [Alice; mkPC 1 [100; 1]%Z]))) ->
          (fst p < snd p)%Q)
      /\ exists al,
           result_of (continuous_setting (fun _ : nat => 0) [Alice; mkPC 1 [100; 1]%Z])
           = inr al
           /\ forall x, In x (assigned_pieces al) ->
                        exists p, x = inr p /\ (fst p < snd p)%Q).
Proof.
  destruct pieces_in_order as (Hesp & Hdisc & Hcont).
  split; [ | split ].
  - destruct (Hesp PCAgent _ _ _ _ [Alice5; Bob5] (3 # 5)) as (Hev & _ & Hal).
    { intros a [<- | [<- | []]]; discriminate. }
    split; [ exact Hev | ].
    eexists. split; [ vm_compute; reflexivity | ].
    apply Hal; [ vm_compute; reflexivity | ].
    intros g Hg. vm_compute in Hg.
    destruct Hg as [<- | [<- | []]]; apply is_matchingb_sound; vm_compute; reflexivity.
  - destruct (Hdisc PCAgent Z _ _ _ _ Z.lt [Alice; Bob] [(0, 1); (1, 2)]%Z)
      as (Hev & _ & Hal).
    { intros i j p q Hij Hp Hq.
      assert (Hcases : (i = 0 /\ p = (0, 1)%Z) \/ (i = 1 /\ p = (1, 2)%Z)).
      { destruct i as [| [| i]]; cbn in Hp;
          [ left | right | destruct i; discriminate Hp ];
          split; congruence. }
      assert (Hcases' : (j = 0 /\ q = (0, 1)%Z) \/ (j = 1 /\ q = (1, 2)%Z)).
      { destruct j as [| [| j]]; cbn in Hq;
          [ left | right | destruct j; discriminate Hq ];
          split; congruence. }
      destruct Hcases as [[-> ->] | [-> ->]]; destruct Hcases' as [[-> ->] | [-> ->]];
        cbn; lia. }
    split; [ exact Hev | ].
    eexists. split; [ vm_compute; reflexivity | ].
    apply Hal; [ vm_compute; reflexivity | ].
    intros g Hg. vm_compute in Hg.
    destruct Hg as [<- | [<- | []]]; apply is_matchingb_sound; vm_compute; reflexivity.
  - destruct (Hcont PCAgent _ _ _ _ _ (fun _ : nat => 0) [Alice; mkPC 1 [100; 1]%Z])
      as (Hev & _ & Hal).
    split; [ exact Hev | ].
    eexists. split; [ vm_compute; reflexivity | ].
    apply Hal; [ vm_compute; reflexivity | ].
    intros g Hg. vm_compute in Hg.
    destruct Hg as [<- | [<- | [<- | []]]];
      apply is_matchingb_sound; vm_compute; reflexivity.
Defined.
